(** * NeoMaze: maze generation, sampling, path finding and collision

    A shallow embedding of [src/utils/maze.ts] and of the simulation helpers
    of [src/App.tsx], followed by the properties proved about them.

    Conventions of the embedding:
    - grid indices and cell coordinates are [Z] (the source adds negative
      offsets to them);
    - JavaScript numbers that hold continuous quantities (positions, radii,
      distances, [Math.random()]) are exact rationals [Q]; [Math.floor] and
      [Math.ceil] are [Qfloor] and [Qceiling];
    - a grid is the array of rows the source builds, [grid[z][x]];
    - the insertion-ordered [Set<string>] of keys [`${x},${z}`] is the list
      of the cells whose keys were added (the key format is injective on
      integer pairs). *)

From Stdlib Require Import String DecimalString.
From Stdlib Require DecimalZ Finite.
From Stdlib Require Import ZArith QArith Qround Qabs List Bool Lia Lqa
  Permutation Arith.
Import ListNotations.

Open Scope Z_scope.

(** ** types.ts *)

Inductive GamePhase :=
| MENU | MEMORIZE | PLAYING | MAP_PEEK | GAME_OVER | LEVEL_COMPLETE | VICTORY.

Inductive CellType := WALL | PATH | START | END.

Inductive ObstacleType := STATIC_SPIKE | PATROL_ENEMY.

Inductive Axis := AxisX | AxisZ.

(** [Position]: a continuous coordinate. *)
Record Position := mkPosition { pos_x : Q; pos_z : Q }.

(** A grid cell, [(x, z)] with integer coordinates (a [Position] whose
    fields hold integers). *)
Definition Cell := (Z * Z)%type.

(** [Obstacle]: [x] and [z] are the position recorded when the level was
    built; the fields [startLevel] always fills are not optional here. *)
Record Obstacle := mkObstacle {
  obs_id : string;
  obs_x : Q;
  obs_z : Q;
  obs_type : ObstacleType;
  obs_axis : Axis;
  obs_speed : Q;
  obs_range : Q;
  obs_initialPos : Position
}.

Definition Grid := list (list CellType).

Definition GamePhase_eqb (a b : GamePhase) : bool :=
  match a, b with
  | MENU, MENU | MEMORIZE, MEMORIZE | PLAYING, PLAYING | MAP_PEEK, MAP_PEEK
  | GAME_OVER, GAME_OVER | LEVEL_COMPLETE, LEVEL_COMPLETE | VICTORY, VICTORY => true
  | _, _ => false
  end.

Definition cell_eqb (a b : Cell) : bool :=
  (fst a =? fst b) && (snd a =? snd b).

Lemma cell_eqb_eq a b : cell_eqb a b = true <-> a = b.
Proof.
  destruct a as [ax az], b as [bx bz]; unfold cell_eqb; simpl.
  rewrite andb_true_iff, !Z.eqb_eq. split.
  - intros [-> ->]; reflexivity.
  - intros H; inversion H; auto.
Qed.

Lemma cell_eqb_refl a : cell_eqb a a = true.
Proof. apply cell_eqb_eq; reflexivity. Qed.

Lemma cell_eq_dec (a b : Cell) : {a = b} + {a <> b}.
Proof. decide equality; apply Z.eq_dec. Qed.

(** ** Array access *)

(** [arr[i]] for an integer [i]: [None] is JavaScript's [undefined]. *)
Definition index {A} (arr : list A) (i : Z) : option A :=
  if i <? 0 then None else nth_error arr (Z.to_nat i).

(** [arr.length]. *)
Definition len {A} (arr : list A) : Z := Z.of_nat (length arr).

(** [grid[z][x]] as a value: [None] when the row or the element is
    [undefined].  Where the source reads [grid[z][x]] without a guard on [z]
    the embedding of that function says what happens when the row is
    missing. *)
Definition cellAt (grid : Grid) (x z : Z) : option CellType :=
  match index grid z with
  | Some r => index r x
  | None => None
  end.

(** [grid[0].length] where a guard has already established that row 0
    exists ([0 <= z < grid.length] for some [z]); [0] otherwise. *)
Definition width0 (grid : Grid) : Z :=
  match grid with
  | r :: _ => len r
  | [] => 0
  end.

(** [grid[z][x] === CellType.WALL] and its negation; [undefined] is not
    [WALL]. *)
Definition isWall (grid : Grid) (x z : Z) : bool :=
  match cellAt grid x z with
  | Some WALL => true
  | _ => false
  end.

(** The bounds test both [findShortestPath] and [checkWallCollision] apply
    before reading a cell:
    [z >= 0 && z < grid.length && x >= 0 && x < grid[0].length]. *)
Definition inGrid (grid : Grid) (x z : Z) : bool :=
  (0 <=? z) && (z <? len grid) && (0 <=? x) && (x <? width0 grid).

(** ** constants.ts *)

Definition PLAYER_RADIUS : Q := 3 # 10.
Definition PULVERISE_RADIUS : Q := 7 # 2.

(** ** Comparison of numbers *)

Definition Qltb (a b : Q) : bool := negb (Qle_bool b a).

Lemma Qltb_lt a b : Qltb a b = true <-> (a < b)%Q.
Proof.
  unfold Qltb. rewrite negb_true_iff. split.
  - intros H. apply Qnot_le_lt. intro Hle.
    apply Qle_bool_iff in Hle. congruence.
  - intros H. destruct (Qle_bool b a) eqn:E; [|reflexivity].
    apply Qle_bool_iff in E. exfalso. apply (Qlt_not_le _ _ H E).
Qed.

(** ** A [for] loop that returns [true] from inside its body

    [for (let i = lo; i < hi; i++) { if (body i) return true; }], followed
    by code that is reached only when no iteration returned. *)

Fixpoint anyFrom (n : nat) (i : Z) (body : Z -> bool) : bool :=
  match n with
  | O => false
  | S n' => if body i then true else anyFrom n' (i + 1) body
  end.

Definition forAny (lo hi : Z) (body : Z -> bool) : bool :=
  anyFrom (Z.to_nat (hi - lo)) lo body.

(** ** App.tsx: checkWallCollision *)

Module App.

Definition checkWallCollision (x z : Q) (map : Grid) : bool :=
  let pMinX := (x - PLAYER_RADIUS)%Q in
  let pMaxX := (x + PLAYER_RADIUS)%Q in
  let pMinZ := (z - PLAYER_RADIUS)%Q in
  let pMaxZ := (z + PLAYER_RADIUS)%Q in
  let startX := Qfloor (pMinX - (1 # 2)) in
  let endX := Qceiling (pMaxX + (1 # 2)) in
  let startZ := Qfloor (pMinZ - (1 # 2)) in
  let endZ := Qceiling (pMaxZ + (1 # 2)) in
  forAny startZ endZ (fun cz =>
    forAny startX endX (fun cx =>
      if inGrid map cx cz then
        if isWall map cx cz then
          let wMinX := (inject_Z cx - (1 # 2))%Q in
          let wMaxX := (inject_Z cx + (1 # 2))%Q in
          let wMinZ := (inject_Z cz - (1 # 2))%Q in
          let wMaxZ := (inject_Z cz + (1 # 2))%Q in
          Qltb pMinX wMaxX && Qltb wMinX pMaxX
            && Qltb pMinZ wMaxZ && Qltb wMinZ pMaxZ
        else false
      else false)).

(** The state updater of [setPlayerPos] in [update]: the displacement
    [(dx, dz)] of the tick applied to the previous position [prev]. *)
Definition movePlayer (grid : Grid) (dx dz : Q) (prev : Position) : Position :=
  let nextX := (pos_x prev + dx)%Q in
  let nextZ := (pos_z prev + dz)%Q in
  let newX := if negb (checkWallCollision nextX (pos_z prev) grid)
              then nextX else pos_x prev in
  let newZ := if negb (checkWallCollision newX nextZ grid)
              then nextZ else pos_z prev in
  mkPosition newX newZ.

(** *** Session state

    The React state and refs the simulation reads and writes.  A state
    setter takes effect at once (the updater functions the source passes to
    [setLives], [setObstacles] and [setPulveriseCooldown] make the result the
    same as React's queued application).  [invulnerable] is
    [invulnerableRef.current]; [timeouts] holds the due times, in
    milliseconds, of the pending callbacks [handleHit] scheduled with
    [setTimeout]; [clock] is the time of the latest event. *)
Record Session := mkSession {
  phase : GamePhase;
  isPaused : bool;
  lives : Z;
  playerPos : Position;
  canPulverise : bool;
  pulveriseCooldown : Z;
  obstacles : list Obstacle;
  invulnerable : bool;
  timeouts : list Q;
  clock : Q
}.

Definition setLives (f : Z -> Z) (s : Session) : Session :=
  mkSession (phase s) (isPaused s) (f (lives s)) (playerPos s) (canPulverise s)
    (pulveriseCooldown s) (obstacles s) (invulnerable s) (timeouts s) (clock s).

Definition setPhase (p : GamePhase) (s : Session) : Session :=
  mkSession p (isPaused s) (lives s) (playerPos s) (canPulverise s)
    (pulveriseCooldown s) (obstacles s) (invulnerable s) (timeouts s) (clock s).

Definition setCanPulverise (b : bool) (s : Session) : Session :=
  mkSession (phase s) (isPaused s) (lives s) (playerPos s) b
    (pulveriseCooldown s) (obstacles s) (invulnerable s) (timeouts s) (clock s).

Definition setPulveriseCooldown (f : Z -> Z) (s : Session) : Session :=
  mkSession (phase s) (isPaused s) (lives s) (playerPos s) (canPulverise s)
    (f (pulveriseCooldown s)) (obstacles s) (invulnerable s) (timeouts s) (clock s).

Definition setObstacles (f : list Obstacle -> list Obstacle) (s : Session) : Session :=
  mkSession (phase s) (isPaused s) (lives s) (playerPos s) (canPulverise s)
    (pulveriseCooldown s) (f (obstacles s)) (invulnerable s) (timeouts s) (clock s).

Definition setPlayerPos (f : Position -> Position) (s : Session) : Session :=
  mkSession (phase s) (isPaused s) (lives s) (f (playerPos s)) (canPulverise s)
    (pulveriseCooldown s) (obstacles s) (invulnerable s) (timeouts s) (clock s).

Definition setIsPaused (b : bool) (s : Session) : Session :=
  mkSession (phase s) b (lives s) (playerPos s) (canPulverise s)
    (pulveriseCooldown s) (obstacles s) (invulnerable s) (timeouts s) (clock s).

Definition setInvulnerable (b : bool) (s : Session) : Session :=
  mkSession (phase s) (isPaused s) (lives s) (playerPos s) (canPulverise s)
    (pulveriseCooldown s) (obstacles s) b (timeouts s) (clock s).

(** [setTimeout(callback, delay)] called at time [now]. *)
Definition setTimeout (now delay : Q) (s : Session) : Session :=
  mkSession (phase s) (isPaused s) (lives s) (playerPos s) (canPulverise s)
    (pulveriseCooldown s) (obstacles s) (invulnerable s)
    (timeouts s ++ [(now + delay)%Q]) (clock s).

Definition setClock (now : Q) (s : Session) : Session :=
  mkSession (phase s) (isPaused s) (lives s) (playerPos s) (canPulverise s)
    (pulveriseCooldown s) (obstacles s) (invulnerable s) (timeouts s) now.

(** The values of [useState] and [useRef] when the component mounts. *)
Definition initial : Session :=
  mkSession MENU false 3 (mkPosition 1 1) false 0 [] false [] 0.

Section Simulation.

(** [Math.sin] and [Math.sqrt], left uninterpreted. *)
Variable sin : Q -> Q.
Variable sqrt : Q -> Q.

(** The live position of an obstacle at [t] seconds, as both [update] and
    [handlePulverise] recompute it. *)
Definition livePosition (t : Q) (obs : Obstacle) : Q * Q :=
  let obsX := pos_x (obs_initialPos obs) in
  let obsZ := pos_z (obs_initialPos obs) in
  match obs_type obs with
  | PATROL_ENEMY =>
      let move := (sin (t * obs_speed obs) * obs_range obs)%Q in
      match obs_axis obs with
      | AxisX => ((obsX + move)%Q, obsZ)
      | AxisZ => (obsX, (obsZ + move)%Q)
      end
  | STATIC_SPIKE => (obsX, obsZ)
  end.

Definition distance (t : Q) (obs : Obstacle) (player : Position) : Q :=
  let p := livePosition t obs in
  sqrt ((fst p - pos_x player) ^ 2 + (snd p - pos_z player) ^ 2)%Q.

Definition handleHit (now : Q) (s : Session) : Session :=
  let s := setInvulnerable true s in
  let s :=
    let newLives := lives s - 1 in
    let s := if newLives <=? 0 then setPhase GAME_OVER s else s in
    setLives (fun _ => newLives) s in
  setTimeout now 1500 s.

(** Step 3 of [update]: the [obstacles.forEach] pass.  The obstacle list
    and the player position are the ones the callback closed over; the
    accumulator carries the session and [nearbyEnemy]. *)
Definition checkObstacle (time : Q) (player : Position)
    (acc : Session * bool) (obs : Obstacle) : Session * bool :=
  let t := (time / 1000)%Q in
  let (s, nearbyEnemy) := acc in
  let dist := distance t obs player in
  let nearbyEnemy := if Qltb dist PULVERISE_RADIUS then true else nearbyEnemy in
  let s := if Qltb dist (PLAYER_RADIUS + (35 # 100)) && negb (invulnerable s)
           then handleHit time s else s in
  (s, nearbyEnemy).

Definition obstaclePass (time : Q) (s : Session) : Session * bool :=
  fold_left (checkObstacle time (playerPos s)) (obstacles s) (s, false).

(** [update(time)], restricted to the guard, the obstacle pass and
    [setCanPulverise]. *)
Definition update (time : Q) (s : Session) : Session :=
  if negb (GamePhase_eqb (phase s) PLAYING) || isPaused s then s
  else
    let (s', nearbyEnemy) := obstaclePass time s in
    setCanPulverise (nearbyEnemy && (pulveriseCooldown s =? 0)) s'.

Definition handlePulverise (now : Q) (s : Session) : Session :=
  if negb (canPulverise s) then s
  else
    let t := (now / 1000)%Q in
    let player := playerPos s in
    let s := setObstacles
               (filter (fun obs => Qltb PULVERISE_RADIUS (distance t obs player))) s in
    let s := setPulveriseCooldown (fun _ => 3) s in
    setCanPulverise false s.

(** The part of [startLevel] that writes the session: a fresh obstacle
    list, the player on the start cell, the ability off, the MEMORIZE
    phase. *)
Definition startLevel (newObstacles : list Obstacle) (start : Position)
    (s : Session) : Session :=
  let s := setIsPaused false s in
  let s := setPlayerPos (fun _ => start) s in
  let s := setObstacles (fun _ => newObstacles) s in
  let s := setCanPulverise false s in
  setPhase MEMORIZE s.

(** What the event loop can run next. *)
Inductive Event :=
| AnimationFrame      (* the [requestAnimationFrame] callback, [update] *)
| TimeoutExpires      (* the oldest pending callback of [handleHit] *)
| CooldownInterval    (* [setPulveriseCooldown(c => Math.max(0, c - 1))] *)
| PulverisePressed    (* [handlePulverise] *)
| PlayerMoved (dx dz : Q) (grid : Grid)
                      (* the [setPlayerPos] updater of [update] *)
| PhaseSet (p : GamePhase)
                      (* [setPhase] from the countdown, the win check, a button *)
| PausedSet (b : bool)
                      (* [setIsPaused] *)
| LevelStarted (newObstacles : list Obstacle) (start : Position)
                      (* [startLevel] *)
| ExtraLifeCollected. (* [setLives(l => l + 1)] in [collectPowerUp] *)

Definition step (now : Q) (e : Event) (s : Session) : Session :=
  let s := setClock now s in
  match e with
  | AnimationFrame => update now s
  | TimeoutExpires =>
      mkSession (phase s) (isPaused s) (lives s) (playerPos s) (canPulverise s)
        (pulveriseCooldown s) (obstacles s) false (tl (timeouts s)) (clock s)
  | CooldownInterval => setPulveriseCooldown (fun c => Z.max 0 (c - 1)) s
  | PulverisePressed => handlePulverise now s
  | PlayerMoved dx dz grid => setPlayerPos (movePlayer grid dx dz) s
  | PhaseSet p => setPhase p s
  | PausedSet b => setIsPaused b s
  | LevelStarted newObstacles start => startLevel newObstacles start s
  | ExtraLifeCollected => setLives (fun l => l + 1) s
  end.

(** The clock does not run backwards, and a timeout callback does not run
    before it is due. *)
Definition enabled (s : Session) (now : Q) (e : Event) : Prop :=
  (clock s <= now)%Q /\
  match e with
  | TimeoutExpires =>
      match timeouts s with
      | due :: _ => (due <= now)%Q
      | [] => False
      end
  | _ => True
  end.

Fixpoint run (trace : list (Q * Event)) (s : Session) : Session :=
  match trace with
  | [] => s
  | (now, e) :: rest => run rest (step now e s)
  end.

Fixpoint valid (s : Session) (trace : list (Q * Event)) : Prop :=
  match trace with
  | [] => True
  | (now, e) :: rest => enabled s now e /\ valid (step now e s) rest
  end.

(** The sessions the event loop can produce from the mounted component. *)
Definition reachable (s : Session) : Prop :=
  exists history, valid initial history /\ run history initial = s.

End Simulation.

End App.

(** ** Outcomes of a call

    A call of a source function either returns a value, throws (the only
    exception the modelled code can raise is the [TypeError] of reading or
    writing through an [undefined] row), or is still running when the fuel
    of the embedding is used up. *)

Inductive Outcome (A : Type) : Type :=
| Returns (a : A)
| Throws
| OutOfFuel.

Arguments Returns {A} a.
Arguments Throws {A}.
Arguments OutOfFuel {A}.

Definition bind {A B} (m : Outcome A) (k : A -> Outcome B) : Outcome B :=
  match m with
  | Returns a => k a
  | Throws => Throws
  | OutOfFuel => OutOfFuel
  end.

Notation "x <- m ;; k" := (bind m (fun x => k))
  (at level 61, m at next level, right associativity).

(** An [undefined] where the source dereferences the value. *)
Definition defined {A} (o : option A) : Outcome A :=
  match o with
  | Some a => Returns a
  | None => Throws
  end.

(** ** utils/maze.ts *)

Module Maze.

(** [arr[i] = v] on a dense array, for [0 <= i < arr.length]. *)
Fixpoint setNth {A} (i : nat) (v : A) (arr : list A) : list A :=
  match arr, i with
  | [], _ => []
  | _ :: t, O => v :: t
  | h :: t, S i' => h :: setNth i' v t
  end.

(** [grid[z][x] = v].  Reading [grid[z]] gives [undefined] outside
    [0 <= z < grid.length] and the assignment through it throws.  A column
    outside [0 <= x < row.length] would make the row sparse (or add a
    property to it); the embedding covers dense rows only and counts such a
    write as leaving the model, reported as [Throws] as well. *)
Definition setCell (grid : Grid) (x z : Z) (v : CellType) : Outcome Grid :=
  match index grid z with
  | None => Throws
  | Some r =>
      if (0 <=? x) && (x <? len r)
      then Returns (setNth (Z.to_nat z) (setNth (Z.to_nat x) v r) grid)
      else Throws
  end.

(** [set.has(key)] and [set.add(key)] on the insertion-ordered set. *)
Definition has (set : list Cell) (c : Cell) : bool := existsb (cell_eqb c) set.

Definition add (set : list Cell) (c : Cell) : list Cell :=
  if has set c then set else set ++ [c].

(** *** generateMaze *)

(** [Array(height).fill(null).map(() => Array(width).fill(CellType.WALL))],
    for sizes that are not negative. *)
Definition initGrid (width height : Z) : Grid :=
  repeat (repeat WALL (Z.to_nat width)) (Z.to_nat height).

(** North, East, South, West, as [(x, z)] offsets. *)
Definition directions : list (Z * Z) := [(0, -2); (2, 0); (0, 2); (-2, 0)].

Definition isInBounds (width height x z : Z) : bool :=
  (0 <? x) && (x <? width - 1) && (0 <? z) && (z <? height - 1).

(** The mutable state [carve] works on: the grid, the [carved] set, and the
    number of calls of [shuffle] made so far (which selects the next answer
    of the random source). *)
Record CarveState := mkCarveState {
  cs_grid : Grid;
  cs_carved : list Cell;
  cs_calls : nat
}.

Section Generate.

(** [shuffle k] is the array returned by the [k]-th call of
    [shuffle([...directions])]: sorting with a random comparator returns
    the elements of its argument in some order. *)
Variable shuffle : nat -> list (Z * Z).

Variables width height : Z.

(** [dir.x / 2] is exact on the offsets of [directions]. *)
Fixpoint carve (fuel : nat) (x z : Z) (st : CarveState) : Outcome CarveState :=
  match fuel with
  | O => OutOfFuel
  | S fuel' =>
      let carved1 := add (cs_carved st) (x, z) in
      grid1 <- setCell (cs_grid st) x z PATH ;;
      let shuffledDirs := shuffle (cs_calls st) in
      (fix each (dirs : list (Z * Z)) (st : CarveState) : Outcome CarveState :=
         match dirs with
         | [] => Returns st
         | dir :: rest =>
             let nx := x + fst dir in
             let nz := z + snd dir in
             if isInBounds width height nx nz && negb (has (cs_carved st) (nx, nz))
             then
               grid2 <- setCell (cs_grid st) (x + fst dir / 2) (z + snd dir / 2) PATH ;;
               st' <- carve fuel' nx nz
                        (mkCarveState grid2 (cs_carved st) (cs_calls st)) ;;
               each rest st'
             else each rest st
         end)
        shuffledDirs (mkCarveState grid1 carved1 (S (cs_calls st)))
  end.

(** The [while] loop that walks the END candidate towards [(1, 1)]. *)
Fixpoint findEnd (fuel : nat) (grid : Grid) (endX endY : Z) : Outcome Cell :=
  match fuel with
  | O => OutOfFuel
  | S fuel' =>
      r <- defined (index grid endY) ;;
      match index r endX with
      | Some WALL =>
          if 1 <? endX then findEnd fuel' grid (endX - 1) endY
          else if 1 <? endY then findEnd fuel' grid endX (endY - 1)
          else findEnd fuel' grid endX endY
      | _ => Returns (endX, endY)
      end
  end.

Record MazeResult := mkMazeResult {
  mz_grid : Grid;
  mz_start : Cell;
  mz_end : Cell
}.

Definition generateMazeFuel (fuel : nat) : Outcome MazeResult :=
  let grid := initGrid width height in
  st <- carve fuel 1 1 (mkCarveState grid [] 0) ;;
  grid1 <- setCell (cs_grid st) 1 1 START ;;
  e <- findEnd fuel grid1 (width - 2) (height - 2) ;;
  grid2 <- setCell grid1 (fst e) (snd e) END ;;
  Returns (mkMazeResult grid2 (1, 1) e).

(** Fuel that the recursion and the loop never use up on a grid of this
    size (see [generateMaze_tree]). *)
Definition generateMaze : Outcome MazeResult :=
  generateMazeFuel (S (Z.to_nat (width * height))).

End Generate.

(** *** findEmptySpots *)

Section Sample.

(** [random k] is the value of the [k]-th call of [Math.random()]. *)
Variable random : nat -> Q.

(** One unit of fuel is one evaluation of the loop condition; [k] counts
    the calls of [Math.random()] made so far.  [attempts] is the constant
    the source declares before the loop: no statement assigns to it, so
    every iteration passes it on as it is. *)
Fixpoint sampleLoop (fuel : nat) (grid : Grid) (width height count : Z)
    (excludeNearStart : bool) (attempts : Z) (k : nat) (spots : list Cell)
  : Outcome (list Cell) :=
  match fuel with
  | O => OutOfFuel
  | S fuel' =>
      if (len spots <? count) && (attempts <? 1000) then
        let x := Qfloor (random k * inject_Z width) in
        let z := Qfloor (random (S k) * inject_Z height) in
        r <- defined (index grid z) ;;
        match index r x with
        | Some PATH =>
            if excludeNearStart && (x <? 4) && (z <? 4)
            then sampleLoop fuel' grid width height count excludeNearStart
                   attempts (S (S k)) spots
            else if negb (existsb (fun s => (fst s =? x) && (snd s =? z)) spots)
            then sampleLoop fuel' grid width height count excludeNearStart
                   attempts (S (S k)) (spots ++ [(x, z)])
            else sampleLoop fuel' grid width height count excludeNearStart
                   attempts (S (S k)) spots
        | _ => sampleLoop fuel' grid width height count excludeNearStart
                 attempts (S (S k)) spots
        end
      else Returns spots
  end.

Definition findEmptySpots (fuel : nat) (grid : Grid) (count : Z)
    (excludeNearStart : bool) : Outcome (list Cell) :=
  let spots := [] in
  let height := len grid in
  row0 <- defined (index grid 0) ;;
  let width := len row0 in
  let attempts := 0 in
  sampleLoop fuel grid width height count excludeNearStart attempts 0 spots.

End Sample.

(** *** findShortestPath *)

Definition QueueEntry := (Cell * list Cell)%type.

Definition neighbors (pos : Cell) : list Cell :=
  [ (fst pos + 1, snd pos); (fst pos - 1, snd pos);
    (fst pos, snd pos + 1); (fst pos, snd pos - 1) ].

(** The body of [for (const neighbor of neighbors)], on the queue and the
    visited set. *)
Definition visitNeighbor (grid : Grid) (path : list Cell)
    (acc : list QueueEntry * list Cell) (neighbor : Cell)
  : list QueueEntry * list Cell :=
  let (queue, visited) := acc in
  if inGrid grid (fst neighbor) (snd neighbor) then
    if negb (isWall grid (fst neighbor) (snd neighbor)) then
      if negb (has visited neighbor)
      then (queue ++ [(neighbor, path ++ [neighbor])], add visited neighbor)
      else acc
    else acc
  else acc.

Fixpoint bfsLoop (fuel : nat) (grid : Grid) (endX endZ : Z)
    (queue : list QueueEntry) (visited : list Cell) : Outcome (list Cell) :=
  match fuel with
  | O => OutOfFuel
  | S fuel' =>
      match queue with
      | [] => Returns []
      | (pos, path) :: rest =>
          if (fst pos =? endX) && (snd pos =? endZ) then Returns path
          else
            let (queue', visited') :=
              fold_left (visitNeighbor grid path) (neighbors pos) (rest, visited) in
            bfsLoop fuel' grid endX endZ queue' visited'
      end
  end.

Definition findShortestPathFuel (fuel : nat) (grid : Grid) (start end_ : Position)
  : Outcome (list Cell) :=
  let startX := Qfloor (pos_x start) in
  let startZ := Qfloor (pos_z start) in
  let endX := Qfloor (pos_x end_) in
  let endZ := Qfloor (pos_z end_) in
  bfsLoop fuel grid endX endZ
    [((startX, startZ), [(startX, startZ)])]
    (add [] (startX, startZ)).

(** Fuel that the loop never uses up on this grid (see
    [findShortestPath_answer]). *)
Definition searchFuel (grid : Grid) : nat :=
  S (S (length grid * Z.to_nat (width0 grid))).

Definition findShortestPath (grid : Grid) (start end_ : Position)
  : Outcome (list Cell) :=
  findShortestPathFuel (searchFuel grid) grid start end_.

End Maze.

(** ** constants.ts: the level table *)

Record LevelConfig := mkLevelConfig {
  lc_size : Z;
  lc_obstacles : Z;
  lc_movingObstacles : bool
}.

Definition LEVELS : list LevelConfig :=
  [ mkLevelConfig 7 0 false;
    mkLevelConfig 9 2 false;
    mkLevelConfig 11 4 true;
    mkLevelConfig 13 6 true;
    mkLevelConfig 15 8 true ].

Definition MEMORIZE_TIME : Z := 10.

(** ** types.ts: power-ups *)

Inductive PowerUpType := MAP_REVEAL | EXTRA_LIFE.

Record PowerUp := mkPowerUp {
  pu_id : string;
  pu_x : Q;
  pu_z : Q;
  pu_type : PowerUpType;
  pu_collected : bool
}.

(** ** App.tsx: level construction, countdown and pickups *)

Module Level.

(** [a || b] on values that are objects or [undefined]. *)
Definition orElse {A} (a b : option A) : option A :=
  match a with
  | Some x => Some x
  | None => b
  end.

(** The template literal [`${prefix}${i}`] for an integer [i]. *)
Definition label (prefix : string) (i : Z) : string :=
  (prefix ++ DecimalString.NilEmpty.string_of_int (Z.to_int i))%string.

(** *** startLevel: the size of the maze

    [LEVELS[index] || LEVELS[LEVELS.length - 1]], [extraSize] and [size];
    reading [config.size] of [undefined] throws. *)
Definition levelConfig (level : Z) : Outcome LevelConfig :=
  defined (orElse (index LEVELS level) (index LEVELS (len LEVELS - 1))).

Definition levelSize (level : Z) : Outcome Z :=
  config <- levelConfig level ;;
  let extraSize :=
    if len LEVELS <=? level then (level - len LEVELS + 1) * 2 else 0 in
  Returns (lc_size config + extraSize).

(** *** startLevel: the initial rotation

    The four values [startRot] can take. *)
Inductive Rotation :=
| Rot_0            (* [0], facing North (-Z) *)
| Rot_PI           (* [Math.PI], facing South (+Z) *)
| Rot_minusHalfPI  (* [-Math.PI / 2], facing East (+X) *)
| Rot_halfPI.      (* [Math.PI / 2], facing West (-X) *)

(** [newGrid[z][x] !== CellType.WALL], throwing when the row is missing. *)
Definition notWall (grid : Grid) (x z : Z) : Outcome bool :=
  r <- defined (index grid z) ;;
  Returns (match index r x with
           | Some WALL => false
           | _ => true
           end).

(** [cond && test]: [test] is evaluated only when [cond] holds. *)
Definition andThen (cond : bool) (test : Outcome bool) : Outcome bool :=
  if cond then test else Returns false.

Definition startRotation (newGrid : Grid) (start : Cell) : Outcome Rotation :=
  let x := fst start in
  let z := snd start in
  north <- andThen (0 <? z) (notWall newGrid x (z - 1)) ;;
  if north then Returns Rot_0 else
  south <- andThen (z <? len newGrid - 1) (notWall newGrid x (z + 1)) ;;
  if south then Returns Rot_PI else
  row0 <- defined (index newGrid 0) ;;
  east <- andThen (x <? len row0 - 1) (notWall newGrid (x + 1) z) ;;
  if east then Returns Rot_minusHalfPI else
  west <- andThen (0 <? x) (notWall newGrid (x - 1) z) ;;
  if west then Returns Rot_halfPI else Returns Rot_0.

(** *** startLevel: obstacles and power-ups *)

Section Entities.

(** [random k] is the value of the [k]-th call of [Math.random()] made by
    the two loops. *)
Variable random : nat -> Q.

Variable config : LevelConfig.
Variable emptySpots : list Cell.

Definition makeObstacle (i : Z) (spot : Cell) (k : nat) : Obstacle :=
  let isMoving := lc_movingObstacles config && (i mod 2 =? 0) in
  mkObstacle (label "obs-" i)
    (inject_Z (fst spot)) (inject_Z (snd spot))
    (if isMoving then PATROL_ENEMY else STATIC_SPIKE)
    (if Qltb (1 # 2) (random k) then AxisX else AxisZ)
    ((3 # 2) + random (S k))%Q
    (3 # 2)
    (mkPosition (inject_Z (fst spot)) (inject_Z (snd spot))).

(** [for (let i = 0; i < config.obstacles; i++)], with [n] iterations left;
    a missing spot breaks out of the loop. *)
Fixpoint addObstacles (n : nat) (i : Z) (k : nat) (newObstacles : list Obstacle)
  : list Obstacle * nat :=
  match n with
  | O => (newObstacles, k)
  | S n' =>
      match index emptySpots i with
      | None => (newObstacles, k)
      | Some spot =>
          addObstacles n' (i + 1) (S (S k)) (newObstacles ++ [makeObstacle i spot k])
      end
  end.

Definition makePowerUp (i : Z) (spot : Cell) (k : nat) : PowerUp :=
  mkPowerUp (label "pwr-" i)
    (inject_Z (fst spot)) (inject_Z (snd spot))
    (if Qltb (6 # 10) (random k) then EXTRA_LIFE else MAP_REVEAL)
    false.

(** [for (let i = config.obstacles; i < emptySpots.length; i++)], with [n]
    iterations left; [spot.x] of a missing spot throws. *)
Fixpoint addPowerUps (n : nat) (i : Z) (k : nat) (newPowerUps : list PowerUp)
  : Outcome (list PowerUp) :=
  match n with
  | O => Returns newPowerUps
  | S n' =>
      spot <- defined (index emptySpots i) ;;
      addPowerUps n' (i + 1) (S k) (newPowerUps ++ [makePowerUp i spot k])
  end.

Definition placeEntities : Outcome (list Obstacle * list PowerUp) :=
  let (newObstacles, k) := addObstacles (Z.to_nat (lc_obstacles config)) 0 0 [] in
  newPowerUps <- addPowerUps (Z.to_nat (len emptySpots - lc_obstacles config))
                   (lc_obstacles config) k [] ;;
  Returns (newObstacles, newPowerUps).

End Entities.

(** [findEmptySpots(newGrid, config.obstacles + 2, true)] followed by the
    two loops.  [random] serves the calls of [Math.random()] made by the
    sampling, [random'] the calls made after it. *)
Definition populate (random random' : nat -> Q) (fuel : nat)
    (config : LevelConfig) (newGrid : Grid)
  : Outcome (list Obstacle * list PowerUp) :=
  emptySpots <- Maze.findEmptySpots random fuel newGrid (lc_obstacles config + 2) true ;;
  placeEntities random' config emptySpots.

(** *** The countdown of MEMORIZE and MAP_PEEK

    The updater of [setTimer] in the interval callback, on the phase and the
    timer. *)
Definition countdownTick (st : GamePhase * Z) : GamePhase * Z :=
  let (phase, prev) := st in
  if prev <=? 1 then (PLAYING, 0) else (phase, prev - 1).

(** *** collectPowerUp

    The state [collectPowerUp] writes: the power-ups, the lives, the staged
    path and the due times of the callbacks that clear it. *)
Record Pickups := mkPickups {
  pk_powerUps : list PowerUp;
  pk_lives : Z;
  pk_optimalPath : list Cell;
  pk_clearAt : list Q
}.

Definition markCollected (p : PowerUp) (pu : PowerUp) : PowerUp :=
  if String.eqb (pu_id pu) (pu_id p)
  then mkPowerUp (pu_id pu) (pu_x pu) (pu_z pu) (pu_type pu) true
  else pu.

Definition collectPowerUp (grid : Grid) (playerPos endPos : Position) (now : Q)
    (p : PowerUp) (st : Pickups) : Outcome Pickups :=
  let powerUps := map (markCollected p) (pk_powerUps st) in
  match pu_type p with
  | EXTRA_LIFE =>
      Returns (mkPickups powerUps (pk_lives st + 1) (pk_optimalPath st) (pk_clearAt st))
  | MAP_REVEAL =>
      path <- Maze.findShortestPath grid playerPos endPos ;;
      Returns (mkPickups powerUps (pk_lives st) path
                 (pk_clearAt st ++ [(now + 5000)%Q]))
  end.

(** Step 4 of [update]: the [powerUps.forEach] pass.  The list iterated
    and the player position are the ones the callback closed over. *)
Section PickupPass.

Variable sqrt : Q -> Q.

Definition pickupDistance (p : PowerUp) (player : Position) : Q :=
  sqrt ((pu_x p - pos_x player) ^ 2 + (pu_z p - pos_z player) ^ 2)%Q.

Definition checkPowerUp (grid : Grid) (playerPos endPos : Position) (now : Q)
    (acc : Outcome Pickups) (p : PowerUp) : Outcome Pickups :=
  st <- acc ;;
  if pu_collected p then Returns st
  else if Qltb (pickupDistance p playerPos) (1 # 2)
       then collectPowerUp grid playerPos endPos now p st
       else Returns st.

Definition pickupPass (grid : Grid) (playerPos endPos : Position) (now : Q)
    (powerUps : list PowerUp) (st : Pickups) : Outcome Pickups :=
  fold_left (checkPowerUp grid playerPos endPos now) powerUps (Returns st).

End PickupPass.

End Level.

(** * Properties *)

(** ** Loops *)

Lemma anyFrom_true n i body :
  anyFrom n i body = true <->
  exists k, i <= k < i + Z.of_nat n /\ body k = true.
Proof.
  revert i. induction n as [|n IH]; intros i; simpl anyFrom.
  - split; [discriminate|]. intros (k & Hk & _). lia.
  - destruct (body i) eqn:Hb.
    + split; [|reflexivity]. intros _. exists i. split; [lia|exact Hb].
    + rewrite IH. split; intros (k & Hk & Hbk).
      * exists k. split; [lia|exact Hbk].
      * exists k. split; [|exact Hbk].
        assert (k <> i) by (intros ->; congruence). lia.
Qed.

Lemma forAny_true lo hi body :
  forAny lo hi body = true <-> exists k, lo <= k < hi /\ body k = true.
Proof.
  unfold forAny. rewrite anyFrom_true. split; intros (k & Hk & Hb); exists k.
  - split; [lia|exact Hb].
  - split; [lia|exact Hb].
Qed.

(** ** CollisionResolver *)

Section Collision.

Import App.

(** An in-bounds WALL cell, with the bounds the source tests. *)
Definition wallCell (map : Grid) (cx cz : Z) : Prop :=
  inGrid map cx cz = true /\ cellAt map cx cz = Some WALL.

Lemma isWall_true map cx cz : isWall map cx cz = true <-> cellAt map cx cz = Some WALL.
Proof.
  unfold isWall. destruct (cellAt map cx cz) as [[]|]; split; congruence.
Qed.

(** The footprint's bounding box against the unit square of cell [c]. *)
Definition footprintOverlaps (x z : Q) (cx cz : Z) : Prop :=
  (Qabs (x - inject_Z cx) < (1 # 2) + PLAYER_RADIUS)%Q /\
  (Qabs (z - inject_Z cz) < (1 # 2) + PLAYER_RADIUS)%Q.

Lemma Qabs_lt_iff (a b : Q) : (Qabs a < b)%Q <-> (- b < a /\ a < b)%Q.
Proof.
  split.
  - intros H. destruct (Qlt_le_dec a 0) as [Hn|Hp].
    + rewrite Qabs_neg in H by (apply Qlt_le_weak; exact Hn). lra.
    + rewrite Qabs_pos in H by exact Hp. lra.
  - intros [H1 H2]. apply Qabs_case; intros; lra.
Qed.

Lemma floor_below_int (q : Q) (c : Z) : (q < inject_Z c)%Q -> Qfloor q <= c.
Proof.
  intros H. pose proof (Qfloor_le q) as Hf.
  assert (Hlt : (inject_Z (Qfloor q) < inject_Z c)%Q) by lra.
  rewrite <- Zlt_Qlt in Hlt. lia.
Qed.

Lemma ceiling_above_int (q : Q) (c : Z) : (inject_Z c < q)%Q -> c < Qceiling q.
Proof.
  intros H. pose proof (Qle_ceiling q) as Hc.
  assert (Hlt : (inject_Z c < inject_Z (Qceiling q))%Q) by lra.
  rewrite <- Zlt_Qlt in Hlt. exact Hlt.
Qed.

Lemma box_test_iff (x z : Q) (cx cz : Z) :
  Qltb (x - PLAYER_RADIUS) (inject_Z cx + (1 # 2))
  && Qltb (inject_Z cx - (1 # 2)) (x + PLAYER_RADIUS)
  && Qltb (z - PLAYER_RADIUS) (inject_Z cz + (1 # 2))
  && Qltb (inject_Z cz - (1 # 2)) (z + PLAYER_RADIUS) = true
  <-> footprintOverlaps x z cx cz.
Proof.
  unfold footprintOverlaps. rewrite !andb_true_iff, !Qltb_lt, !Qabs_lt_iff.
  unfold PLAYER_RADIUS. split.
  - intros [[[H1 H2] H3] H4]. repeat split; lra.
  - intros [[H1 H2] [H3 H4]]. repeat split; lra.
Qed.

Lemma checkWallCollision_iff (x z : Q) (map : Grid) :
  checkWallCollision x z map = true <->
  exists cx cz, wallCell map cx cz /\ footprintOverlaps x z cx cz.
Proof.
  unfold checkWallCollision. cbv zeta. rewrite forAny_true. split.
  - intros (cz & Hcz & H). rewrite forAny_true in H.
    destruct H as (cx & Hcx & H).
    destruct (inGrid map cx cz) eqn:Hin; [|discriminate].
    destruct (isWall map cx cz) eqn:Hw; [|discriminate].
    exists cx, cz. split.
    + split; [exact Hin|]. apply isWall_true; exact Hw.
    + apply box_test_iff. exact H.
  - intros (cx & cz & [Hin Hw] & Hov).
    pose proof Hov as Hbox. apply box_test_iff in Hbox.
    destruct Hov as [Hx Hz]. rewrite Qabs_lt_iff in Hx, Hz.
    unfold PLAYER_RADIUS in *.
    exists cz. split.
    + split.
      * apply floor_below_int. lra.
      * apply ceiling_above_int. lra.
    + rewrite forAny_true. exists cx. split.
      * split.
        -- apply floor_below_int. lra.
        -- apply ceiling_above_int. lra.
      * rewrite Hin. apply isWall_true in Hw. rewrite Hw. exact Hbox.
Qed.

End Collision.

Section CollisionFacts.

Import App.

Lemma int_close_eq (a b : Z) :
  (Qabs (inject_Z a - inject_Z b) < (1 # 2) + PLAYER_RADIUS)%Q -> a = b.
Proof.
  rewrite Qabs_lt_iff. unfold PLAYER_RADIUS. intros [H1 H2].
  assert (Hm : (inject_Z (b - 1) == inject_Z b - 1)%Q).
  { unfold Z.sub. rewrite inject_Z_plus. reflexivity. }
  assert (Hp : (inject_Z (b + 1) == inject_Z b + 1)%Q).
  { rewrite inject_Z_plus. reflexivity. }
  assert (Ha : (inject_Z (b - 1) < inject_Z a)%Q) by (rewrite Hm; lra).
  assert (Hb : (inject_Z a < inject_Z (b + 1))%Q) by (rewrite Hp; lra).
  rewrite <- Zlt_Qlt in Ha, Hb. lia.
Qed.

(** Centred on a cell that is not WALL, the footprint reaches no other
    cell's square, so the test is false whatever the neighbours are. *)
Lemma checkWallCollision_centred_open (map : Grid) (cx cz : Z) :
  cellAt map cx cz <> Some WALL ->
  checkWallCollision (inject_Z cx) (inject_Z cz) map = false.
Proof.
  intros Hopen. destruct (checkWallCollision _ _ map) eqn:E; [|reflexivity].
  apply checkWallCollision_iff in E.
  destruct E as (wx & wz & [_ Hw] & [Hx Hz]).
  apply int_close_eq in Hx. apply int_close_eq in Hz. subst. contradiction.
Qed.

Lemma checkWallCollision_Qeq (map : Grid) (x x' z z' : Q) :
  (x == x')%Q -> (z == z')%Q ->
  checkWallCollision x z map = checkWallCollision x' z' map.
Proof.
  intros Hx Hz.
  assert (H : forall a a' b b', (a == a')%Q -> (b == b')%Q ->
             checkWallCollision a b map = true ->
             checkWallCollision a' b' map = true).
  { intros a a' b b' Ha Hb. rewrite !checkWallCollision_iff.
    intros (cx & cz & Hw & [H1 H2]). exists cx, cz. split; [exact Hw|].
    unfold footprintOverlaps. rewrite <- Ha, <- Hb. split; assumption. }
  destruct (checkWallCollision x z map) eqn:E1;
    destruct (checkWallCollision x' z' map) eqn:E2; try reflexivity.
  - rewrite (H x x' z z' Hx Hz E1) in E2. discriminate.
  - symmetry in Hx, Hz. rewrite (H x' x z' z Hx Hz E2) in E1. discriminate.
Qed.

End CollisionFacts.


(** A corridor with a wall to the east of the cell [(1, 1)]. *)
Definition corridor : Grid :=
  [ [WALL; WALL; WALL];
    [WALL; PATH; WALL];
    [WALL; PATH; WALL];
    [WALL; WALL; WALL] ].




(** ** Hits and the invulnerability window *)

Section Hits.

Import App.

Variable sin : Q -> Q.
Variable sqrt : Q -> Q.

(** An obstacle touches the player at the frame of time [time]. *)
Definition contact (time : Q) (player : Position) (obs : Obstacle) : bool :=
  Qltb (distance sin sqrt (time / 1000) obs player) (PLAYER_RADIUS + (35 # 100)).


Lemma pass_invulnerable time player l s nb :
  invulnerable s = true ->
  fst (fold_left (checkObstacle sin sqrt time player) l (s, nb)) = s.
Proof.
  intros Hinv. revert nb. induction l as [|o l IH]; intros nb; [reflexivity|].
  cbn [fold_left]. unfold checkObstacle at 2. rewrite Hinv.
  rewrite andb_false_r. apply IH.
Qed.

Lemma handleHit_invulnerable now s : invulnerable (handleHit now s) = true.
Proof. unfold handleHit. cbn. destruct (lives s - 1 <=? 0); reflexivity. Qed.

Lemma pass_vulnerable time player l s nb :
  invulnerable s = false ->
  fst (fold_left (checkObstacle sin sqrt time player) l (s, nb)) =
  if existsb (contact time player) l then handleHit time s else s.
Proof.
  intros Hinv. revert nb. induction l as [|o l IH]; intros nb; [reflexivity|].
  cbn [fold_left existsb]. unfold checkObstacle at 2. rewrite Hinv.
  rewrite andb_true_r. fold (contact time player o).
  destruct (contact time player o); cbn [orb].
  - apply pass_invulnerable, handleHit_invulnerable.
  - apply IH.
Qed.

Lemma handleHit_fields now s :
  lives (handleHit now s) = lives s - 1
  /\ timeouts (handleHit now s) = timeouts s ++ [(now + 1500)%Q]
  /\ phase (handleHit now s) = (if lives s - 1 <=? 0 then GAME_OVER else phase s)
  /\ isPaused (handleHit now s) = isPaused s
  /\ pulveriseCooldown (handleHit now s) = pulveriseCooldown s
  /\ obstacles (handleHit now s) = obstacles s
  /\ clock (handleHit now s) = clock s.
Proof.
  unfold handleHit. cbn. destruct (lives s - 1 <=? 0); cbn; repeat split.
Qed.



Lemma update_frame time s :
  isPaused (update sin sqrt time s) = isPaused s
  /\ clock (update sin sqrt time s) = clock s.
Proof.
  unfold update.
  destruct (negb (GamePhase_eqb (phase s) PLAYING) || isPaused s); [split; reflexivity|].
  destruct (obstaclePass sin sqrt time s) as [s' nb] eqn:Hpass.
  assert (Hs' : s' = fst (obstaclePass sin sqrt time s)) by (rewrite Hpass; reflexivity).
  unfold obstaclePass in Hs'. cbn.
  destruct (invulnerable s) eqn:Hinv.
  - rewrite pass_invulnerable in Hs' by exact Hinv. subst s'. split; reflexivity.
  - rewrite pass_vulnerable in Hs' by exact Hinv.
    destruct (existsb _ _); subst s'; [|split; reflexivity].
    pose proof (handleHit_fields time s) as (_ & _ & _ & H4 & _ & _ & H7).
    split; assumption.
Qed.




End Hits.




(** Integer square root, exact on the perfect squares the examples use. *)
Definition isqrt (q : Q) : Q := inject_Z (Z.sqrt (Qfloor q)).

Definition spikeAt (id : string) (x z : Q) : Obstacle :=
  mkObstacle id x z STATIC_SPIKE AxisX 2 (3 # 2) (mkPosition x z).




(** ** The area-clear ability *)

Section Pulverise.

Import App.

Variable sin : Q -> Q.
Variable sqrt : Q -> Q.

(** The ability stays disabled as long as the cooldown is not zero. *)
Definition coolingDown (s : Session) : Prop :=
  pulveriseCooldown s <> 0 -> canPulverise s = false.

Lemma update_cooldown time s :
  pulveriseCooldown (update sin sqrt time s) = pulveriseCooldown s
  /\ (negb (GamePhase_eqb (phase s) PLAYING) || isPaused s = true ->
      canPulverise (update sin sqrt time s) = canPulverise s)
  /\ (negb (GamePhase_eqb (phase s) PLAYING) || isPaused s = false ->
      pulveriseCooldown s <> 0 -> canPulverise (update sin sqrt time s) = false).
Proof.
  unfold update.
  destruct (negb (GamePhase_eqb (phase s) PLAYING) || isPaused s).
  - repeat split; intros; congruence.
  - destruct (obstaclePass sin sqrt time s) as [s' nb] eqn:Hpass.
    assert (Hs' : s' = fst (obstaclePass sin sqrt time s)) by (rewrite Hpass; reflexivity).
    unfold obstaclePass in Hs'. cbn.
    assert (Hc : pulveriseCooldown s' = pulveriseCooldown s).
    { destruct (invulnerable s) eqn:Hinv.
      - rewrite pass_invulnerable in Hs' by exact Hinv. subst s'. reflexivity.
      - rewrite pass_vulnerable in Hs' by exact Hinv.
        destruct (existsb _ _); subst s'; [|reflexivity].
        apply (handleHit_fields time s). }
    split; [exact Hc|]. split; [discriminate|].
    intros _ Hne. apply Z.eqb_neq in Hne. rewrite Hne. apply andb_false_r.
Qed.

Lemma coolingDown_step now e s :
  coolingDown s -> coolingDown (step sin sqrt now e s).
Proof.
  unfold coolingDown. intros Hs. destruct e; unfold step.
  - pose proof (update_cooldown now (setClock now s)) as (H1 & H2 & H3).
    cbn in H1, H2, H3. rewrite H1. intros Hne.
    destruct (negb (GamePhase_eqb (phase s) PLAYING) || isPaused s) eqn:G.
    + rewrite H2 by reflexivity. apply Hs, Hne.
    + apply H3; [reflexivity|exact Hne].
  - cbn. exact Hs.
  - cbn. intros Hne. apply Hs. lia.
  - unfold handlePulverise. cbn.
    destruct (canPulverise s) eqn:E; cbn; [reflexivity|].
    intros Hne. rewrite E. reflexivity.
  - cbn. exact Hs.
  - cbn. exact Hs.
  - cbn. exact Hs.
  - cbn. reflexivity.
  - cbn. exact Hs.
Qed.

Lemma coolingDown_run trace : forall s,
  coolingDown s -> coolingDown (run sin sqrt trace s).
Proof.
  induction trace as [|[now e] trace IH]; intros s Hs; [exact Hs|].
  cbn [run]. apply IH, coolingDown_step, Hs.
Qed.

End Pulverise.

(** C7. When the ability fires, the obstacles whose position recomputed at
    the trigger time is within PULVERISE_RADIUS of the player are the ones
    removed, the others stay as they are and in order, the cooldown is set to
    3 and the ability is disabled, and it stays disabled until the cooldown
    is back to zero. *)
Theorem pulverise_removes_in_range
    (sin sqrt : Q -> Q) (s : App.Session) (now : Q) :
  App.canPulverise s = true ->
  let s1 := App.handlePulverise sin sqrt now s in
  let inRange obs :=
    (App.distance sin sqrt (now / 1000) obs (App.playerPos s) <= PULVERISE_RADIUS)%Q in
  (forall obs, In obs (App.obstacles s1) <-> In obs (App.obstacles s) /\ ~ inRange obs)
  /\ App.obstacles s1 =
     filter (fun obs =>
               negb (Qle_bool
                       (App.distance sin sqrt (now / 1000) obs (App.playerPos s))
                       PULVERISE_RADIUS))
       (App.obstacles s)
  /\ App.pulveriseCooldown s1 = 3
  /\ App.canPulverise s1 = false
  /\ (forall trace,
        App.pulveriseCooldown (App.run sin sqrt trace s1) <> 0 ->
        App.canPulverise (App.run sin sqrt trace s1) = false).
Proof.
  intros Hcan s1 inRange. subst s1. unfold App.handlePulverise.
  rewrite Hcan. cbn [negb]. cbn.
  split; [|split; [|split; [|split]]].
  - intros obs. rewrite filter_In, Qltb_lt. subst inRange. cbn beta.
    split; intros [Hin H]; (split; [exact Hin|]).
    + apply Qlt_not_le, H.
    + apply Qnot_le_lt, H.
  - reflexivity.
  - reflexivity.
  - reflexivity.
  - intros trace. apply coolingDown_run. unfold coolingDown. cbn. reflexivity.
Qed.

Definition patrolAt (id : string) (x z : Q) : Obstacle :=
  mkObstacle id x z PATROL_ENEMY AxisX 2 (3 # 2) (mkPosition x z).

(** A patrol recorded 4.5 cells from the player, and a spike 5 cells
    away.  With the sine at -1 the patrol is 3 cells away at the trigger. *)
Definition armed : App.Session :=
  App.mkSession PLAYING false 3 (mkPosition 1 1) true 0
    [patrolAt "obs-0" (11 # 2) 1; spikeAt "obs-1" 4 5] false [] 0.

Lemma pulverise_removes_in_range_witness :
  let s1 := App.handlePulverise (fun _ => (-1)%Q) isqrt 100 armed in
  App.obstacles s1 = [spikeAt "obs-1" 4 5]
  /\ App.pulveriseCooldown s1 = 3 /\ App.canPulverise s1 = false.
Proof.
  cbv zeta.
  destruct (pulverise_removes_in_range (fun _ => (-1)%Q) isqrt armed 100)
    as (_ & Hlist & Hc & Hd & _); [reflexivity|].
  split; [rewrite Hlist; reflexivity|]. split; assumption.
Defined.

(** ** SpotSampler *)

(** A 5 x 5 maze as [generateMaze] builds it (see [maze5_generated]). *)
Definition maze5 : Grid :=
  [ [WALL; WALL;  WALL; WALL; WALL];
    [WALL; START; PATH; PATH; WALL];
    [WALL; WALL;  WALL; PATH; WALL];
    [WALL; PATH;  PATH; END;  WALL];
    [WALL; WALL;  WALL; WALL; WALL] ].

Section Sampling.

Import Maze.

Variable random : nat -> Q.

(** What holds of [spots] at every evaluation of the loop condition. *)
Definition goodSpots (grid : Grid) (excludeNearStart : bool) (spots : list Cell) : Prop :=
  NoDup spots
  /\ (forall c, In c spots -> cellAt grid (fst c) (snd c) = Some PATH)
  /\ (excludeNearStart = true ->
      forall c, In c spots -> ~ (fst c < 4 /\ snd c < 4)).

Lemma some_spot_false x z spots :
  existsb (fun s : Cell => (fst s =? x) && (snd s =? z)) spots = false ->
  ~ In (x, z) spots.
Proof.
  intros H Hin. rewrite <- not_true_iff_false in H. apply H.
  apply existsb_exists. exists (x, z). split; [exact Hin|].
  cbn. rewrite !Z.eqb_refl. reflexivity.
Qed.

Lemma goodSpots_push grid excl spots x z :
  goodSpots grid excl spots ->
  cellAt grid x z = Some PATH ->
  excl && (x <? 4) && (z <? 4) = false ->
  ~ In (x, z) spots ->
  goodSpots grid excl (spots ++ [(x, z)]).
Proof.
  intros (Hnd & Hpath & Hex) Hc Hblock Hnew. split; [|split].
  - apply NoDup_app; [exact Hnd| |].
    + constructor; [intros []|constructor].
    + intros a Ha [<-|[]]. contradiction.
  - intros c Hin. apply in_app_or in Hin. destruct Hin as [Hin|[<-|[]]].
    + apply Hpath, Hin.
    + exact Hc.
  - intros He c Hin. apply in_app_or in Hin. destruct Hin as [Hin|[<-|[]]].
    + apply Hex; assumption.
    + subst excl. cbn [andb fst snd] in *. intros [H1 H2].
      apply Z.ltb_lt in H1, H2. rewrite H1, H2 in Hblock. discriminate.
Qed.

Lemma sampleLoop_good fuel grid width height count excl : forall k spots result,
  goodSpots grid excl spots ->
  sampleLoop random fuel grid width height count excl 0 k spots = Returns result ->
  goodSpots grid excl result /\ count <= len result.
Proof.
  induction fuel as [|fuel IH]; intros k spots result Hgood Hret; [discriminate|].
  cbn [sampleLoop] in Hret. cbv zeta in Hret.
  change (0 <? 1000) with true in Hret. rewrite andb_true_r in Hret.
  destruct (len spots <? count) eqn:Hlen.
  2:{ inversion Hret; subst. split; [exact Hgood|].
      apply Z.ltb_ge in Hlen. exact Hlen. }
  set (x := Qfloor (random k * inject_Z width)) in *.
  set (z := Qfloor (random (S k) * inject_Z height)) in *.
  destruct (index grid z) as [r|] eqn:Hrow; cbn [defined bind] in Hret;
    [|discriminate].
  assert (Hcell : cellAt grid x z = index r x) by (unfold cellAt; rewrite Hrow; reflexivity).
  destruct (index r x) as [[]|] eqn:Hx; try (eapply IH; eassumption).
  destruct (excl && (x <? 4) && (z <? 4)) eqn:Hblock; [eapply IH; eassumption|].
  destruct (existsb (fun s : Z * Z => (fst s =? x) && (snd s =? z)) spots) eqn:Hdup;
    cbn [negb] in Hret; [eapply IH; eassumption|].
  eapply IH; [|exact Hret].
  apply goodSpots_push; try assumption.
  apply some_spot_false, Hdup.
Qed.

Lemma goodSpots_nil grid excl : goodSpots grid excl [].
Proof.
  split; [constructor|]. split; [intros c []|intros _ c []].
Qed.

End Sampling.

(** On [maze5] every PATH cell lies in the excluded block: no attempt can
    succeed, and the loop goes on for as long as it is run. *)
Lemma maze5_attempt_fails (x z : Z) :
  0 <= x < 5 -> 0 <= z < 5 ->
  exists r, index maze5 z = Some r /\
    match index r x with
    | Some PATH => true && (x <? 4) && (z <? 4) = true
    | _ => True
    end.
Proof.
  intros Hx Hz.
  assert (Hzc : z = 0 \/ z = 1 \/ z = 2 \/ z = 3 \/ z = 4) by lia.
  assert (Hxc : x = 0 \/ x = 1 \/ x = 2 \/ x = 3 \/ x = 4) by lia.
  destruct Hzc as [->|[->|[->|[->| ->]]]];
    (eexists; split; [reflexivity|]);
    destruct Hxc as [->|[->|[->|[->| ->]]]]; vm_compute; auto.
Qed.

Lemma random_index_range (r : Q) (n : Z) :
  (0 <= r)%Q -> (r < 1)%Q -> 0 < n -> 0 <= Qfloor (r * inject_Z n) < n.
Proof.
  intros H0 H1 Hn.
  assert (Hpos : (0 < inject_Z n)%Q).
  { change 0%Q with (inject_Z 0). rewrite <- Zlt_Qlt. exact Hn. }
  split.
  - change 0 with (Qfloor 0). apply Qfloor_resp_le.
    apply Qmult_le_0_compat; [exact H0|apply Qlt_le_weak, Hpos].
  - assert (Hlt : (r * inject_Z n < inject_Z n)%Q).
    { setoid_replace (inject_Z n) with (1 * inject_Z n)%Q at 2 by ring.
      apply Qmult_lt_compat_r; assumption. }
    pose proof (Qfloor_le (r * inject_Z n)) as Hf.
    assert (Hi : (inject_Z (Qfloor (r * inject_Z n)) < inject_Z n)%Q)
      by (eapply Qle_lt_trans; eassumption).
    rewrite <- Zlt_Qlt in Hi. exact Hi.
Qed.

(** C2, as the code behaves.  [attempts] is a constant and stays 0, so the
    test [attempts < 1000] never ends the loop: on [maze5] with
    [excludeNearStart] a request for one spot is still running after any
    number of attempts, and whenever the function does return it returns
    at least [count] spots (never a short result). *)
Theorem findEmptySpots_budget_not_enforced (random : nat -> Q) :
  (forall k, (0 <= random k)%Q /\ (random k < 1)%Q) ->
  (forall fuel, Maze.findEmptySpots random fuel maze5 1 true = OutOfFuel)
  /\ (forall fuel grid count excl spots,
        Maze.findEmptySpots random fuel grid count excl = Returns spots ->
        count <= len spots).
Proof.
  intros Hrange. split.
  - intros fuel. unfold Maze.findEmptySpots. cbn [index Z.ltb Z.compare Z.to_nat
      nth_error maze5 defined bind]. cbv zeta.
    change (len maze5) with 5. change (len [WALL; WALL; WALL; WALL; WALL]) with 5.
    generalize 0%nat as k. induction fuel as [|fuel IH]; intros k; [reflexivity|].
    cbn [Maze.sampleLoop]. cbv zeta.
    change (len (@nil Cell) <? 1) with true. change (0 <? 1000) with true.
    cbn [andb].
    set (x := Qfloor (random k * inject_Z 5)).
    set (z := Qfloor (random (S k) * inject_Z 5)).
    assert (Hx : 0 <= x < 5)
      by (apply random_index_range; [apply Hrange|apply Hrange|lia]).
    assert (Hz : 0 <= z < 5)
      by (apply random_index_range; [apply Hrange|apply Hrange|lia]).
    destruct (maze5_attempt_fails x z Hx Hz) as (r & Hr & Hcell).
    rewrite Hr. cbn [defined bind].
    destruct (index r x) as [[]|]; try apply IH.
    cbn [andb] in Hcell. rewrite Hcell. apply IH.
  - intros fuel grid count excl spots. unfold Maze.findEmptySpots.
    destruct (index grid 0) as [row0|]; cbn [defined bind]; [|discriminate].
    cbv zeta. intros Hret.
    eapply (sampleLoop_good random); [apply goodSpots_nil|exact Hret].
Qed.

Lemma findEmptySpots_budget_not_enforced_witness :
  Maze.findEmptySpots (fun _ => 1 # 2) 1001 maze5 1 true = OutOfFuel.
Proof.
  apply (findEmptySpots_budget_not_enforced (fun _ => 1 # 2)).
  intros _. split; [discriminate|reflexivity].
Defined.

(** With no row, [grid[0].length] dereferences [undefined]. *)
Lemma findEmptySpots_empty_grid_throws :
  Maze.findEmptySpots (fun _ => 0%Q) 1 [] 0 true = Throws.
Proof. reflexivity. Qed.

(** C9, for a grid with at least one row.  A request for no spot returns the
    empty sequence; and whatever [findEmptySpots] returns is free of
    duplicates, made of PATH cells, and with [excludeNearStart] outside the
    block [x < 4, z < 4]. *)
Theorem findEmptySpots_result_sound
    (random : nat -> Q) (fuel : nat) (grid : Grid) (count : Z) (excl : bool) :
  grid <> [] ->
  Maze.findEmptySpots random (S fuel) grid 0 excl = Returns []
  /\ (forall spots,
        Maze.findEmptySpots random fuel grid count excl = Returns spots ->
        NoDup spots
        /\ (forall c, In c spots -> cellAt grid (fst c) (snd c) = Some PATH)
        /\ (excl = true -> forall c, In c spots -> ~ (fst c < 4 /\ snd c < 4))).
Proof.
  intros Hne. destruct grid as [|row0 grid]; [contradiction|].
  unfold Maze.findEmptySpots. cbn [index Z.ltb Z.compare Z.to_nat nth_error
    defined bind]. cbv zeta. split; [reflexivity|].
  intros spots Hret.
  eapply (sampleLoop_good random); [apply goodSpots_nil|exact Hret].
Qed.

(** Two spots requested on a 7-wide corridor row; the third attempt hits a
    wall and the fourth repeats the first spot. *)
Definition longRow : Grid := [ [WALL; PATH; PATH; PATH; PATH; PATH; WALL] ].

Definition picks (k : nat) : Q :=
  match k with
  | 0%nat => 5 # 7 | 2%nat => 0 | 4%nat => 5 # 7 | 6%nat => 4 # 7
  | _ => 0
  end.

Lemma findEmptySpots_result_sound_witness :
  Maze.findEmptySpots picks 10 longRow 2 true = Returns [(5, 0); (4, 0)]
  /\ NoDup [(5, 0); (4, 0)].
Proof.
  split; [reflexivity|].
  apply (findEmptySpots_result_sound picks 10 longRow 2 true); [discriminate|].
  reflexivity.
Defined.

(** ** PathFinder: the start cell is the end cell *)

(** C10. When start and end floor to the same cell the answer is that one
    cell, whatever the grid holds there: the first entry taken from the queue
    is compared with the end before any cell is read. *)
Theorem findShortestPath_same_cell (grid : Grid) (start end_ : Position) :
  Qfloor (pos_x start) = Qfloor (pos_x end_) ->
  Qfloor (pos_z start) = Qfloor (pos_z end_) ->
  Maze.findShortestPath grid start end_ =
  Returns [(Qfloor (pos_x start), Qfloor (pos_z start))].
Proof.
  intros Hx Hz. unfold Maze.findShortestPath, Maze.findShortestPathFuel, Maze.searchFuel.
  cbv zeta. cbn [Maze.bfsLoop fst snd]. rewrite Hx, Hz, !Z.eqb_refl. reflexivity.
Qed.

Lemma findShortestPath_same_cell_witness :
  cellAt corridor 0 0 = Some WALL
  /\ Maze.findShortestPath corridor (mkPosition (1 # 2) (1 # 5)) (mkPosition (1 # 10) (9 # 10))
     = Returns [(0, 0)]
  /\ inGrid corridor (-4) 7 = false
  /\ Maze.findShortestPath corridor (mkPosition (-7 # 2) (36 # 5)) (mkPosition (-18 # 5) (15 # 2))
     = Returns [(-4, 7)].
Proof.
  split; [reflexivity|]. split.
  - apply (findShortestPath_same_cell corridor (mkPosition (1 # 2) (1 # 5))
             (mkPosition (1 # 10) (9 # 10))); reflexivity.
  - split; [reflexivity|].
    apply (findShortestPath_same_cell corridor (mkPosition (-7 # 2) (36 # 5))
             (mkPosition (-18 # 5) (15 # 2))); reflexivity.
Defined.

(** ** PathFinder: breadth-first search *)

(** A cell the search may step onto: inside the grid and not WALL. *)
Definition walkable (grid : Grid) (c : Cell) : Prop :=
  inGrid grid (fst c) (snd c) = true /\ isWall grid (fst c) (snd c) = false.

(** Two cells that differ by exactly one unit in exactly one axis. *)
Definition adjacent (a b : Cell) : Prop :=
  (fst b = fst a /\ Z.abs (snd b - snd a) = 1)
  \/ (snd b = snd a /\ Z.abs (fst b - fst a) = 1).

Fixpoint linked (p : list Cell) : Prop :=
  match p with
  | a :: (b :: _) as t => adjacent a b /\ linked t
  | _ => True
  end.

(** A route from [s] to [e]: consecutive cells are adjacent and every cell
    after the first is walkable.  The first cell is where the search
    starts; the source never looks at the grid there. *)
Definition isRoute (grid : Grid) (s e : Cell) (p : list Cell) : Prop :=
  hd_error p = Some s /\ last p s = e /\ linked p /\ Forall (walkable grid) (tl p).

(** The same routes, built the way the search extends a path. *)
Inductive route (grid : Grid) (s : Cell) : Cell -> list Cell -> Prop :=
| route_start : route grid s s [s]
| route_step c d p :
    route grid s c p -> adjacent c d -> walkable grid d ->
    route grid s d (p ++ [d]).

Lemma adjacent_neighbors a b : adjacent a b <-> In b (Maze.neighbors a).
Proof.
  destruct a as [ax az], b as [bx bz]. unfold adjacent, Maze.neighbors.
  cbn [fst snd In]. split.
  - intros [[Hx Hz]|[Hz Hx]]; subst.
    + assert (bz = az + 1 \/ bz = az - 1) as [->| ->] by lia; auto.
    + assert (bx = ax + 1 \/ bx = ax - 1) as [->| ->] by lia; auto.
  - intros [H|[H|[H|[H|[]]]]]; inversion H; subst; [right|right|left|left];
      split; try reflexivity; lia.
Qed.

Lemma adjacent_sym a b : adjacent a b -> adjacent b a.
Proof.
  unfold adjacent. intros [[H1 H2]|[H1 H2]]; [left|right]; split; try lia.
Qed.

Lemma linked_snoc p c d :
  linked p -> last p c = c -> adjacent c d -> linked (p ++ [d]).
Proof.
  induction p as [|a p IH]; intros Hl Hlast Hadj; [exact I|].
  destruct p as [|b p].
  - cbn in Hlast. subst a. cbn. auto.
  - cbn [app linked] in *. destruct Hl as [Hab Hl]. split; [exact Hab|].
    apply IH; assumption.
Qed.

Lemma last_snoc (p : list Cell) (d x : Cell) : last (p ++ [d]) x = d.
Proof. apply last_last. Qed.

Lemma last_nonempty (p : list Cell) (a x y : Cell) : last (a :: p) x = last (a :: p) y.
Proof.
  revert a. induction p as [|b p IH]; intros a; [reflexivity|].
  change (last (b :: p) x = last (b :: p) y). apply IH.
Qed.

Lemma route_nonempty grid s e p : route grid s e p -> (1 <= length p)%nat.
Proof.
  intros H. destruct H; [cbn; lia|]. rewrite length_app. cbn. lia.
Qed.

Lemma route_isRoute grid s e p : route grid s e p -> isRoute grid s e p.
Proof.
  induction 1 as [|c d p Hr (Hhd & Hlast & Hlink & Hw) Hadj Hwd].
  - repeat split; cbn; auto.
  - destruct p as [|a p]; [discriminate Hhd|]. split; [|split; [|split]].
    + exact Hhd.
    + apply last_snoc.
    + apply linked_snoc with (c := c); try assumption.
      rewrite <- Hlast. apply last_nonempty.
    + cbn [app tl] in *. apply Forall_app. split; [exact Hw|].
      constructor; [exact Hwd|constructor].
Qed.

Lemma linked_app_inv p d e :
  linked (p ++ [d; e]) -> linked (p ++ [d]) /\ adjacent d e.
Proof.
  induction p as [|a p IH]; intros H.
  - cbn in *. tauto.
  - destruct p as [|b p].
    + cbn in *. tauto.
    + cbn [app linked] in *. destruct H as [Hab H].
      destruct (IH H) as [H1 H2]. tauto.
Qed.

Lemma isRoute_route grid s e p : isRoute grid s e p -> route grid s e p.
Proof.
  revert e. induction p as [|d p IH] using rev_ind; intros e (Hhd & Hlast & Hlink & Hw).
  - discriminate Hhd.
  - rewrite last_snoc in Hlast. subst e.
    destruct p as [|a p].
    + cbn in Hhd. inversion Hhd; subst. constructor.
    + destruct (exists_last (l := a :: p)) as (p' & c & Hp); [discriminate|].
      rewrite Hp in *. clear Hp a p.
      assert (Hlink' : linked (p' ++ [c]) /\ adjacent c d).
      { rewrite <- app_assoc in Hlink. cbn [app] in Hlink.
        apply linked_app_inv, Hlink. }
      apply (route_step grid s c d).
      * apply IH. split; [|split; [|split]].
        -- destruct p'; cbn in *; exact Hhd.
        -- apply last_snoc.
        -- apply Hlink'.
        -- destruct p' as [|b p']; [constructor|].
           cbn [app tl] in *. apply Forall_app in Hw. apply Hw.
      * apply Hlink'.
      * destruct p' as [|b p']; cbn [app tl] in Hw.
        -- inversion Hw; assumption.
        -- apply Forall_app in Hw. destruct Hw as [_ Hw]. inversion Hw; assumption.
Qed.

Lemma has_true set c : Maze.has set c = true <-> In c set.
Proof.
  unfold Maze.has. rewrite existsb_exists. split.
  - intros (x & Hin & Heq). apply cell_eqb_eq in Heq. subst. exact Hin.
  - intros Hin. exists c. split; [exact Hin|apply cell_eqb_refl].
Qed.

Lemma has_false set c : Maze.has set c = false <-> ~ In c set.
Proof.
  rewrite <- has_true. destruct (Maze.has set c); split; congruence.
Qed.

Lemma add_fresh set c : ~ In c set -> Maze.add set c = set ++ [c].
Proof. intros H. unfold Maze.add. apply has_false in H. rewrite H. reflexivity. Qed.

(** All cells [inGrid] accepts. *)
Definition allCells (grid : Grid) : list Cell :=
  map (fun xz : nat * nat => (Z.of_nat (fst xz), Z.of_nat (snd xz)))
    (list_prod (seq 0 (Z.to_nat (width0 grid))) (seq 0 (length grid))).

Lemma allCells_length grid :
  length (allCells grid) = (Z.to_nat (width0 grid) * length grid)%nat.
Proof.
  unfold allCells. rewrite length_map, length_prod, !length_seq. reflexivity.
Qed.

Lemma inGrid_allCells grid c :
  inGrid grid (fst c) (snd c) = true -> In c (allCells grid).
Proof.
  destruct c as [x z]. unfold inGrid, len. cbn [fst snd].
  rewrite !andb_true_iff, !Z.leb_le, !Z.ltb_lt. intros [[[Hz0 Hz] Hx0] Hx].
  unfold allCells. apply in_map_iff. exists (Z.to_nat x, Z.to_nat z).
  cbn [fst snd]. split.
  - rewrite !Z2Nat.id by assumption. reflexivity.
  - apply in_prod; apply in_seq; lia.
Qed.

Section Search.

Import Maze.

Variable grid : Grid.
Variable s e : Cell.

Definition queued (queue : list QueueEntry) (c : Cell) : Prop :=
  exists p, In (c, p) queue.

(** The queue holds the paths of one length followed by the paths one cell
    longer. *)
Definition levels (L : nat) (queue : list QueueEntry) : Prop :=
  exists q1 q2, queue = q1 ++ q2
    /\ (forall x, In x q1 -> length (snd x) = L)
    /\ (forall x, In x q2 -> length (snd x) = S L).

Record searchInv (queue : list QueueEntry) (visited : list Cell) : Prop := {
  inv_routes : forall c p, In (c, p) queue -> route grid s c p;
  inv_best : forall c p q, In (c, p) queue -> route grid s c q ->
               (length p <= length q)%nat;
  inv_queued : forall c, queued queue c -> In c visited;
  inv_start : In s visited;
  inv_done : forall v, In v visited -> queued queue v \/
               (v <> e /\ forall n, adjacent v n -> walkable grid n -> In n visited);
  inv_levels : exists L, levels L queue;
  inv_nodup : NoDup visited;
  inv_cells : incl visited (s :: allCells grid)
}.

(** The effect of the [for] loop over the neighbours: the new cells are
    appended to both the queue and the visited set. *)
Lemma fold_visitNeighbor path ns : forall queue visited,
  NoDup visited ->
  exists new,
    fold_left (visitNeighbor grid path) ns (queue, visited) =
      (queue ++ map (fun n => (n, path ++ [n])) new, visited ++ new)
    /\ NoDup (visited ++ new)
    /\ (forall n, In n new <-> In n ns /\ walkable grid n /\ ~ In n visited).
Proof.
  induction ns as [|n ns IH]; intros queue visited Hnd.
  - exists []. cbn. rewrite !app_nil_r. split; [reflexivity|]. split; [exact Hnd|].
    intros n. split; [intros []|intros [[] _]].
  - cbn [fold_left]. unfold visitNeighbor at 2.
    destruct (inGrid grid (fst n) (snd n)) eqn:Hin.
    2:{ destruct (IH queue visited Hnd) as (new & Hf & Hnd' & Hnew).
        exists new. split; [exact Hf|]. split; [exact Hnd'|].
        intros x. rewrite Hnew. cbn [In]. split; [tauto|].
        intros ([<-|Hx] & Hw & Hv); [|tauto].
        destruct Hw as [Hw _]. congruence. }
    destruct (isWall grid (fst n) (snd n)) eqn:Hwall; cbn [negb].
    { destruct (IH queue visited Hnd) as (new & Hf & Hnd' & Hnew).
      exists new. split; [exact Hf|]. split; [exact Hnd'|].
      intros x. rewrite Hnew. cbn [In]. split; [tauto|].
      intros ([<-|Hx] & Hw & Hv); [|tauto].
      destruct Hw as [_ Hw]. congruence. }
    destruct (has visited n) eqn:Hhas; cbn [negb].
    { destruct (IH queue visited Hnd) as (new & Hf & Hnd' & Hnew).
      exists new. split; [exact Hf|]. split; [exact Hnd'|].
      intros x. rewrite Hnew. cbn [In]. split; [tauto|].
      intros ([<-|Hx] & Hw & Hv); [|tauto].
      apply has_true in Hhas. contradiction. }
    apply has_false in Hhas. rewrite (add_fresh _ _ Hhas).
    assert (Hnd1 : NoDup (visited ++ [n])).
    { apply NoDup_app; [exact Hnd|constructor; [intros []|constructor]|].
      intros a Ha [<-|[]]. contradiction. }
    destruct (IH (queue ++ [(n, path ++ [n])]) (visited ++ [n]) Hnd1)
      as (new & Hf & Hnd' & Hnew).
    exists (n :: new). rewrite Hf. cbn [map]. rewrite <- !app_assoc. cbn [app].
    split; [reflexivity|]. split; [rewrite <- app_assoc in Hnd'; exact Hnd'|].
    intros x. cbn [In]. rewrite Hnew. split.
    + intros [<-|(Hx & Hw & Hv)].
      * split; [left; reflexivity|]. split; [split; assumption|exact Hhas].
      * split; [right; exact Hx|]. split; [exact Hw|].
        intros Hv'. apply Hv. apply in_or_app. left. exact Hv'.
    + intros (Hx & Hw & Hv). destruct (cell_eq_dec n x) as [Heq|Hne]; [left; exact Heq|].
      right. destruct Hx as [Hx|Hx]; [contradiction|].
      split; [exact Hx|]. split; [exact Hw|].
      intros Hv'. apply in_app_or in Hv'. destruct Hv' as [Hv'|[Hv'|[]]]; contradiction.
Qed.

(** A route that leaves the visited set does so through a queued cell. *)
Lemma beyond_visited c p rest visited :
  searchInv ((c, p) :: rest) visited ->
  forall v q, route grid s v q -> ~ In v visited -> (length p < length q)%nat.
Proof.
  intros Hinv v q Hr. induction Hr as [|u v q Hr IH Hadj Hw]; intros Hv.
  - exfalso. apply Hv, (inv_start _ _ Hinv).
  - rewrite length_app. cbn [length].
    destruct (in_dec cell_eq_dec u visited) as [Hu|Hu].
    + destruct (inv_done _ _ Hinv u Hu) as [[pu Hq]|[_ Hclosed]].
      * pose proof (inv_best _ _ Hinv u pu q Hq Hr) as Hbest.
        destruct (inv_levels _ _ Hinv) as (L & q1 & q2 & Hsplit & H1 & H2).
        assert (Hhead : (length p <= length pu)%nat).
        { assert (HL : forall x, In x ((c, p) :: rest) ->
                         (L <= length (snd x) <= S L)%nat).
          { intros x Hx. rewrite Hsplit in Hx. apply in_app_or in Hx.
            destruct Hx as [Hx|Hx]; [rewrite (H1 x Hx)|rewrite (H2 x Hx)]; lia. }
          destruct q1 as [|x1 q1].
          - cbn [app] in Hsplit. subst q2.
            pose proof (H2 (u, pu) Hq) as Hu'.
            pose proof (H2 (c, p) (or_introl eq_refl)) as Hc.
            cbn [snd] in Hu', Hc. lia.
          - cbn [app] in Hsplit. inversion Hsplit; subst x1.
            pose proof (H1 (c, p) (or_introl eq_refl)) as Hc. cbn [snd] in Hc.
            pose proof (HL (u, pu) Hq) as Hu'. cbn [snd] in Hu'. lia. }
        lia.
      * exfalso. apply Hv. apply (Hclosed v); assumption.
    + specialize (IH Hu). lia.
Qed.

(** With an empty queue the visited set is closed: it holds every cell a
    route reaches, and the end is not one of them. *)
Lemma exhausted visited :
  searchInv [] visited -> forall q, ~ route grid s e q.
Proof.
  intros Hinv.
  assert (Hall : forall v q, route grid s v q -> In v visited).
  { intros v q Hr. induction Hr as [|u v q Hr IH Hadj Hw].
    - apply (inv_start _ _ Hinv).
    - destruct (inv_done _ _ Hinv u IH) as [[pu []]|[_ Hclosed]].
      apply (Hclosed v); assumption. }
  intros q Hr. specialize (Hall e q Hr).
  destruct (inv_done _ _ Hinv e Hall) as [[pu []]|[Hne _]]. congruence.
Qed.

Lemma searchInv_step c p rest visited new :
  searchInv ((c, p) :: rest) visited ->
  c <> e ->
  NoDup (visited ++ new) ->
  (forall n, In n new <-> In n (neighbors c) /\ walkable grid n /\ ~ In n visited) ->
  searchInv (rest ++ map (fun n => (n, p ++ [n])) new) (visited ++ new).
Proof.
  intros Hinv Hce Hnd Hnew.
  assert (Hhead : route grid s c p)
    by (apply (inv_routes _ _ Hinv); left; reflexivity).
  assert (Hsplit : forall c' p',
            In (c', p') (rest ++ map (fun n => (n, p ++ [n])) new) ->
            In (c', p') rest \/ (In c' new /\ p' = p ++ [c'])).
  { intros c' p' Hin. apply in_app_or in Hin. destruct Hin as [Hin|Hin]; [left; exact Hin|].
    right. apply in_map_iff in Hin. destruct Hin as (n & Heq & Hn).
    inversion Heq; subst. split; [exact Hn|reflexivity]. }
  constructor.
  - intros c' p' Hin. destruct (Hsplit c' p' Hin) as [Hr|[Hn ->]].
    + apply (inv_routes _ _ Hinv). right. exact Hr.
    + apply Hnew in Hn. destruct Hn as (Hadj & Hw & _).
      apply (route_step grid s c c'); [exact Hhead| |exact Hw].
      apply adjacent_neighbors, Hadj.
  - intros c' p' q Hin Hq. destruct (Hsplit c' p' Hin) as [Hr|[Hn ->]].
    + apply (inv_best _ _ Hinv c'); [right; exact Hr|exact Hq].
    + apply Hnew in Hn. destruct Hn as (_ & _ & Hv).
      pose proof (beyond_visited c p rest visited Hinv c' q Hq Hv) as Hlt.
      rewrite length_app. cbn [length]. lia.
  - intros c' [p' Hin]. apply in_or_app. destruct (Hsplit c' p' Hin) as [Hr|[Hn _]].
    + left. apply (inv_queued _ _ Hinv). exists p'. right. exact Hr.
    + right. exact Hn.
  - apply in_or_app. left. apply (inv_start _ _ Hinv).
  - intros v Hv. apply in_app_or in Hv. destruct Hv as [Hv|Hv].
    + destruct (inv_done _ _ Hinv v Hv) as [[pv [Heq|Hr]]|[Hne Hclosed]].
      * inversion Heq; subst v pv. right. split; [exact Hce|].
        intros n Hadj Hw. apply in_or_app.
        destruct (in_dec cell_eq_dec n visited) as [Hn|Hn]; [left; exact Hn|].
        right. apply Hnew. split; [apply adjacent_neighbors, Hadj|]. split; assumption.
      * left. exists pv. apply in_or_app. left. exact Hr.
      * right. split; [exact Hne|]. intros n Hadj Hw.
        apply in_or_app. left. apply (Hclosed n); assumption.
    + left. exists (p ++ [v]). apply in_or_app. right.
      apply in_map_iff. exists v. split; [reflexivity|exact Hv].
  - destruct (inv_levels _ _ Hinv) as (L & q1 & q2 & Hq & H1 & H2).
    assert (Hlen : forall x, In x (map (fun n => (n, p ++ [n])) new) ->
                     length (snd x) = S (length p)).
    { intros x Hx. apply in_map_iff in Hx. destruct Hx as (n & <- & _).
      cbn [snd]. rewrite length_app. cbn [length]. lia. }
    destruct q1 as [|x1 q1]; cbn [app] in Hq.
    + subst q2. exists (S L), rest, (map (fun n => (n, p ++ [n])) new).
      split; [reflexivity|]. split.
      * intros x Hx. apply H2. right. exact Hx.
      * intros x Hx. rewrite (Hlen x Hx).
        pose proof (H2 (c, p) (or_introl eq_refl)) as Hp. cbn [snd] in Hp. lia.
    + inversion Hq; subst x1 rest.
      exists L, q1, (q2 ++ map (fun n => (n, p ++ [n])) new).
      split; [rewrite app_assoc; reflexivity|]. split.
      * intros x Hx. apply H1. right. exact Hx.
      * intros x Hx. apply in_app_or in Hx. destruct Hx as [Hx|Hx]; [apply H2, Hx|].
        rewrite (Hlen x Hx).
        pose proof (H1 (c, p) (or_introl eq_refl)) as Hp. cbn [snd] in Hp. lia.
  - exact Hnd.
  - intros v Hv. apply in_app_or in Hv. destruct Hv as [Hv|Hv].
    + apply (inv_cells _ _ Hinv), Hv.
    + right. apply inGrid_allCells. apply Hnew in Hv. apply Hv.
Qed.

(** What the search answers: the empty sequence when no route reaches the
    end, a shortest route otherwise. *)
Definition answer (path : list Cell) : Prop :=
  (path = [] /\ forall q, ~ route grid s e q)
  \/ (route grid s e path /\
      forall q, route grid s e q -> (length path <= length q)%nat).

Lemma bfsLoop_answer fuel : forall queue visited,
  searchInv queue visited ->
  (length queue + (S (length (allCells grid)) - length visited) < fuel)%nat ->
  exists path,
    bfsLoop fuel grid (fst e) (snd e) queue visited = Returns path /\ answer path.
Proof.
  induction fuel as [|fuel IH]; intros queue visited Hinv Hfuel; [lia|].
  cbn [bfsLoop]. destruct queue as [|[c p] rest].
  - exists []. split; [reflexivity|]. left. split; [reflexivity|].
    apply (exhausted visited Hinv).
  - destruct ((fst c =? fst e) && (snd c =? snd e)) eqn:Hend.
    + exists p. split; [reflexivity|]. right.
      assert (Hc : c = e).
      { apply andb_true_iff in Hend. destruct Hend as [H1 H2].
        apply Z.eqb_eq in H1, H2. destruct c, e; cbn in *; congruence. }
      subst c. split.
      * apply (inv_routes _ _ Hinv). left. reflexivity.
      * intros q Hq. apply (inv_best _ _ Hinv e); [left; reflexivity|exact Hq].
    + assert (Hc : c <> e).
      { intros ->. rewrite !Z.eqb_refl in Hend. discriminate. }
      destruct (fold_visitNeighbor p (neighbors c) rest visited (inv_nodup _ _ Hinv))
        as (new & Hfold & Hnd & Hnew).
      rewrite Hfold.
      pose proof (searchInv_step c p rest visited new Hinv Hc Hnd Hnew) as Hinv'.
      apply IH; [exact Hinv'|].
      pose proof (NoDup_incl_length Hnd (inv_cells _ _ Hinv')) as Hbound.
      cbn [length] in Hbound, Hfuel.
      rewrite !length_app, length_map in *. lia.
Qed.

Lemma searchInv_init : searchInv [(s, [s])] [s].
Proof.
  constructor.
  - intros c p [H|[]]. inversion H; subst. constructor.
  - intros c p q [H|[]] Hq. inversion H; subst. cbn [length].
    apply (route_nonempty _ _ _ _ Hq).
  - intros c [p [H|[]]]. inversion H; subst. left. reflexivity.
  - left. reflexivity.
  - intros v [<-|[]]. left. exists [s]. left. reflexivity.
  - exists 1%nat, [(s, [s])], []. split; [reflexivity|]. split.
    + intros x [<-|[]]. reflexivity.
    + intros x [].
  - constructor; [intros []|constructor].
  - intros v [<-|[]]. left. reflexivity.
Qed.

End Search.

Definition floorCell (p : Position) : Cell := (Qfloor (pos_x p), Qfloor (pos_z p)).

(** The search always returns, and what it returns is an [answer]. *)
Lemma findShortestPath_answer (grid : Grid) (start end_ : Position) :
  exists path,
    Maze.findShortestPath grid start end_ = Returns path
    /\ answer grid (floorCell start) (floorCell end_) path.
Proof.
  unfold Maze.findShortestPath, Maze.findShortestPathFuel. cbv zeta.
  rewrite (add_fresh [] _ (fun H => H)). cbn [app].
  apply (bfsLoop_answer grid (floorCell start) (floorCell end_)).
  - apply searchInv_init.
  - unfold Maze.searchFuel. rewrite allCells_length. cbn [length]. lia.
Qed.

Lemma answer_isRoute grid s e path :
  answer grid s e path ->
  (path = [] /\ forall q, ~ isRoute grid s e q)
  \/ (isRoute grid s e path /\
      forall q, isRoute grid s e q -> (length path <= length q)%nat).
Proof.
  intros [[-> Hnone]|[Hr Hbest]].
  - left. split; [reflexivity|]. intros q Hq. apply (Hnone q), isRoute_route, Hq.
  - right. split; [apply route_isRoute, Hr|].
    intros q Hq. apply Hbest, isRoute_route, Hq.
Qed.

(** C3, with the start cell exempt from the walkability test.
    [findShortestPath] floors both positions and returns a sequence that
    starts at the start cell, ends at the end cell, moves by one unit along
    one axis at each step, after its first cell visits only in-bounds cells
    that are not WALL, and is no longer than any other such sequence; it
    returns the empty sequence when there is none. *)
Theorem findShortestPath_shortest_route (grid : Grid) (start end_ : Position) :
  let s := floorCell start in
  let e := floorCell end_ in
  exists path,
    Maze.findShortestPath grid start end_ = Returns path
    /\ ((path = [] /\ forall q, ~ isRoute grid s e q)
        \/ (isRoute grid s e path /\
            forall q, isRoute grid s e q -> (length path <= length q)%nat)).
Proof.
  cbv zeta. destruct (findShortestPath_answer grid start end_) as (path & Hret & Hans).
  exists path. split; [exact Hret|]. apply answer_isRoute, Hans.
Qed.

(** From START to END of [maze5] the route runs along the only corridor. *)
Example maze5_route :
  Maze.findShortestPath maze5 (mkPosition 1 1) (mkPosition 3 3) =
  Returns [(1, 1); (2, 1); (3, 1); (3, 2); (3, 3)].
Proof. vm_compute. reflexivity. Qed.

(** The start cell is not tested: from a WALL cell the search still walks
    to the open cell next to it, although no sequence of non-WALL cells
    starts there. *)
Definition wallThenPath : Grid := [ [WALL; PATH] ].

Lemma findShortestPath_starts_in_wall :
  Maze.findShortestPath wallThenPath (mkPosition 0 0) (mkPosition 1 0)
    = Returns [(0, 0); (1, 0)]
  /\ cellAt wallThenPath 0 0 = Some WALL
  /\ (forall q, isRoute wallThenPath (0, 0) (1, 0) q ->
        ~ Forall (walkable wallThenPath) q).
Proof.
  split; [reflexivity|]. split; [reflexivity|].
  intros q (Hhd & _) Hall. destruct q as [|c q]; [discriminate|].
  cbn in Hhd. inversion Hhd; subst c. inversion Hall as [|? ? [_ Hw] _]; subst.
  discriminate Hw.
Qed.

(** ** Out-of-bounds queries *)

Lemma walkable_inGrid grid c : walkable grid c -> inGrid grid (fst c) (snd c) = true.
Proof. intros [H _]. exact H. Qed.

(** C8, as the code behaves.  Cells outside the grid are skipped, not
    reported: [findShortestPath] returns normally, with only in-bounds cells
    after the first and with the empty sequence when the end cell is outside
    the grid and is not the start cell; [checkWallCollision] is false when
    every cell the footprint overlaps is outside the grid. *)
Theorem out_of_bounds_cells_are_skipped
    (grid : Grid) (start end_ : Position) (x z : Q) :
  (exists path,
     Maze.findShortestPath grid start end_ = Returns path
     /\ Forall (fun c => inGrid grid (fst c) (snd c) = true) (tl path)
     /\ (inGrid grid (fst (floorCell end_)) (snd (floorCell end_)) = false ->
         floorCell start <> floorCell end_ -> path = []))
  /\ ((forall cx cz, footprintOverlaps x z cx cz -> inGrid grid cx cz = false) ->
      App.checkWallCollision x z grid = false).
Proof.
  split.
  - destruct (findShortestPath_answer grid start end_) as (path & Hret & Hans).
    exists path. split; [exact Hret|].
    destruct Hans as [[-> _]|[Hr _]].
    + split; [constructor|reflexivity].
    + split.
      * apply route_isRoute in Hr. destruct Hr as (_ & _ & _ & Hw).
        eapply Forall_impl; [|exact Hw]. intros c Hc. apply walkable_inGrid, Hc.
      * intros Hout Hne. exfalso. destruct Hr as [|c d p Hr' Hadj Hw].
        -- apply Hne. reflexivity.
        -- apply walkable_inGrid in Hw. congruence.
  - intros Hout. destruct (App.checkWallCollision x z grid) eqn:E; [|reflexivity].
    apply checkWallCollision_iff in E. destruct E as (cx & cz & [Hin _] & Hov).
    rewrite (Hout cx cz Hov) in Hin. discriminate.
Qed.

Lemma out_of_bounds_cells_are_skipped_witness :
  Maze.findShortestPath corridor (mkPosition 1 1) (mkPosition 9 9) = Returns []
  /\ App.checkWallCollision (-5) (-5) corridor = false.
Proof.
  destruct (out_of_bounds_cells_are_skipped corridor (mkPosition 1 1) (mkPosition 9 9)
              (-5) (-5)) as [(path & Hret & _ & Hempty) Hfree].
  split.
  - rewrite Hret. f_equal. apply Hempty; [reflexivity|discriminate].
  - apply Hfree. intros cx cz [Hx Hz].
    rewrite Qabs_lt_iff in Hx. unfold PLAYER_RADIUS in Hx.
    assert (Hneg : (inject_Z cx < inject_Z 0)%Q) by (change (inject_Z 0) with 0%Q; lra).
    rewrite <- Zlt_Qlt in Hneg. unfold inGrid.
    assert (H0 : (0 <=? cx) = false) by (apply Z.leb_gt; exact Hneg).
    rewrite H0, andb_false_r. reflexivity.
Defined.

(** An out-of-bounds query gets an ordinary return value, not an
    exception. *)
Lemma out_of_bounds_query_returns :
  inGrid corridor (-5) (-5) = false
  /\ Maze.findShortestPath corridor (mkPosition (-5) (-5)) (mkPosition 1 1) = Returns []
  /\ Maze.findShortestPath corridor (mkPosition (-5) (-5)) (mkPosition 1 1) <> Throws
  /\ App.checkWallCollision (-5) (-5) corridor = false.
Proof.
  split; [reflexivity|]. split; [reflexivity|]. split; [discriminate|reflexivity].
Qed.

(** ** Trees of cells *)

(** [walk a b p]: [p] goes from [a] to [b] and consecutive cells are
    adjacent. *)
Inductive walk : Cell -> Cell -> list Cell -> Prop :=
| walk_one a : walk a a [a]
| walk_cons a c b p : adjacent a c -> walk c b p -> walk a b (a :: p).

(** A simple path inside the cell set [S]. *)
Definition simpleIn (S : list Cell) (a b : Cell) (p : list Cell) : Prop :=
  walk a b p /\ NoDup p /\ incl p S.

(** A set of cells grown from one cell by attaching leaves: each new cell
    touches exactly one cell of the set it joins. *)
Inductive tree : list Cell -> Prop :=
| tree_root r : tree [r]
| tree_leaf S u v :
    tree S -> In u S -> ~ In v S -> adjacent u v ->
    (forall w, In w S -> adjacent v w -> w = u) ->
    tree (v :: S).

Lemma walk_head a b p : walk a b p -> exists t, p = a :: t.
Proof. intros H. destruct H; eexists; reflexivity. Qed.

Lemma walk_in_last a b p : walk a b p -> In b p.
Proof.
  induction 1 as [a|a c b p Hadj Hw IH]; [left; reflexivity|right; exact IH].
Qed.

Lemma walk_in_first a b p : walk a b p -> In a p.
Proof. intros H. destruct H; left; reflexivity. Qed.

Lemma walk_snoc a b c p : walk a b p -> adjacent b c -> walk a c (p ++ [c]).
Proof.
  induction 1 as [a|a c' b p Hadj Hw IH]; intros Hbc.
  - cbn. apply (walk_cons a c c); [exact Hbc|constructor].
  - cbn [app]. apply (walk_cons a c' c); [exact Hadj|apply IH, Hbc].
Qed.

Lemma walk_rev a b p : walk a b p -> walk b a (rev p).
Proof.
  induction 1 as [a|a c b p Hadj Hw IH]; [constructor|].
  cbn [rev]. apply (walk_snoc b c a); [exact IH|apply adjacent_sym, Hadj].
Qed.

Lemma simpleIn_rev S a b p : simpleIn S a b p -> simpleIn S b a (rev p).
Proof.
  intros (Hw & Hnd & Hin). split; [apply walk_rev, Hw|].
  split; [apply NoDup_rev, Hnd|].
  intros x Hx. apply Hin. apply in_rev. exact Hx.
Qed.

Lemma simpleIn_loop S a p : simpleIn S a a p -> p = [a].
Proof.
  intros (Hw & Hnd & _). inversion Hw as [|? c ? p' Hadj Hw']; subst; [reflexivity|].
  exfalso. inversion Hnd as [|? ? Hnotin _]; subst.
  apply Hnotin. apply (walk_in_last c a p' Hw').
Qed.

Lemma simpleIn_weaken S v a b p : simpleIn S a b p -> simpleIn (v :: S) a b p.
Proof.
  intros (Hw & Hnd & Hin). split; [exact Hw|]. split; [exact Hnd|].
  intros x Hx. right. apply Hin, Hx.
Qed.

Section Leaf.

Variable S : list Cell.
Variables u v : Cell.
Hypothesis v_fresh : ~ In v S.
Hypothesis v_touches : adjacent u v.
Hypothesis v_leaf : forall w, In w S -> adjacent v w -> w = u.

(** A simple path between two cells of [S] does not pass through the
    leaf. *)
Lemma leaf_avoided a b p :
  walk a b p -> NoDup p -> incl p (v :: S) -> a <> v -> b <> v -> ~ In v p.
Proof.
  induction 1 as [a|a c b p Hadj Hw IH]; intros Hnd Hin Ha Hb.
  - intros [H|[]]. congruence.
  - inversion Hnd as [|? ? Hnotin Hnd']; subst.
    assert (Hin' : incl p (v :: S)) by (intros x Hx; apply Hin; right; exact Hx).
    destruct (cell_eq_dec c v) as [->|Hc].
    + exfalso. inversion Hw as [|? c' ? p' Hadj' Hw']; subst; [congruence|].
      inversion Hnd' as [|? ? Hnotin' _]; subst.
      assert (Hc'S : In c' S).
      { destruct (Hin' c') as [Heq|H]; [right; apply (walk_in_first c' b p' Hw')| |exact H].
        exfalso. apply Hnotin'. rewrite Heq. apply (walk_in_first c' b p' Hw'). }
      assert (HaS : In a S).
      { destruct (Hin a) as [Heq|H]; [left; reflexivity| |exact H]. congruence. }
      assert (c' = u) by (apply v_leaf; assumption).
      assert (a = u) by (apply v_leaf; [exact HaS|apply adjacent_sym, Hadj]).
      subst. apply Hnotin. right. apply (walk_in_first u b p' Hw').
    + intros [H|H]; [congruence|]. revert H. apply IH; assumption.
Qed.

Lemma simpleIn_strengthen a b p :
  simpleIn (v :: S) a b p -> a <> v -> b <> v -> simpleIn S a b p.
Proof.
  intros (Hw & Hnd & Hin) Ha Hb. split; [exact Hw|]. split; [exact Hnd|].
  intros x Hx. destruct (Hin x Hx) as [Heq|H]; [|exact H].
  exfalso. subst x. revert Hx. apply (leaf_avoided a b p); assumption.
Qed.

(** A simple path that starts at the leaf continues from [u] inside [S]. *)
Lemma simpleIn_from_leaf b p :
  simpleIn (v :: S) v b p -> b <> v -> exists t, p = v :: t /\ simpleIn S u b t.
Proof.
  intros (Hw & Hnd & Hin) Hb.
  inversion Hw as [|? c ? t Hadj Hw']; subst; [congruence|].
  exists t. split; [reflexivity|].
  inversion Hnd as [|? ? Hnotin Hnd']; subst.
  assert (Hin' : incl t S).
  { intros x Hx. destruct (Hin x (or_intror Hx)) as [Heq|H]; [|exact H].
    exfalso. apply Hnotin. rewrite Heq. exact Hx. }
  assert (c = u).
  { apply v_leaf; [|exact Hadj]. apply Hin', (walk_in_first c b t Hw'). }
  subst c. split; [exact Hw'|]. split; assumption.
Qed.

End Leaf.

(** In a tree exactly one simple path joins any two cells. *)
Theorem tree_unique_path S :
  tree S -> forall a b, In a S -> In b S ->
  exists p, simpleIn S a b p /\ forall q, simpleIn S a b q -> q = p.
Proof.
  induction 1 as [r|S u v Htree IH Hu Hv Hadj Hleaf]; intros a b Ha Hb.
  - destruct Ha as [<-|[]]. destruct Hb as [<-|[]].
    exists [r]. split.
    + split; [constructor|]. split; [constructor; [intros []|constructor]|].
      intros x Hx. exact Hx.
    + intros q Hq. apply (simpleIn_loop [r] r q Hq).
  - destruct (cell_eq_dec a v) as [->|Hav]; destruct (cell_eq_dec b v) as [->|Hbv].
    + exists [v]. split.
      * split; [constructor|]. split; [constructor; [intros []|constructor]|].
        intros x [<-|[]]. left. reflexivity.
      * intros q Hq. apply (simpleIn_loop _ v q Hq).
    + assert (HbS : In b S) by (destruct Hb as [Hb|Hb]; [congruence|exact Hb]).
      destruct (IH u b Hu HbS) as (p & Hp & Huniq).
      exists (v :: p). split.
      * destruct Hp as (Hw & Hnd & Hin). split; [apply (walk_cons v u b p);
          [apply adjacent_sym, Hadj|exact Hw]|].
        split; [constructor; [intros Hx; apply Hv, Hin, Hx|exact Hnd]|].
        intros x [<-|Hx]; [left; reflexivity|right; apply Hin, Hx].
      * intros q Hq.
        destruct (simpleIn_from_leaf S u v Hv Hadj Hleaf b q Hq Hbv) as (t & -> & Ht).
        f_equal. apply Huniq, Ht.
    + assert (HaS : In a S) by (destruct Ha as [Ha|Ha]; [congruence|exact Ha]).
      destruct (IH u a Hu HaS) as (p & Hp & Huniq).
      exists (rev (v :: p)). split.
      * apply simpleIn_rev.
        destruct Hp as (Hw & Hnd & Hin). split; [apply (walk_cons v u a p);
          [apply adjacent_sym, Hadj|exact Hw]|].
        split; [constructor; [intros Hx; apply Hv, Hin, Hx|exact Hnd]|].
        intros x [<-|Hx]; [left; reflexivity|right; apply Hin, Hx].
      * intros q Hq. apply simpleIn_rev in Hq.
        destruct (simpleIn_from_leaf S u v Hv Hadj Hleaf a (rev q) Hq Hav) as (t & Hrev & Ht).
        rewrite <- (rev_involutive q), Hrev. f_equal. f_equal. apply Huniq, Ht.
    + assert (HaS : In a S) by (destruct Ha as [Ha|Ha]; [congruence|exact Ha]).
      assert (HbS : In b S) by (destruct Hb as [Hb|Hb]; [congruence|exact Hb]).
      destruct (IH a b HaS HbS) as (p & Hp & Huniq).
      exists p. split; [apply simpleIn_weaken, Hp|].
      intros q Hq. apply Huniq.
      apply (simpleIn_strengthen S u v Hv Hadj Hleaf a b q Hq Hav Hbv).
Qed.

(** ** Grids of a fixed shape *)

Definition rect (w h : Z) (g : Grid) : Prop :=
  len g = h /\ Forall (fun r => len r = w) g.

Lemma nth_error_setNth {A} (l : list A) (i j : nat) (v : A) :
  nth_error (Maze.setNth i v l) j =
  if (j =? i)%nat && (i <? length l)%nat then Some v else nth_error l j.
Proof.
  revert i j. induction l as [|a l IH]; intros i j.
  - destruct i; cbn; rewrite andb_false_r; reflexivity.
  - destruct i as [|i], j as [|j]; cbn [Maze.setNth nth_error]; try reflexivity.
    rewrite IH. cbn [length]. reflexivity.
Qed.

Lemma length_setNth {A} (l : list A) (i : nat) (v : A) :
  length (Maze.setNth i v l) = length l.
Proof.
  revert i. induction l as [|a l IH]; intros [|i]; cbn; try reflexivity.
  rewrite IH. reflexivity.
Qed.

Lemma index_Some {A} (l : list A) (i : Z) :
  0 <= i < len l -> exists a, index l i = Some a.
Proof.
  intros [H0 H1]. unfold index, len in *.
  assert (Hneg : (i <? 0) = false) by (apply Z.ltb_ge; exact H0).
  rewrite Hneg.
  destruct (nth_error l (Z.to_nat i)) as [a|] eqn:E; [exists a; reflexivity|].
  apply nth_error_None in E. lia.
Qed.

Lemma index_range {A} (l : list A) (i : Z) (a : A) :
  index l i = Some a -> 0 <= i < len l.
Proof.
  unfold index, len. destruct (i <? 0) eqn:Hneg; [discriminate|].
  apply Z.ltb_ge in Hneg. intros H.
  assert (Hlt : (Z.to_nat i < length l)%nat) by (apply nth_error_Some; congruence).
  lia.
Qed.

Lemma index_setNth {A} (l : list A) (i j : Z) (v : A) :
  0 <= i < len l ->
  index (Maze.setNth (Z.to_nat i) v l) j = if j =? i then Some v else index l j.
Proof.
  intros [H0 H1]. unfold index, len in *. destruct (j <? 0) eqn:Hneg.
  - apply Z.ltb_lt in Hneg.
    assert (Hne : (j =? i) = false) by (apply Z.eqb_neq; lia).
    rewrite Hne. reflexivity.
  - apply Z.ltb_ge in Hneg. rewrite nth_error_setNth.
    assert (Hlt : (Z.to_nat i <? length l)%nat = true) by (apply Nat.ltb_lt; lia).
    rewrite Hlt, andb_true_r.
    destruct (j =? i) eqn:E.
    + apply Z.eqb_eq in E. subst. rewrite Nat.eqb_refl. reflexivity.
    + apply Z.eqb_neq in E.
      assert (Hn : (Z.to_nat j =? Z.to_nat i)%nat = false) by (apply Nat.eqb_neq; lia).
      rewrite Hn. reflexivity.
Qed.

Lemma rect_row w h g z r : rect w h g -> index g z = Some r -> len r = w.
Proof.
  intros [_ Hrows] Hr. rewrite Forall_forall in Hrows. apply Hrows.
  unfold index in Hr. destruct (z <? 0); [discriminate|].
  apply nth_error_In in Hr. exact Hr.
Qed.

Lemma rect_width0 w h g : rect w h g -> 0 < h -> width0 g = w.
Proof.
  intros [Hlen Hrows] Hh. destruct g as [|r g]; [cbn in Hlen; lia|].
  cbn. inversion Hrows; assumption.
Qed.

Lemma rect_cellAt w h g x z :
  rect w h g -> 0 <= x < w -> 0 <= z < h -> exists t, cellAt g x z = Some t.
Proof.
  intros Hrect Hx Hz. unfold cellAt.
  destruct (index_Some g z) as [r Hr]; [destruct Hrect as [-> _]; exact Hz|].
  rewrite Hr. apply index_Some. rewrite (rect_row w h g z r Hrect Hr). exact Hx.
Qed.

Lemma rect_inGrid w h g x z :
  rect w h g -> 0 < h ->
  (inGrid g x z = true <-> 0 <= x < w /\ 0 <= z < h).
Proof.
  intros Hrect Hh. unfold inGrid. rewrite (rect_width0 w h g Hrect Hh).
  destruct Hrect as [-> _].
  rewrite !andb_true_iff, !Z.leb_le, !Z.ltb_lt. tauto.
Qed.

Lemma setCell_rect w h g x z v :
  rect w h g -> 0 <= x < w -> 0 <= z < h ->
  exists g', Maze.setCell g x z v = Returns g' /\ rect w h g'
    /\ forall x' z', cellAt g' x' z' =
         if (x' =? x) && (z' =? z) then Some v else cellAt g x' z'.
Proof.
  intros Hrect Hx Hz. unfold Maze.setCell.
  assert (Hzl : 0 <= z < len g) by (destruct Hrect as [-> _]; exact Hz).
  destruct (index_Some g z Hzl) as [r Hr]. rewrite Hr.
  pose proof (rect_row w h g z r Hrect Hr) as Hlr.
  assert (Hguard : (0 <=? x) && (x <? len r) = true).
  { rewrite Hlr. apply andb_true_iff. split; [apply Z.leb_le|apply Z.ltb_lt]; lia. }
  rewrite Hguard. eexists. split; [reflexivity|]. split.
  - destruct Hrect as [Hlen Hrows]. split.
    + unfold len in *. rewrite length_setNth. exact Hlen.
    + rewrite Forall_forall in *. intros r' Hin.
      apply In_nth_error in Hin. destruct Hin as [j Hj].
      rewrite nth_error_setNth in Hj.
      destruct ((j =? Z.to_nat z)%nat && (Z.to_nat z <? length g)%nat).
      * injection Hj as <-. unfold len in *. rewrite length_setNth. exact Hlr.
      * apply Hrows. apply nth_error_In in Hj. exact Hj.
  - intros x' z'. unfold cellAt. rewrite (index_setNth g z z' _ Hzl).
    destruct (z' =? z) eqn:Ez.
    + apply Z.eqb_eq in Ez. subst z'. rewrite Hr.
      rewrite index_setNth by (rewrite Hlr; exact Hx).
      rewrite andb_true_r. reflexivity.
    + rewrite andb_false_r. reflexivity.
Qed.

Lemma walkable_rect w h g c :
  rect w h g -> 0 < h ->
  (walkable g c <->
   0 <= fst c < w /\ 0 <= snd c < h /\ cellAt g (fst c) (snd c) <> Some WALL).
Proof.
  intros Hrect Hh. unfold walkable. rewrite (rect_inGrid w h g _ _ Hrect Hh).
  unfold isWall. split.
  - intros [[Hx Hz] Hw]. split; [exact Hx|]. split; [exact Hz|].
    intros E. rewrite E in Hw. discriminate.
  - intros (Hx & Hz & Hw). split; [split; assumption|].
    destruct (cellAt g (fst c) (snd c)) as [[]|]; try reflexivity. congruence.
Qed.

(** Opening a cell adds it to the walkable cells and changes nothing
    else. *)
Lemma walkable_setCell w h g g' x z v c :
  rect w h g -> rect w h g' -> 0 < h -> 0 <= x < w -> 0 <= z < h -> v <> WALL ->
  (forall x' z', cellAt g' x' z' =
     if (x' =? x) && (z' =? z) then Some v else cellAt g x' z') ->
  (walkable g' c <-> c = (x, z) \/ walkable g c).
Proof.
  intros Hrect Hrect' Hh Hx Hz Hv Hcell.
  rewrite (walkable_rect w h g' c Hrect' Hh), (walkable_rect w h g c Hrect Hh).
  rewrite Hcell. destruct c as [cx cz]. cbn [fst snd].
  destruct ((cx =? x) && (cz =? z)) eqn:E.
  - apply andb_true_iff in E. destruct E as [E1 E2].
    apply Z.eqb_eq in E1, E2. subst. split.
    + intros _. left. reflexivity.
    + intros _. split; [exact Hx|]. split; [exact Hz|]. congruence.
  - split.
    + intros H. right. exact H.
    + intros [H|H]; [|exact H]. inversion H; subst.
      rewrite !Z.eqb_refl in E. discriminate.
Qed.

Lemma initGrid_rect w h : 0 <= w -> 0 <= h -> rect w h (Maze.initGrid w h).
Proof.
  intros Hw Hh. unfold rect, Maze.initGrid, len. split.
  - rewrite repeat_length. lia.
  - apply Forall_forall. intros r Hr. apply repeat_spec in Hr. subst r.
    rewrite repeat_length. lia.
Qed.

Lemma initGrid_walled w h c : 0 <= w -> 0 < h -> ~ walkable (Maze.initGrid w h) c.
Proof.
  intros Hw Hh Hc.
  pose proof (initGrid_rect w h Hw (Z.lt_le_incl _ _ Hh)) as Hrect.
  apply (walkable_rect w h _ c Hrect Hh) in Hc. destruct Hc as (Hx & Hz & Hopen).
  apply Hopen. unfold cellAt, Maze.initGrid, index.
  assert (Hzn : (snd c <? 0) = false) by (apply Z.ltb_ge; lia).
  assert (Hxn : (fst c <? 0) = false) by (apply Z.ltb_ge; lia).
  rewrite Hzn. rewrite nth_error_repeat by lia. rewrite Hxn.
  rewrite nth_error_repeat by lia. reflexivity.
Qed.

(** ** MazeGenerator: the carving invariant *)

Definition isOdd (x : Z) : Prop := x mod 2 = 1.

Definition step2 (c : Cell) (d : Z * Z) : Cell := (fst c + fst d, snd c + snd d).

Definition between (c : Cell) (d : Z * Z) : Cell :=
  (fst c + fst d / 2, snd c + snd d / 2).

Ltac parity :=
  unfold isOdd, adjacent, step2, between in *; cbn [fst snd] in *;
  Z.to_euclidean_division_equations; lia.

Lemma in_directions d :
  In d Maze.directions -> d = (0, -2) \/ d = (2, 0) \/ d = (0, 2) \/ d = (-2, 0).
Proof. cbn. intros [H|[H|[H|[H|[]]]]]; auto. Qed.

Lemma adjacent_flips_parity a b :
  adjacent a b -> isOdd (fst a) -> isOdd (snd a) ->
  isOdd (fst b) -> isOdd (snd b) -> False.
Proof. destruct a, b. intros. parity. Qed.

Lemma between_adjacent c d :
  In d Maze.directions -> adjacent c (between c d) /\ adjacent (between c d) (step2 c d).
Proof.
  intros Hd. apply in_directions in Hd. destruct c as [x z].
  destruct Hd as [->|[->|[->| ->]]]; unfold between, step2, adjacent; cbn [fst snd];
    change (0 / 2) with 0; change (2 / 2) with 1; change (-2 / 2) with (-1);
    split; lia.
Qed.

Lemma between_parity c d :
  In d Maze.directions -> isOdd (fst c) -> isOdd (snd c) ->
  (isOdd (fst (between c d)) \/ isOdd (snd (between c d)))
  /\ ~ (isOdd (fst (between c d)) /\ isOdd (snd (between c d)))
  /\ isOdd (fst (step2 c d)) /\ isOdd (snd (step2 c d)).
Proof.
  intros Hd. apply in_directions in Hd. destruct c as [x z].
  destruct Hd as [->|[->|[->| ->]]]; unfold between, step2; cbn [fst snd];
    change (0 / 2) with 0; change (2 / 2) with 1; change (-2 / 2) with (-1);
    intros; parity.
Qed.

(** Around the cell between two rooms only the two rooms can be open. *)
Lemma between_neighbours c d w :
  In d Maze.directions -> isOdd (fst c) -> isOdd (snd c) ->
  adjacent (between c d) w -> isOdd (fst w) \/ isOdd (snd w) ->
  w = c \/ w = step2 c d.
Proof.
  intros Hd. apply in_directions in Hd. destruct c as [x z], w as [wx wz].
  destruct Hd as [->|[->|[->| ->]]]; unfold between, step2, adjacent, isOdd;
    cbn [fst snd];
    change (0 / 2) with 0; change (2 / 2) with 1; change (-2 / 2) with (-1);
    intros Hx Hz Hadj Hw;
    match goal with
    | |- ?a = ?b \/ ?c = ?e =>
        assert ((wx = fst b /\ wz = snd b) \/ (wx = fst e /\ wz = snd e)) as [[-> ->]|[-> ->]]
          by (cbn [fst snd]; Z.to_euclidean_division_equations; lia);
        cbn [fst snd]; auto
    end.
Qed.

Section Carving.

Import Maze.

Variable shuffle : nat -> list (Z * Z).
Variables W H : Z.

Hypothesis shuffle_perm : forall k, Permutation (shuffle k) directions.
Hypothesis W_pos : 0 < W.
Hypothesis H_pos : 0 < H.

Definition interior (c : Cell) : Prop := 0 < fst c < W - 1 /\ 0 < snd c < H - 1.

Definition room (c : Cell) : Prop := isOdd (fst c) /\ isOdd (snd c) /\ interior c.

Lemma isInBounds_interior c : isInBounds W H (fst c) (snd c) = true <-> interior c.
Proof.
  unfold isInBounds, interior. rewrite !andb_true_iff, !Z.ltb_lt. tauto.
Qed.

(** Every direction from [c] that stays in bounds leads to a carved
    cell. *)
Definition closedAt (C : list Cell) (c : Cell) : Prop :=
  forall d, In d directions -> interior (step2 c d) -> In (step2 c d) C.

Record carveInv (g : Grid) (C S : list Cell) : Prop := {
  ci_rect : rect W H g;
  ci_nodup : NoDup C;
  ci_rooms : forall c, In c C -> room c;
  ci_open : forall c, walkable g c <-> In c S;
  ci_tree : tree S;
  ci_parity : forall c, In c S -> isOdd (fst c) \/ isOdd (snd c);
  ci_carved_open : forall c, In c C -> In c S;
  ci_open_rooms : forall c, In c S -> isOdd (fst c) -> isOdd (snd c) -> In c C;
  ci_ends : forall c r, In c S -> adjacent c r ->
              isOdd (fst r) -> isOdd (snd r) -> In r C
}.

(** The state in which [carve x z] is called: either nothing is carved
    yet, or the wall between a carved room and the room [(x, z)] has just
    been opened. *)
Definition callState (n : Cell) (g : Grid) (C : list Cell) : Prop :=
  room n /\ ~ In n C /\
  ((C = [] /\ g = initGrid W H)
   \/ exists g0 c d S,
        carveInv g0 C S /\ In c C /\ In d directions /\ n = step2 c d
        /\ setCell g0 (fst (between c d)) (snd (between c d)) PATH = Returns g).

Lemma interior_range c : interior c -> 0 <= fst c < W /\ 0 <= snd c < H.
Proof. unfold interior. lia. Qed.

Lemma between_range c d :
  In d directions -> interior c -> interior (step2 c d) ->
  0 <= fst (between c d) < W /\ 0 <= snd (between c d) < H.
Proof.
  intros Hd. apply in_directions in Hd. destruct c as [x z].
  destruct Hd as [->|[->|[->| ->]]]; unfold between, step2, interior; cbn [fst snd];
    change (0 / 2) with 0; change (2 / 2) with 1; change (-2 / 2) with (-1); lia.
Qed.

(** The first two statements of [carve] re-establish the invariant. *)
Lemma open_room n g C :
  callState n g C ->
  exists g1, setCell g (fst n) (snd n) PATH = Returns g1
    /\ exists S1, carveInv g1 (C ++ [n]) S1.
Proof.
  intros (Hroom & Hfresh & Hstate).
  pose proof Hroom as (Hox & Hoz & Hint).
  pose proof (interior_range n Hint) as [Hx Hz].
  assert (HPATH : PATH <> WALL) by discriminate.
  destruct Hstate as [[-> ->]|(g0 & c & d & S & Hinv & Hc & Hd & Hn & Hset)].
  - pose proof (initGrid_rect W H (Z.lt_le_incl _ _ W_pos) (Z.lt_le_incl _ _ H_pos))
      as Hrect.
    destruct (setCell_rect W H _ (fst n) (snd n) PATH Hrect Hx Hz)
      as (g1 & Hg1 & Hrect1 & Hcell1).
    exists g1. split; [exact Hg1|]. exists [n]. constructor.
    + exact Hrect1.
    + constructor; [intros []|constructor].
    + intros c [<-|[]]. exact Hroom.
    + intros c.
      rewrite (walkable_setCell W H _ g1 (fst n) (snd n) PATH c Hrect Hrect1
                 H_pos Hx Hz HPATH Hcell1).
      rewrite <- surjective_pairing. split.
      * intros [->|Hw]; [left; reflexivity|].
        exfalso. revert Hw. apply initGrid_walled; lia.
      * intros [<-|[]]. left. reflexivity.
    + constructor.
    + intros c [<-|[]]. left. exact Hox.
    + intros c Hin. exact Hin.
    + intros c Hin _ _. exact Hin.
    + intros c r [<-|[]] Hadj Hrx Hrz. exfalso.
      apply (adjacent_flips_parity n r); assumption.
  - pose proof (ci_rooms _ _ _ Hinv c Hc) as (Hcx & Hcz & Hcint).
    set (m := between c d) in *.
    assert (Hmn : interior (step2 c d)) by (rewrite <- Hn; exact Hint).
    pose proof (between_range c d Hd Hcint Hmn) as [Hmx Hmz]. fold m in Hmx, Hmz.
    destruct (setCell_rect W H g0 (fst m) (snd m) PATH (ci_rect _ _ _ Hinv) Hmx Hmz)
      as (g' & Hg' & Hrect' & Hcell').
    assert (g' = g) by congruence. subst g'.
    destruct (setCell_rect W H g (fst n) (snd n) PATH Hrect' Hx Hz)
      as (g1 & Hg1 & Hrect1 & Hcell1).
    exists g1. split; [exact Hg1|]. exists (n :: m :: S).
    destruct (between_adjacent c d Hd) as [Hcm Hmn']. fold m in Hcm, Hmn'.
    rewrite <- Hn in Hmn'.
    destruct (between_parity c d Hd Hcx Hcz) as (Hm1 & Hm2 & _). fold m in Hm1, Hm2.
    assert (HnS : ~ In n S).
    { intros Hin. apply Hfresh. apply (ci_open_rooms _ _ _ Hinv); assumption. }
    assert (HmS : ~ In m S).
    { intros Hin. apply Hfresh. apply (ci_ends _ _ _ Hinv m n); assumption. }
    assert (Hnm : n <> m).
    { intros Heq. apply Hm2. rewrite <- Heq. split; assumption. }
    constructor.
    + exact Hrect1.
    + apply NoDup_app; [apply (ci_nodup _ _ _ Hinv)|
                        constructor; [intros []|constructor]|].
      intros a Ha [<-|[]]. contradiction.
    + intros a Ha. apply in_app_or in Ha. destruct Ha as [Ha|[<-|[]]].
      * apply (ci_rooms _ _ _ Hinv), Ha.
      * exact Hroom.
    + intros a.
      rewrite (walkable_setCell W H g g1 (fst n) (snd n) PATH a Hrect' Hrect1
                 H_pos Hx Hz HPATH Hcell1).
      rewrite (walkable_setCell W H g0 g (fst m) (snd m) PATH a (ci_rect _ _ _ Hinv)
                 Hrect' H_pos Hmx Hmz HPATH Hcell').
      rewrite <- !surjective_pairing. rewrite (ci_open _ _ _ Hinv a).
      cbn [In]. split; intros [->|[->|Ha]]; auto.
    + apply (tree_leaf (m :: S) m n).
      * apply (tree_leaf S c m).
        -- apply (ci_tree _ _ _ Hinv).
        -- apply (ci_carved_open _ _ _ Hinv), Hc.
        -- exact HmS.
        -- exact Hcm.
        -- intros w Hw Hadj.
           destruct (between_neighbours c d w Hd Hcx Hcz Hadj
                       (ci_parity _ _ _ Hinv w Hw)) as [Hwc|Hwn]; [exact Hwc|].
           exfalso. apply HnS. rewrite Hn, <- Hwn. exact Hw.
      * left. reflexivity.
      * intros [Heq|Hin]; [apply Hnm; symmetry; exact Heq|contradiction].
      * exact Hmn'.
      * intros w [<-|Hw] Hadj; [reflexivity|].
        exfalso. apply Hfresh.
        apply (ci_ends _ _ _ Hinv w n Hw); [apply adjacent_sym, Hadj|exact Hox|exact Hoz].
    + intros a [<-|[<-|Ha]].
      * left. exact Hox.
      * exact Hm1.
      * apply (ci_parity _ _ _ Hinv), Ha.
    + intros a Ha. apply in_app_or in Ha. destruct Ha as [Ha|[<-|[]]].
      * right. right. apply (ci_carved_open _ _ _ Hinv), Ha.
      * left. reflexivity.
    + intros a [<-|[<-|Ha]] Hax Haz; apply in_or_app.
      * right. left. reflexivity.
      * exfalso. apply Hm2. split; assumption.
      * left. apply (ci_open_rooms _ _ _ Hinv); assumption.
    + intros a r [<-|[<-|Ha]] Hadj Hrx Hrz; apply in_or_app.
      * exfalso. apply (adjacent_flips_parity n r); assumption.
      * destruct (between_neighbours c d r Hd Hcx Hcz Hadj (or_introl Hrx))
          as [->| ->].
        -- left. exact Hc.
        -- right. left. exact Hn.
      * left. apply (ci_ends _ _ _ Hinv a r); assumption.
Qed.

Definition capacity : nat := (Z.to_nat W * Z.to_nat H)%nat.

Lemma rooms_bound g C :
  rect W H g -> NoDup C -> (forall c, In c C -> room c) ->
  (length C <= capacity)%nat.
Proof.
  intros Hrect Hnd Hrooms.
  assert (Hlen : length (allCells g) = capacity).
  { rewrite allCells_length. rewrite (rect_width0 W H g Hrect H_pos).
    destruct Hrect as [Hl _]. unfold len in Hl. unfold capacity.
    rewrite <- Hl, Nat2Z.id. reflexivity. }
  rewrite <- Hlen. apply NoDup_incl_length; [exact Hnd|].
  intros c Hc. apply inGrid_allCells.
  apply (rect_inGrid W H g _ _ Hrect H_pos).
  destruct (Hrooms c Hc) as (_ & _ & Hint). apply interior_range, Hint.
Qed.

Lemma callState_bound n g C : callState n g C -> (length C < capacity)%nat.
Proof.
  intros (Hroom & Hfresh & Hstate).
  assert (Hb : (length (n :: C) <= capacity)%nat).
  { destruct Hstate as [[-> ->]|(g0 & c & d & S & Hinv & _)].
    - apply (rooms_bound (initGrid W H)).
      + apply initGrid_rect; lia.
      + constructor; [intros []|constructor].
      + intros c [<-|[]]. exact Hroom.
    - apply (rooms_bound g0).
      + apply (ci_rect _ _ _ Hinv).
      + constructor; [exact Hfresh|apply (ci_nodup _ _ _ Hinv)].
      + intros a [<-|Ha]; [exact Hroom|apply (ci_rooms _ _ _ Hinv), Ha]. }
  cbn [length] in Hb. lia.
Qed.

(** The [for] loop of [carve], with the recursive call as a parameter. *)
Definition carveEach (rec : Z -> Z -> CarveState -> Outcome CarveState) (x z : Z)
  : list (Z * Z) -> CarveState -> Outcome CarveState :=
  fix each (dirs : list (Z * Z)) (st : CarveState) : Outcome CarveState :=
    match dirs with
    | [] => Returns st
    | dir :: rest =>
        let nx := x + fst dir in
        let nz := z + snd dir in
        if isInBounds W H nx nz && negb (has (cs_carved st) (nx, nz))
        then
          grid2 <- setCell (cs_grid st) (x + fst dir / 2) (z + snd dir / 2) PATH ;;
          st' <- rec nx nz (mkCarveState grid2 (cs_carved st) (cs_calls st)) ;;
          each rest st'
        else each rest st
    end.

Lemma carve_unfold fuel x z st :
  carve shuffle W H (S fuel) x z st =
  (grid1 <- setCell (cs_grid st) x z PATH ;;
   carveEach (carve shuffle W H fuel) x z (shuffle (cs_calls st))
     (mkCarveState grid1 (add (cs_carved st) (x, z)) (S (cs_calls st)))).
Proof. reflexivity. Qed.

(** What a call of [carve], or a run of its loop, guarantees: the
    invariant again, nothing removed from [carved], and every newly carved
    room closed. *)
Definition carvePost (C0 : list Cell) (st' : CarveState) : Prop :=
  (exists S', carveInv (cs_grid st') (cs_carved st') S')
  /\ incl C0 (cs_carved st')
  /\ (forall c, In c (cs_carved st') -> ~ In c C0 -> closedAt (cs_carved st') c).

Lemma closedAt_incl C C' c : incl C C' -> closedAt C c -> closedAt C' c.
Proof. intros Hincl Hc d Hd Hint. apply Hincl, Hc; assumption. Qed.

Definition carveSpec (fuel : nat) : Prop :=
  forall x z st,
    callState (x, z) (cs_grid st) (cs_carved st) ->
    (capacity - length (cs_carved st) <= fuel)%nat ->
    exists st',
      carve shuffle W H fuel x z st = Returns st'
      /\ carvePost (cs_carved st) st' /\ In (x, z) (cs_carved st').

Lemma carveEach_spec fuel x z :
  carveSpec fuel ->
  forall dirs st,
    incl dirs directions ->
    (exists S, carveInv (cs_grid st) (cs_carved st) S) ->
    In (x, z) (cs_carved st) ->
    (capacity - length (cs_carved st) <= fuel)%nat ->
    exists st',
      carveEach (carve shuffle W H fuel) x z dirs st = Returns st'
      /\ carvePost (cs_carved st) st'
      /\ (forall d, In d dirs -> interior (step2 (x, z) d) ->
            In (step2 (x, z) d) (cs_carved st')).
Proof.
  intros Hrec. induction dirs as [|d rest IH]; intros st Hdirs Hinv Hc Hfuel.
  - exists st. split; [reflexivity|]. split.
    + split; [exact Hinv|]. split; [intros a Ha; exact Ha|]. intros a Ha Hna. contradiction.
    + intros d [].
  - assert (Hd : In d directions) by (apply Hdirs; left; reflexivity).
    assert (Hrest : incl rest directions) by (intros a Ha; apply Hdirs; right; exact Ha).
    cbn [carveEach]. cbv zeta. fold (carveEach (carve shuffle W H fuel) x z).
    change (x + fst d, z + snd d) with (step2 (x, z) d).
    set (n := step2 (x, z) d).
    destruct (isInBounds W H (x + fst d) (z + snd d)
              && negb (has (cs_carved st) n)) eqn:Hgo.
    + apply andb_true_iff in Hgo. destruct Hgo as [Hin Hnew].
      change (x + fst d) with (fst n) in Hin. change (z + snd d) with (snd n) in Hin.
      apply isInBounds_interior in Hin.
      apply negb_true_iff, has_false in Hnew.
      destruct Hinv as [S Hinv].
      pose proof (ci_rooms _ _ _ Hinv _ Hc) as (Hcx & Hcz & Hcint).
      pose proof (between_range (x, z) d Hd Hcint Hin) as [Hmx Hmz].
      destruct (setCell_rect W H (cs_grid st) _ _ PATH (ci_rect _ _ _ Hinv) Hmx Hmz)
        as (g2 & Hg2 & _).
      change (x + fst d / 2) with (fst (between (x, z) d)).
      change (z + snd d / 2) with (snd (between (x, z) d)).
      rewrite Hg2. cbn [bind].
      assert (Hcall : callState n g2 (cs_carved st)).
      { split; [|split; [exact Hnew|]].
        - destruct (between_parity (x, z) d Hd Hcx Hcz) as (_ & _ & Hnx & Hnz).
          split; [exact Hnx|]. split; [exact Hnz|exact Hin].
        - right. exists (cs_grid st), (x, z), d, S.
          split; [exact Hinv|]. split; [exact Hc|]. split; [exact Hd|].
          split; [reflexivity|exact Hg2]. }
      destruct (Hrec (fst n) (snd n) (mkCarveState g2 (cs_carved st) (cs_calls st)))
        as (st1 & Hst1 & (Hinv1 & Hincl1 & Hclosed1) & Hn1).
      { cbn [cs_grid cs_carved]. rewrite <- surjective_pairing. exact Hcall. }
      { cbn [cs_carved]. exact Hfuel. }
      cbn [cs_carved] in *. rewrite <- surjective_pairing in Hn1.
      change (fst n) with (x + fst d) in Hst1. change (snd n) with (z + snd d) in Hst1.
      rewrite Hst1. cbn [bind].
      destruct (IH st1 Hrest Hinv1 (Hincl1 _ Hc))
        as (st' & Hst' & (Hinv' & Hincl' & Hclosed') & Hdone).
      { pose proof (NoDup_incl_length (ci_nodup _ _ _ Hinv) Hincl1). lia. }
      exists st'. split; [exact Hst'|]. split.
      * split; [exact Hinv'|]. split.
        -- intros a Ha. apply Hincl', Hincl1, Ha.
        -- intros a Ha Hna.
           destruct (in_dec cell_eq_dec a (cs_carved st1)) as [Ha1|Ha1].
           ++ apply (closedAt_incl (cs_carved st1)); [exact Hincl'|].
              apply Hclosed1; assumption.
           ++ apply Hclosed'; assumption.
      * intros d' [<-|Hd'] Hint; [apply Hincl', Hn1|apply Hdone; assumption].
    + destruct (IH st Hrest Hinv Hc Hfuel) as (st' & Hst' & Hpost & Hdone).
      exists st'. split; [exact Hst'|]. split; [exact Hpost|].
      intros d' [<-|Hd'] Hint; [|apply Hdone; assumption].
      apply andb_false_iff in Hgo. destruct Hgo as [Hout|Hold].
      * exfalso. apply isInBounds_interior in Hint.
        cbn [step2 fst snd] in Hint. congruence.
      * apply negb_false_iff, has_true in Hold.
        destruct Hpost as (_ & Hincl & _). apply Hincl, Hold.
Qed.

Lemma carve_spec fuel : carveSpec fuel.
Proof.
  induction fuel as [|fuel IH]; intros x z st Hcall Hfuel.
  - pose proof (callState_bound _ _ _ Hcall). lia.
  - rewrite carve_unfold.
    destruct (open_room _ _ _ Hcall) as (g1 & Hg1 & S1 & Hinv1).
    cbn [fst snd] in Hg1. rewrite Hg1. cbn [bind].
    pose proof Hcall as (_ & Hfresh & _).
    rewrite (add_fresh _ _ Hfresh).
    destruct (carveEach_spec fuel x z IH (shuffle (cs_calls st))
                (mkCarveState g1 (cs_carved st ++ [(x, z)]) (S (cs_calls st))))
      as (st' & Hst' & (Hinv' & Hincl' & Hclosed') & Hdone).
    { intros d Hd. apply (Permutation_in d (shuffle_perm (cs_calls st))), Hd. }
    { exists S1. exact Hinv1. }
    { cbn [cs_carved]. apply in_or_app. right. left. reflexivity. }
    { cbn [cs_carved]. rewrite length_app. cbn [length]. lia. }
    cbn [cs_carved] in *.
    assert (Hn : In (x, z) (cs_carved st'))
      by (apply Hincl', in_or_app; right; left; reflexivity).
    exists st'. split; [exact Hst'|]. split; [|exact Hn].
    split; [exact Hinv'|]. split.
    + intros a Ha. apply Hincl', in_or_app. left. exact Ha.
    + intros a Ha Hna. destruct (cell_eq_dec a (x, z)) as [->|Hne].
      * intros d Hd Hint. apply Hdone; [|exact Hint].
        apply (Permutation_in d (Permutation_sym (shuffle_perm (cs_calls st)))), Hd.
      * apply Hclosed'; [exact Ha|].
        intros Hin. apply in_app_or in Hin. destruct Hin as [Hin|[Heq|[]]];
          [contradiction|congruence].
Qed.

(** A set of rooms that holds [(1, 1)] and is closed in every direction
    holds every room. *)
Lemma closed_rooms_all C :
  In (1, 1) C -> (forall c, In c C -> closedAt C c) ->
  forall c, room c -> In c C.
Proof.
  intros Hstart Hclosed.
  assert (Heast : forall i : nat,
            interior (1 + 2 * Z.of_nat i, 1) -> In (1 + 2 * Z.of_nat i, 1) C).
  { induction i as [|i IH]; intros Hint; [exact Hstart|].
    assert (Hprev : interior (1 + 2 * Z.of_nat i, 1))
      by (unfold interior in *; cbn [fst snd] in *; lia).
    specialize (IH Hprev).
    replace (1 + 2 * Z.of_nat (S i), 1) with (step2 (1 + 2 * Z.of_nat i, 1) (2, 0))
      by (unfold step2; cbn [fst snd]; f_equal; lia).
    apply (Hclosed _ IH); [cbn; auto|].
    unfold step2, interior in *. cbn [fst snd] in *. lia. }
  assert (Hsouth : forall (x : Z) (j : nat),
            In (x, 1) C -> interior (x, 1 + 2 * Z.of_nat j) ->
            In (x, 1 + 2 * Z.of_nat j) C).
  { intros x. induction j as [|j IH]; intros Hx Hint; [exact Hx|].
    assert (Hprev : interior (x, 1 + 2 * Z.of_nat j))
      by (unfold interior in *; cbn [fst snd] in *; lia).
    specialize (IH Hx Hprev).
    replace (x, 1 + 2 * Z.of_nat (S j)) with (step2 (x, 1 + 2 * Z.of_nat j) (0, 2))
      by (unfold step2; cbn [fst snd]; f_equal; lia).
    apply (Hclosed _ IH); [cbn; auto|].
    unfold step2, interior in *. cbn [fst snd] in *. lia. }
  intros [x z] (Hx & Hz & Hint).
  assert (Hxi : x = 1 + 2 * Z.of_nat (Z.to_nat ((x - 1) / 2)))
    by (unfold isOdd, interior in *; cbn [fst snd] in *;
        rewrite Z2Nat.id; Z.to_euclidean_division_equations; lia).
  assert (Hzj : z = 1 + 2 * Z.of_nat (Z.to_nat ((z - 1) / 2)))
    by (unfold isOdd, interior in *; cbn [fst snd] in *;
        rewrite Z2Nat.id; Z.to_euclidean_division_equations; lia).
  rewrite Hzj. apply Hsouth.
  - rewrite Hxi. apply Heast. rewrite <- Hxi.
    unfold interior in *. cbn [fst snd] in *. lia.
  - rewrite <- Hzj. exact Hint.
Qed.

(** The whole of [generateMaze]: it returns, START and END are where the
    source puts them, and the open cells are a tree that holds every room. *)
Lemma generateMaze_tree :
  5 <= W -> 5 <= H -> isOdd W -> isOdd H ->
  exists m S,
    generateMaze shuffle W H = Returns m
    /\ mz_start m = (1, 1) /\ mz_end m = (W - 2, H - 2)
    /\ cellAt (mz_grid m) 1 1 = Some START
    /\ cellAt (mz_grid m) (W - 2) (H - 2) = Some END
    /\ tree S
    /\ (forall c, walkable (mz_grid m) c <-> In c S)
    /\ (forall c, room c -> In c S).
Proof.
  intros HW HH HWodd HHodd.
  unfold generateMaze, generateMazeFuel. cbv zeta.
  assert (Hroom11 : room (1, 1)).
  { unfold room, isOdd, interior. cbn [fst snd]. repeat split; try reflexivity; lia. }
  destruct (carve_spec (Datatypes.S (Z.to_nat (W * H))) 1 1
              (mkCarveState (initGrid W H) [] 0))
    as (st & Hst & ((S & Hinv) & _ & Hclosed) & Hstart).
  { split; [exact Hroom11|]. split; [intros []|]. left. split; reflexivity. }
  { cbn [cs_carved length]. unfold capacity. rewrite Z2Nat.inj_mul by lia. lia. }
  rewrite Hst. cbn [bind].
  assert (Hall : forall c, room c -> In c S).
  { intros c Hc. apply (ci_carved_open _ _ _ Hinv).
    apply closed_rooms_all; [exact Hstart| |exact Hc].
    intros a Ha. apply Hclosed; [exact Ha|intros []]. }
  assert (Hroomend : room (W - 2, H - 2)).
  { unfold room, isOdd, interior in *. cbn [fst snd].
    repeat split; try lia; Z.to_euclidean_division_equations; lia. }
  destruct (setCell_rect W H (cs_grid st) 1 1 START (ci_rect _ _ _ Hinv))
    as (g1 & Hg1 & Hrect1 & Hcell1); [lia|lia|].
  rewrite Hg1. cbn [bind].
  assert (Hopen1 : forall c, walkable g1 c <-> In c S).
  { intros c.
    rewrite (walkable_setCell W H (cs_grid st) g1 1 1 START c (ci_rect _ _ _ Hinv)
               Hrect1 H_pos) by (try lia; try discriminate; exact Hcell1).
    rewrite (ci_open _ _ _ Hinv c). split; [|auto].
    intros [->|Hc]; [|exact Hc]. apply Hall, Hroom11. }
  assert (Hend : walkable g1 (W - 2, H - 2)) by (apply Hopen1, Hall, Hroomend).
  apply (walkable_rect W H g1 _ Hrect1 H_pos) in Hend.
  cbn [fst snd] in Hend. destruct Hend as (Hex & Hez & Hnowall).
  assert (Hfind : findEnd (Datatypes.S (Z.to_nat (W * H))) g1 (W - 2) (H - 2)
                  = Returns (W - 2, H - 2)).
  { cbn [findEnd].
    destruct (rect_cellAt W H g1 (W - 2) (H - 2) Hrect1 Hex Hez) as [t Ht].
    rewrite Ht in Hnowall. unfold cellAt in Ht.
    destruct (index g1 (H - 2)) as [r|]; cbn [defined bind]; [|discriminate].
    rewrite Ht. destruct t; try reflexivity. congruence. }
  rewrite Hfind. cbn [bind fst snd].
  destruct (setCell_rect W H g1 (W - 2) (H - 2) END Hrect1 Hex Hez)
    as (g2 & Hg2 & Hrect2 & Hcell2).
  rewrite Hg2. cbn [bind].
  eexists. exists S. split; [reflexivity|]. cbn [mz_grid mz_start mz_end].
  split; [reflexivity|]. split; [reflexivity|]. split; [|split; [|split; [|split]]].
  - rewrite Hcell2, Hcell1.
    assert (Hne : (1 =? W - 2) = false) by (apply Z.eqb_neq; lia).
    rewrite Hne. reflexivity.
  - rewrite Hcell2, !Z.eqb_refl. reflexivity.
  - apply (ci_tree _ _ _ Hinv).
  - intros c.
    rewrite (walkable_setCell W H g1 g2 (W - 2) (H - 2) END c Hrect1 Hrect2 H_pos)
      by (try lia; try discriminate; exact Hcell2).
    rewrite (Hopen1 c). split; [|auto].
    intros [->|Hc]; [|exact Hc]. apply Hall, Hroomend.
  - exact Hall.
Qed.

End Carving.

(** A simple path through walkable cells of the grid. *)
Definition simplePath (grid : Grid) (a b : Cell) (p : list Cell) : Prop :=
  walk a b p /\ NoDup p /\ Forall (walkable grid) p.

Lemma simplePath_simpleIn grid S a b p :
  (forall c, walkable grid c <-> In c S) ->
  (simplePath grid a b p <-> simpleIn S a b p).
Proof.
  intros Hopen. unfold simplePath, simpleIn. rewrite Forall_forall. unfold incl.
  split; intros (Hw & Hnd & Hin); (split; [exact Hw|split; [exact Hnd|]]);
    intros x Hx; apply Hopen, Hin, Hx.
Qed.

Lemma odd_isOdd x : Z.odd x = true <-> isOdd x.
Proof.
  unfold isOdd. rewrite Zmod_odd. destruct (Z.odd x); split; congruence.
Qed.

(** C1. For odd [width, height >= 5] and whatever orders [shuffle]
    returns, [generateMaze] returns a grid with START at [(1, 1)] in which
    every non-WALL cell is joined to START by a path of non-WALL cells, and
    any two non-WALL cells are joined by exactly one simple path; the tree
    spans the rooms, the interior cells with odd coordinates, and END is the
    room [(width - 2, height - 2)]. *)
Theorem generateMaze_perfect
    (shuffle : nat -> list (Z * Z)) (width height : Z) :
  (forall k, Permutation (shuffle k) Maze.directions) ->
  5 <= width -> 5 <= height -> Z.odd width = true -> Z.odd height = true ->
  exists m,
    Maze.generateMaze shuffle width height = Returns m
    /\ Maze.mz_start m = (1, 1)
    /\ cellAt (Maze.mz_grid m) 1 1 = Some START
    /\ (forall c, walkable (Maze.mz_grid m) c ->
          exists p, simplePath (Maze.mz_grid m) (1, 1) c p)
    /\ (forall a b,
          walkable (Maze.mz_grid m) a -> walkable (Maze.mz_grid m) b ->
          exists p, simplePath (Maze.mz_grid m) a b p
                    /\ forall q, simplePath (Maze.mz_grid m) a b q -> q = p)
    /\ (forall x z, 0 < x < width - 1 -> 0 < z < height - 1 ->
          Z.odd x = true -> Z.odd z = true -> walkable (Maze.mz_grid m) (x, z))
    /\ Maze.mz_end m = (width - 2, height - 2)
    /\ cellAt (Maze.mz_grid m) (width - 2) (height - 2) = Some END.
Proof.
  intros Hperm HW HH HWodd HHodd.
  apply odd_isOdd in HWodd, HHodd.
  destruct (generateMaze_tree shuffle width height Hperm) as
    (m & S & Hret & Hstart & Hend & Hcs & Hce & Htree & Hopen & Hrooms);
    try assumption; try lia.
  exists m. split; [exact Hret|]. split; [exact Hstart|]. split; [exact Hcs|].
  assert (Hpaths : forall a b,
            walkable (Maze.mz_grid m) a -> walkable (Maze.mz_grid m) b ->
            exists p, simplePath (Maze.mz_grid m) a b p
                      /\ forall q, simplePath (Maze.mz_grid m) a b q -> q = p).
  { intros a b Ha Hb. apply Hopen in Ha, Hb.
    destruct (tree_unique_path S Htree a b Ha Hb) as (p & Hp & Huniq).
    exists p. split; [apply (simplePath_simpleIn _ S a b p Hopen), Hp|].
    intros q Hq. apply Huniq, (simplePath_simpleIn _ S a b q Hopen), Hq. }
  assert (Hspan : forall x z, 0 < x < width - 1 -> 0 < z < height - 1 ->
            Z.odd x = true -> Z.odd z = true -> walkable (Maze.mz_grid m) (x, z)).
  { intros x z Hx Hz Hox Hoz. apply Hopen, Hrooms.
    split; [apply odd_isOdd, Hox|]. split; [apply odd_isOdd, Hoz|].
    split; assumption. }
  split; [|split; [exact Hpaths|split; [exact Hspan|split; assumption]]].
  intros c Hc.
  destruct (Hpaths (1, 1) c) as (p & Hp & _); [|exact Hc|exists p; exact Hp].
  apply Hspan; try reflexivity; lia.
Qed.

(** With the directions always tried in the order North, East, South, West
    the 5 x 5 maze is [maze5]. *)
Example maze5_generated :
  Maze.generateMaze (fun _ => Maze.directions) 5 5 =
  Returns (Maze.mkMazeResult maze5 (1, 1) (3, 3)).
Proof. vm_compute. reflexivity. Qed.

Lemma generateMaze_perfect_witness :
  exists m,
    Maze.generateMaze (fun _ => Maze.directions) 5 5 = Returns m
    /\ forall a b,
         walkable (Maze.mz_grid m) a -> walkable (Maze.mz_grid m) b ->
         exists p, simplePath (Maze.mz_grid m) a b p
                   /\ forall q, simplePath (Maze.mz_grid m) a b q -> q = p.
Proof.
  destruct (generateMaze_perfect (fun _ => Maze.directions) 5 5)
    as (m & Hret & _ & _ & _ & Hpaths & _).
  - intros k. apply Permutation_refl.
  - lia.
  - lia.
  - reflexivity.
  - reflexivity.
  - exists m. split; [exact Hret|exact Hpaths].
Defined.

(** * Further properties *)

(** ** Player movement never ends inside a wall *)

(** The footprint at [p] overlaps no wall. *)
Definition clear (grid : Grid) (p : Position) : Prop :=
  App.checkWallCollision (pos_x p) (pos_z p) grid = false.

(** The position after a sequence of ticks with the given displacements. *)
Definition strides (grid : Grid) (moves : list (Q * Q)) (start : Position) : Position :=
  fold_left (fun p d => App.movePlayer grid (fst d) (snd d) p) moves start.

Lemma movePlayer_clear grid dx dz prev :
  clear grid prev -> clear grid (App.movePlayer grid dx dz prev).
Proof.
  unfold clear, App.movePlayer. cbn [pos_x pos_z]. intros Hprev.
  destruct (App.checkWallCollision (pos_x prev + dx) (pos_z prev) grid) eqn:Ex;
    cbn [negb].
  - destruct (App.checkWallCollision (pos_x prev) (pos_z prev + dz) grid) eqn:Ez;
      cbn [negb]; assumption.
  - destruct (App.checkWallCollision (pos_x prev + dx) (pos_z prev + dz) grid) eqn:Ez;
      cbn [negb]; assumption.
Qed.

(** X1. A player whose footprint is clear of walls stays clear whatever
    displacements the ticks ask for: [movePlayer] commits an axis only to a
    position it has tested. *)
Theorem strides_stay_clear (grid : Grid) (moves : list (Q * Q)) (start : Position) :
  clear grid start -> clear grid (strides grid moves start).
Proof.
  unfold strides. revert start.
  induction moves as [|d moves IH]; intros start Hstart; [exact Hstart|].
  cbn [fold_left]. apply IH, movePlayer_clear, Hstart.
Qed.

Lemma strides_stay_clear_witness :
  clear corridor
    (strides corridor [(3 # 10, 3 # 10); (-5, 1 # 2); (0, 40)]%Q (mkPosition 1 1)).
Proof.
  apply (strides_stay_clear corridor _ (mkPosition 1 1)). reflexivity.
Defined.

(** ** The generated grid, cell by cell *)

Lemma setCell_cellAt g x z v g' :
  Maze.setCell g x z v = Returns g' ->
  forall x' z', cellAt g' x' z' =
    if (x' =? x) && (z' =? z) then Some v else cellAt g x' z'.
Proof.
  unfold Maze.setCell. destruct (index g z) as [r|] eqn:Hr; [|discriminate].
  destruct ((0 <=? x) && (x <? len r)) eqn:Hguard; [|discriminate].
  intros Heq. injection Heq as <-.
  apply andb_true_iff in Hguard. destruct Hguard as [Hx0 Hx1].
  apply Z.leb_le in Hx0. apply Z.ltb_lt in Hx1.
  pose proof (index_range g z r Hr) as Hz.
  intros x' z'. unfold cellAt. rewrite (index_setNth g z z' _ Hz).
  destruct (z' =? z) eqn:Ez.
  - apply Z.eqb_eq in Ez. subst z'. rewrite Hr.
    rewrite index_setNth by lia. rewrite andb_true_r. reflexivity.
  - rewrite andb_false_r. reflexivity.
Qed.

(** No START and no END in the grid: what holds while [carve] runs. *)
Definition unmarked (g : Grid) : Prop :=
  forall x z, cellAt g x z <> Some START /\ cellAt g x z <> Some END.

Lemma unmarked_setCell g x z g' :
  unmarked g -> Maze.setCell g x z PATH = Returns g' -> unmarked g'.
Proof.
  intros Hg Hset x' z'. rewrite (setCell_cellAt g x z PATH g' Hset).
  destruct ((x' =? x) && (z' =? z)); [split; discriminate|apply Hg].
Qed.

Section Anatomy.

Import Maze.

Variable shuffle : nat -> list (Z * Z).
Variables W H : Z.

Hypothesis shuffle_perm : forall k, Permutation (shuffle k) directions.
Hypothesis W_min : 3 <= W.
Hypothesis H_min : 3 <= H.

Lemma carveEach_unmarked rec x z :
  (forall x' z' st st', rec x' z' st = Returns st' ->
     unmarked (cs_grid st) -> unmarked (cs_grid st')) ->
  forall dirs st st',
    carveEach W H rec x z dirs st = Returns st' ->
    unmarked (cs_grid st) -> unmarked (cs_grid st').
Proof.
  intros Hrec. induction dirs as [|d rest IH]; intros st st' Hret Hst.
  - cbn in Hret. injection Hret as <-. exact Hst.
  - cbn [carveEach] in Hret. cbv zeta in Hret. fold (carveEach W H rec x z) in Hret.
    destruct (isInBounds W H (x + fst d) (z + snd d)
              && negb (has (cs_carved st) (x + fst d, z + snd d))).
    + destruct (setCell (cs_grid st) (x + fst d / 2) (z + snd d / 2) PATH)
        as [g2| |] eqn:Hg2; cbn [bind] in Hret; try discriminate.
      destruct (rec (x + fst d) (z + snd d)
                  (mkCarveState g2 (cs_carved st) (cs_calls st)))
        as [st1| |] eqn:Hst1; cbn [bind] in Hret; try discriminate.
      apply (IH st1 st' Hret).
      apply (Hrec _ _ _ _ Hst1). cbn [cs_grid].
      apply (unmarked_setCell _ _ _ _ Hst Hg2).
    + apply (IH st st' Hret Hst).
Qed.

Lemma carve_unmarked fuel : forall x z st st',
  carve shuffle W H fuel x z st = Returns st' ->
  unmarked (cs_grid st) -> unmarked (cs_grid st').
Proof.
  induction fuel as [|fuel IH]; intros x z st st' Hret Hst; [discriminate|].
  rewrite carve_unfold in Hret.
  destruct (setCell (cs_grid st) x z PATH) as [g1| |] eqn:Hg1; cbn [bind] in Hret;
    try discriminate.
  apply (carveEach_unmarked _ x z IH _ _ _ Hret). cbn [cs_grid].
  apply (unmarked_setCell _ _ _ _ Hst Hg1).
Qed.

Lemma initGrid_unmarked : unmarked (initGrid W H).
Proof.
  intros x z. unfold cellAt, initGrid, index.
  destruct (z <? 0); [split; discriminate|].
  destruct (nth_error (repeat (repeat WALL (Z.to_nat W)) (Z.to_nat H)) (Z.to_nat z))
    as [r|] eqn:Hr; [|split; discriminate].
  apply nth_error_In, repeat_spec in Hr. subst r.
  destruct (x <? 0); [split; discriminate|].
  destruct (nth_error (repeat WALL (Z.to_nat W)) (Z.to_nat x)) as [t|] eqn:Ht;
    [|split; discriminate].
  apply nth_error_In, repeat_spec in Ht. subst t. split; discriminate.
Qed.

(** The [while] loop stops at the latest on [(1, 1)], which is not WALL. *)
Lemma findEnd_finds g :
  rect W H g -> cellAt g 1 1 <> Some WALL ->
  forall fuel ex ey,
    1 <= ex < W -> 1 <= ey < H ->
    (Z.to_nat (ex - 1) + Z.to_nat (ey - 1) < fuel)%nat ->
    exists e, findEnd fuel g ex ey = Returns e
      /\ cellAt g (fst e) (snd e) <> Some WALL
      /\ 1 <= fst e <= ex /\ 1 <= snd e <= ey.
Proof.
  intros Hrect Hstart. induction fuel as [|fuel IH]; intros ex ey Hx Hy Hfuel; [lia|].
  cbn [findEnd].
  destruct (rect_cellAt W H g ex ey Hrect) as [t Ht]; [lia|lia|].
  pose proof Ht as Ht'. unfold cellAt in Ht'.
  destruct (index g ey) as [r|]; cbn [defined bind]; [|discriminate].
  rewrite Ht'.
  assert (Hhere : t <> WALL ->
            exists e, Returns (ex, ey) = Returns e
              /\ cellAt g (fst e) (snd e) <> Some WALL
              /\ 1 <= fst e <= ex /\ 1 <= snd e <= ey).
  { intros Hne. exists (ex, ey). cbn [fst snd]. split; [reflexivity|].
    split; [rewrite Ht; congruence|lia]. }
  destruct t; try (apply Hhere; discriminate).
  destruct (1 <? ex) eqn:Ex; [|destruct (1 <? ey) eqn:Ey].
  - apply Z.ltb_lt in Ex.
    destruct (IH (ex - 1) ey) as (e & He & Hopen & Hex & Hey); try lia.
    exists e. split; [exact He|]. split; [exact Hopen|lia].
  - apply Z.ltb_ge in Ex. apply Z.ltb_lt in Ey.
    destruct (IH ex (ey - 1)) as (e & He & Hopen & Hex & Hey); try lia.
    exists e. split; [exact He|]. split; [exact Hopen|lia].
  - apply Z.ltb_ge in Ex, Ey.
    assert (ex = 1) by lia. assert (ey = 1) by lia. subst. congruence.
Qed.

(** Every open cell lies strictly inside the border. *)
Lemma open_interior g C S c :
  carveInv W H g C S -> In c S -> interior W H c.
Proof.
  intros Hinv Hc.
  assert (Hroom : forall r, isOdd (fst r) -> isOdd (snd r) -> adjacent c r ->
            interior W H r).
  { intros r Hx Hz Hadj.
    apply (ci_rooms _ _ _ _ _ Hinv r).
    apply (ci_ends _ _ _ _ _ Hinv c r); assumption. }
  destruct c as [x z].
  assert (Hpx : x mod 2 = 0 \/ x mod 2 = 1) by (Z.to_euclidean_division_equations; lia).
  assert (Hpz : z mod 2 = 0 \/ z mod 2 = 1) by (Z.to_euclidean_division_equations; lia).
  destruct (ci_parity _ _ _ _ _ Hinv _ Hc) as [Hx|Hz]; cbn [fst snd] in *.
  - destruct Hpz as [Hz|Hz].
    + pose proof (Hroom (x, z - 1)) as H1. pose proof (Hroom (x, z + 1)) as H2.
      unfold interior, isOdd, adjacent in *. cbn [fst snd] in *.
      assert (Ha : (z - 1) mod 2 = 1) by (Z.to_euclidean_division_equations; lia).
      assert (Hb : (z + 1) mod 2 = 1) by (Z.to_euclidean_division_equations; lia).
      specialize (H1 Hx Ha). specialize (H2 Hx Hb).
      assert (0 < x < W - 1 /\ 0 < z - 1 < H - 1) by (apply H1; lia).
      assert (0 < x < W - 1 /\ 0 < z + 1 < H - 1) by (apply H2; lia).
      lia.
    + destruct (ci_rooms _ _ _ _ _ Hinv (x, z)) as (_ & _ & Hint); [|exact Hint].
      apply (ci_open_rooms _ _ _ _ _ Hinv); assumption.
  - destruct Hpx as [Hx|Hx].
    + pose proof (Hroom (x - 1, z)) as H1. pose proof (Hroom (x + 1, z)) as H2.
      unfold interior, isOdd, adjacent in *. cbn [fst snd] in *.
      assert (Ha : (x - 1) mod 2 = 1) by (Z.to_euclidean_division_equations; lia).
      assert (Hb : (x + 1) mod 2 = 1) by (Z.to_euclidean_division_equations; lia).
      specialize (H1 Ha Hz). specialize (H2 Hb Hz).
      assert (0 < x - 1 < W - 1 /\ 0 < z < H - 1) by (apply H1; lia).
      assert (0 < x + 1 < W - 1 /\ 0 < z < H - 1) by (apply H2; lia).
      lia.
    + destruct (ci_rooms _ _ _ _ _ Hinv (x, z)) as (_ & _ & Hint); [|exact Hint].
      apply (ci_open_rooms _ _ _ _ _ Hinv); assumption.
Qed.

(** [generateMaze] step by step: the state [carve] leaves, the END cell
    the loop finds, and the two cells written afterwards. *)
Lemma generateMaze_anatomy :
  exists st S e g,
    carveInv W H (cs_grid st) (cs_carved st) S
    /\ unmarked (cs_grid st)
    /\ (forall c, room W H c -> In c S)
    /\ In (1, 1) S /\ In e S
    /\ 1 <= fst e <= W - 2 /\ 1 <= snd e <= H - 2
    /\ generateMaze shuffle W H = Returns (mkMazeResult g (1, 1) e)
    /\ rect W H g
    /\ (forall x z, cellAt g x z =
          if (x =? fst e) && (z =? snd e) then Some END
          else if (x =? 1) && (z =? 1) then Some START
          else cellAt (cs_grid st) x z).
Proof.
  assert (W_pos : 0 < W) by lia. assert (H_pos : 0 < H) by lia.
  unfold generateMaze, generateMazeFuel. cbv zeta.
  assert (Hroom11 : room W H (1, 1)).
  { unfold room, isOdd, interior. cbn [fst snd]. repeat split; try reflexivity; lia. }
  destruct (carve_spec shuffle W H shuffle_perm W_pos H_pos
              (Datatypes.S (Z.to_nat (W * H))) 1 1
              (mkCarveState (initGrid W H) [] 0))
    as (st & Hst & ((S & Hinv) & _ & Hclosed) & Hstart).
  { split; [exact Hroom11|]. split; [intros []|]. left. split; reflexivity. }
  { cbn [cs_carved length]. unfold capacity. rewrite Z2Nat.inj_mul by lia. lia. }
  rewrite Hst. cbn [bind].
  assert (Hplain : unmarked (cs_grid st)).
  { apply (carve_unmarked _ _ _ _ _ Hst). cbn [cs_grid]. apply initGrid_unmarked. }
  assert (Hall : forall c, room W H c -> In c S).
  { intros c Hc. apply (ci_carved_open _ _ _ _ _ Hinv).
    apply (closed_rooms_all W H); [exact Hstart| |exact Hc].
    intros a Ha. apply Hclosed; [exact Ha|intros []]. }
  destruct (setCell_rect W H (cs_grid st) 1 1 START (ci_rect _ _ _ _ _ Hinv))
    as (g1 & Hg1 & Hrect1 & Hcell1); [lia|lia|].
  rewrite Hg1. cbn [bind].
  assert (Hopen1 : forall c, walkable g1 c <-> In c S).
  { intros c.
    rewrite (walkable_setCell W H (cs_grid st) g1 1 1 START c (ci_rect _ _ _ _ _ Hinv)
               Hrect1 H_pos) by (try lia; try discriminate; exact Hcell1).
    rewrite (ci_open _ _ _ _ _ Hinv c). split; [|auto].
    intros [->|Hc]; [|exact Hc]. apply Hall, Hroom11. }
  destruct (findEnd_finds g1 Hrect1) with
    (fuel := Datatypes.S (Z.to_nat (W * H))) (ex := W - 2) (ey := H - 2)
    as (e & Hfind & Hopen & Hex & Hey); try lia.
  { rewrite Hcell1. cbn. discriminate. }
  { assert (W + H <= W * H) by nia.
    rewrite <- !Z2Nat.inj_add by lia. apply Nat.lt_succ_r.
    apply Z2Nat.inj_le; lia. }
  rewrite Hfind. cbn [bind].
  destruct (setCell_rect W H g1 (fst e) (snd e) END Hrect1)
    as (g2 & Hg2 & Hrect2 & Hcell2); [lia|lia|].
  rewrite Hg2. cbn [bind].
  exists st, S, e, g2.
  split; [exact Hinv|]. split; [exact Hplain|]. split; [exact Hall|].
  split; [apply Hall, Hroom11|]. split.
  { apply Hopen1. apply (walkable_rect W H g1 e Hrect1 H_pos).
    split; [lia|]. split; [lia|exact Hopen]. }
  split; [exact Hex|]. split; [exact Hey|]. split; [reflexivity|].
  split; [exact Hrect2|].
  intros x z. rewrite Hcell2, Hcell1. reflexivity.
Qed.

End Anatomy.

(** The result of [generateMaze] for any sizes of 3 or more: the open cells
    are a tree [S] inside the border that holds the rooms, START's cell and
    END's cell. *)
Lemma generateMaze_layout (shuffle : nat -> list (Z * Z)) (W H : Z) :
  (forall k, Permutation (shuffle k) Maze.directions) -> 3 <= W -> 3 <= H ->
  exists m S,
    Maze.generateMaze shuffle W H = Returns m
    /\ Maze.mz_start m = (1, 1)
    /\ rect W H (Maze.mz_grid m)
    /\ tree S
    /\ (forall c, walkable (Maze.mz_grid m) c <-> In c S)
    /\ (forall c, room W H c -> In c S)
    /\ In (1, 1) S /\ In (Maze.mz_end m) S
    /\ (forall c, In c S -> interior W H c /\ (isOdd (fst c) \/ isOdd (snd c)))
    /\ (forall x z, cellAt (Maze.mz_grid m) x z = Some END <-> (x, z) = Maze.mz_end m)
    /\ (forall x z, cellAt (Maze.mz_grid m) x z = Some START <->
                    (x, z) = (1, 1) /\ Maze.mz_end m <> (1, 1)).
Proof.
  intros Hperm HW HH.
  destruct (generateMaze_anatomy shuffle W H Hperm HW HH)
    as (st & S & e & g & Hinv & Hplain & Hall & H11 & He & Hex & Hey & Hret & Hrect & Hcell).
  assert (H_pos : 0 < H) by lia.
  exists (Maze.mkMazeResult g (1, 1) e), S. cbn [Maze.mz_grid Maze.mz_start Maze.mz_end].
  split; [exact Hret|]. split; [reflexivity|]. split; [exact Hrect|].
  split; [apply (ci_tree _ _ _ _ _ Hinv)|].
  assert (Hint : forall c, In c S -> interior W H c)
    by (intros c Hc; apply (open_interior W H _ _ _ c Hinv Hc)).
  split; [|split; [exact Hall|split; [exact H11|split; [exact He|split; [|split]]]]].
  - intros [x z].
    rewrite (walkable_rect W H g _ Hrect H_pos). cbn [fst snd]. rewrite Hcell.
    destruct ((x =? fst e) && (z =? snd e)) eqn:E1.
    { apply andb_true_iff in E1. destruct E1 as [E1 E2].
      apply Z.eqb_eq in E1, E2. subst. rewrite <- surjective_pairing.
      split; [intros _; exact He|]. intros _.
      split; [lia|]. split; [lia|discriminate]. }
    destruct ((x =? 1) && (z =? 1)) eqn:E2.
    { apply andb_true_iff in E2. destruct E2 as [E2 E3].
      apply Z.eqb_eq in E2, E3. subst.
      split; [intros _; exact H11|]. intros _.
      split; [lia|]. split; [lia|discriminate]. }
    rewrite <- (ci_open _ _ _ _ _ Hinv (x, z)).
    rewrite (walkable_rect W H _ (x, z) (ci_rect _ _ _ _ _ Hinv) H_pos).
    cbn [fst snd]. reflexivity.
  - intros c Hc. split; [apply Hint, Hc|apply (ci_parity _ _ _ _ _ Hinv), Hc].
  - intros x z. rewrite Hcell.
    destruct ((x =? fst e) && (z =? snd e)) eqn:E1.
    { apply andb_true_iff in E1. destruct E1 as [E1 E2].
      apply Z.eqb_eq in E1, E2. subst. rewrite <- surjective_pairing. tauto. }
    assert (Hne : (x, z) <> e).
    { intros <-. cbn [fst snd] in E1. rewrite !Z.eqb_refl in E1. discriminate. }
    destruct ((x =? 1) && (z =? 1)).
    + split; [discriminate|contradiction].
    + split; [intros Hc; exfalso; destruct (Hplain x z); congruence|contradiction].
  - intros x z. rewrite Hcell.
    destruct ((x =? fst e) && (z =? snd e)) eqn:E1.
    { apply andb_true_iff in E1. destruct E1 as [E1 E2].
      apply Z.eqb_eq in E1, E2. subst. rewrite <- surjective_pairing.
      split; [discriminate|]. intros [H1 H2]. contradiction. }
    assert (Hne : (x, z) <> e).
    { intros <-. cbn [fst snd] in E1. rewrite !Z.eqb_refl in E1. discriminate. }
    destruct ((x =? 1) && (z =? 1)) eqn:E2.
    + apply andb_true_iff in E2. destruct E2 as [E2 E3].
      apply Z.eqb_eq in E2, E3. subst. split; [|reflexivity].
      intros _. split; [reflexivity|]. intros Heq. apply Hne. symmetry. exact Heq.
    + split; [intros Hc; exfalso; destruct (Hplain x z); congruence|].
      intros [Heq _]. inversion Heq; subst. rewrite !Z.eqb_refl in E2. discriminate.
Qed.

(** X2. [generateMaze] needs neither odd sizes nor sizes of 5 or more to
    return a perfect maze: for all [width, height >= 3] it returns, any two
    non-WALL cells are joined by exactly one simple path, every interior
    cell with odd coordinates is open, and END is a non-WALL cell that the
    walk from [(width - 2, height - 2)] towards [(1, 1)] reaches. *)
Theorem generateMaze_any_size
    (shuffle : nat -> list (Z * Z)) (width height : Z) :
  (forall k, Permutation (shuffle k) Maze.directions) ->
  3 <= width -> 3 <= height ->
  exists m,
    Maze.generateMaze shuffle width height = Returns m
    /\ Maze.mz_start m = (1, 1)
    /\ walkable (Maze.mz_grid m) (1, 1)
    /\ walkable (Maze.mz_grid m) (Maze.mz_end m)
    /\ cellAt (Maze.mz_grid m) (fst (Maze.mz_end m)) (snd (Maze.mz_end m)) = Some END
    /\ 1 <= fst (Maze.mz_end m) <= width - 2
    /\ 1 <= snd (Maze.mz_end m) <= height - 2
    /\ (forall a b,
          walkable (Maze.mz_grid m) a -> walkable (Maze.mz_grid m) b ->
          exists p, simplePath (Maze.mz_grid m) a b p
                    /\ forall q, simplePath (Maze.mz_grid m) a b q -> q = p)
    /\ (forall x z, 0 < x < width - 1 -> 0 < z < height - 1 ->
          Z.odd x = true -> Z.odd z = true -> walkable (Maze.mz_grid m) (x, z)).
Proof.
  intros Hperm HW HH.
  destruct (generateMaze_layout shuffle width height Hperm HW HH)
    as (m & S & Hret & Hstart & Hrect & Htree & Hopen & Hrooms & H11 & He & Hint
        & Hend & _).
  exists m. split; [exact Hret|]. split; [exact Hstart|].
  split; [apply Hopen, H11|]. split; [apply Hopen, He|].
  split; [apply Hend; symmetry; apply surjective_pairing|].
  destruct (Hint _ He) as [[Hx Hz] _].
  split; [lia|]. split; [lia|]. split.
  - intros a b Ha Hb. apply Hopen in Ha, Hb.
    destruct (tree_unique_path S Htree a b Ha Hb) as (p & Hp & Huniq).
    exists p. split; [apply (simplePath_simpleIn _ S a b p Hopen), Hp|].
    intros q Hq. apply Huniq, (simplePath_simpleIn _ S a b q Hopen), Hq.
  - intros x z Hx' Hz' Hox Hoz. apply Hopen, Hrooms.
    split; [apply odd_isOdd, Hox|]. split; [apply odd_isOdd, Hoz|].
    split; assumption.
Qed.

Lemma generateMaze_any_size_witness :
  exists m,
    Maze.generateMaze (fun _ => Maze.directions) 6 4 = Returns m
    /\ walkable (Maze.mz_grid m) (Maze.mz_end m).
Proof.
  destruct (generateMaze_any_size (fun _ => Maze.directions) 6 4)
    as (m & Hret & _ & _ & Hend & _).
  - intros k. apply Permutation_refl.
  - lia.
  - lia.
  - exists m. split; [exact Hret|exact Hend].
Defined.

(** X3. The grid [generateMaze] returns has [height] rows of [width]
    cells; its border cells and its cells with two even coordinates are
    WALL; END is written on exactly one cell, the one returned as [end];
    START is on [(1, 1)] and nowhere else, unless END took that cell. *)
Theorem generateMaze_cells
    (shuffle : nat -> list (Z * Z)) (width height : Z) :
  (forall k, Permutation (shuffle k) Maze.directions) ->
  3 <= width -> 3 <= height ->
  exists m,
    Maze.generateMaze shuffle width height = Returns m
    /\ len (Maze.mz_grid m) = height
    /\ Forall (fun r => len r = width) (Maze.mz_grid m)
    /\ (forall x z, 0 <= x < width -> 0 <= z < height ->
          x = 0 \/ x = width - 1 \/ z = 0 \/ z = height - 1
          \/ (Z.even x = true /\ Z.even z = true) ->
          cellAt (Maze.mz_grid m) x z = Some WALL)
    /\ (forall x z, cellAt (Maze.mz_grid m) x z = Some END <-> (x, z) = Maze.mz_end m)
    /\ (forall x z, cellAt (Maze.mz_grid m) x z = Some START <->
                    (x, z) = (1, 1) /\ Maze.mz_end m <> (1, 1)).
Proof.
  intros Hperm HW HH.
  destruct (generateMaze_layout shuffle width height Hperm HW HH)
    as (m & S & Hret & _ & Hrect & _ & Hopen & _ & _ & _ & Hint & Hend & Hstart).
  exists m. split; [exact Hret|]. split; [apply Hrect|]. split; [apply Hrect|].
  split; [|split; assumption].
  intros x z Hx Hz Hside.
  destruct (rect_cellAt width height _ x z Hrect Hx Hz) as [t Ht].
  destruct t; try exact Ht; exfalso;
    (assert (Hw : walkable (Maze.mz_grid m) (x, z))
       by (apply (walkable_rect width height _ (x, z) Hrect); [lia|];
           cbn [fst snd]; split; [lia|]; split; [lia|]; rewrite Ht; discriminate));
    apply Hopen in Hw; destruct (Hint _ Hw) as [[Hix Hiz] Hpar];
    cbn [fst snd] in *;
    destruct Hside as [Hs|[Hs|[Hs|[Hs|[Hs1 Hs2]]]]]; try lia;
    rewrite Z.even_spec in Hs1, Hs2; destruct Hs1 as [k1 ->], Hs2 as [k2 ->];
    unfold isOdd in Hpar; Z.to_euclidean_division_equations; lia.
Qed.

Lemma generateMaze_cells_witness :
  exists m,
    Maze.generateMaze (fun _ => Maze.directions) 7 7 = Returns m
    /\ cellAt (Maze.mz_grid m) 2 4 = Some WALL
    /\ cellAt (Maze.mz_grid m) 6 3 = Some WALL.
Proof.
  destruct (generateMaze_cells (fun _ => Maze.directions) 7 7)
    as (m & Hret & _ & _ & Hwall & _).
  - intros k. apply Permutation_refl.
  - lia.
  - lia.
  - exists m. split; [exact Hret|].
    split.
    + apply Hwall; [lia|lia|].
      right. right. right. right. split; reflexivity.
    + apply Hwall; [lia|lia|]. right. left. reflexivity.
Defined.

(** ** A size of 2: the END search never ends *)

Lemma initGrid_cellAt w h x z :
  0 <= x < w -> 0 <= z < h -> cellAt (Maze.initGrid w h) x z = Some WALL.
Proof.
  intros Hx Hz. unfold cellAt, Maze.initGrid, index.
  assert (Hzn : (z <? 0) = false) by (apply Z.ltb_ge; lia).
  assert (Hxn : (x <? 0) = false) by (apply Z.ltb_ge; lia).
  rewrite Hzn. rewrite nth_error_repeat by lia. rewrite Hxn.
  rewrite nth_error_repeat by lia. reflexivity.
Qed.

Lemma carveEach_skip W H rec x z dirs st :
  (forall x' z', Maze.isInBounds W H x' z' = false) ->
  carveEach W H rec x z dirs st = Returns st.
Proof.
  intros Hout. induction dirs as [|d rest IH]; [reflexivity|].
  cbn [carveEach]. cbv zeta. rewrite Hout. cbn [andb]. exact IH.
Qed.

Lemma findEnd_stuck W H g :
  rect W H g ->
  (forall x z, 0 <= x < W -> 0 <= z < H -> x = 0 \/ z = 0 ->
     cellAt g x z = Some WALL) ->
  forall fuel ex ey,
    0 <= ex < W -> 0 <= ey < H -> ex = 0 \/ ey = 0 ->
    Maze.findEnd fuel g ex ey = OutOfFuel.
Proof.
  intros Hrect Hwall. induction fuel as [|fuel IH]; intros ex ey Hx Hy Hedge;
    [reflexivity|].
  cbn [Maze.findEnd]. pose proof (Hwall ex ey Hx Hy Hedge) as Hc.
  unfold cellAt in Hc.
  destruct (index g ey) as [r|]; [|discriminate]. cbn [defined bind]. rewrite Hc.
  destruct (1 <? ex) eqn:Ex; [|destruct (1 <? ey) eqn:Ey].
  - apply Z.ltb_lt in Ex. apply IH; lia.
  - apply Z.ltb_ge in Ex. apply Z.ltb_lt in Ey. apply IH; lia.
  - apply IH; assumption.
Qed.

(** X4. When a size is 2 (and neither is smaller) [generateMaze] never
    returns: nothing but [(1, 1)] is carved, the END candidate starts in
    row 0 or column 0, which stay WALL, and the [while] loop cannot move it
    onto an open cell, whatever the fuel. *)
Theorem generateMaze_size_two_diverges
    (shuffle : nat -> list (Z * Z)) (width height : Z) (fuel : nat) :
  2 <= width -> 2 <= height -> width = 2 \/ height = 2 ->
  Maze.generateMazeFuel shuffle width height fuel = OutOfFuel.
Proof.
  intros HW HH Htwo. unfold Maze.generateMazeFuel. cbv zeta.
  destruct fuel as [|fuel]; [reflexivity|].
  rewrite carve_unfold. cbn [Maze.cs_grid Maze.cs_carved Maze.cs_calls].
  pose proof (initGrid_rect width height) as Hrect0.
  destruct (setCell_rect width height (Maze.initGrid width height) 1 1 PATH)
    as (g1 & Hg1 & Hrect1 & Hcell1); [apply Hrect0; lia|lia|lia|].
  rewrite Hg1. cbn [bind].
  rewrite carveEach_skip.
  2:{ intros x' z'. unfold Maze.isInBounds.
      destruct Htwo as [-> | ->].
      - destruct (0 <? x') eqn:E1; [|reflexivity].
        destruct (x' <? 2 - 1) eqn:E2; [|reflexivity].
        apply Z.ltb_lt in E1, E2. lia.
      - destruct ((0 <? x') && (x' <? width - 1)); [|reflexivity].
        destruct (0 <? z') eqn:E1; [|reflexivity].
        destruct (z' <? 2 - 1) eqn:E2; [|reflexivity].
        apply Z.ltb_lt in E1, E2. lia. }
  cbn [bind Maze.cs_grid].
  destruct (setCell_rect width height g1 1 1 START Hrect1)
    as (g2 & Hg2 & Hrect2 & Hcell2); [lia|lia|].
  rewrite Hg2. cbn [bind].
  rewrite (findEnd_stuck width height g2 Hrect2); [reflexivity| |lia|lia|lia].
  intros x z Hx Hz Hedge. rewrite Hcell2, Hcell1.
  assert (Hne : (x =? 1) && (z =? 1) = false).
  { apply andb_false_iff. destruct Hedge; [left|right]; apply Z.eqb_neq; lia. }
  rewrite Hne. apply initGrid_cellAt; assumption.
Qed.

Lemma generateMaze_size_two_diverges_witness :
  Maze.generateMazeFuel (fun _ => Maze.directions) 4 2 500 = OutOfFuel.
Proof.
  apply (generateMaze_size_two_diverges (fun _ => Maze.directions) 4 2 500); lia.
Defined.

(** ** Shortest routes visit no cell twice *)

Lemma repeated_cell (p : list Cell) :
  NoDup p \/ exists c l1 l2 l3, p = l1 ++ c :: l2 ++ c :: l3.
Proof.
  induction p as [|a p IH]; [left; constructor|].
  destruct (in_dec cell_eq_dec a p) as [Hin|Hnot].
  - right. apply in_split in Hin. destruct Hin as (l2 & l3 & ->).
    exists a, [], l2, l3. reflexivity.
  - destruct IH as [Hnd|(c & l1 & l2 & l3 & ->)].
    + left. constructor; assumption.
    + right. exists c, (a :: l1), l2, l3. reflexivity.
Qed.

Lemma linked_app_r (l l' : list Cell) : linked (l ++ l') -> linked l'.
Proof.
  induction l as [|a l IH]; intros H; [exact H|].
  apply IH. destruct l as [|b l].
  - cbn [app] in *. destruct l'; [exact I|]. cbn in H. tauto.
  - cbn [app linked] in H. cbn [app]. tauto.
Qed.

Lemma linked_cut l1 c l2 l3 :
  linked (l1 ++ c :: l2 ++ c :: l3) -> linked (l1 ++ c :: l3).
Proof.
  induction l1 as [|a l1 IH]; intros H.
  - cbn [app] in *. change (c :: l2 ++ c :: l3) with ((c :: l2) ++ c :: l3) in H.
    apply (linked_app_r _ _ H).
  - destruct l1 as [|b l1].
    + cbn [app linked] in *. destruct H as [Hac H]. split; [exact Hac|].
      apply (IH H).
    + cbn [app linked] in *. destruct H as [Hab H]. split; [exact Hab|].
      apply (IH H).
Qed.

Lemma last_app_cons (l l' : list Cell) (a d : Cell) :
  last (l ++ a :: l') d = last (a :: l') d.
Proof.
  induction l as [|b l IH]; [reflexivity|].
  rewrite <- IH. cbn [app].
  destruct (l ++ a :: l') eqn:E; [destruct l; discriminate|reflexivity].
Qed.

(** Cutting the loop between two visits of [c] leaves a shorter route. *)
Lemma isRoute_cut grid s e l1 c l2 l3 :
  isRoute grid s e (l1 ++ c :: l2 ++ c :: l3) -> isRoute grid s e (l1 ++ c :: l3).
Proof.
  intros (Hhd & Hlast & Hlink & Hw). split; [|split; [|split]].
  - destruct l1; exact Hhd.
  - rewrite last_app_cons in *.
    change (c :: l2 ++ c :: l3) with ((c :: l2) ++ c :: l3) in Hlast.
    rewrite last_app_cons in Hlast. exact Hlast.
  - apply (linked_cut _ _ _ _ Hlink).
  - rewrite Forall_forall in *. intros x Hx. apply Hw.
    destruct l1 as [|a l1]; cbn [app tl] in *.
    + apply in_or_app. right. right. exact Hx.
    + apply in_app_or in Hx. apply in_or_app. destruct Hx as [Hx|[Hx|Hx]].
      * left. exact Hx.
      * right. left. exact Hx.
      * right. right. apply in_or_app. right. right. exact Hx.
Qed.

Lemma shortest_route_NoDup grid s e p :
  isRoute grid s e p ->
  (forall q, isRoute grid s e q -> (length p <= length q)%nat) ->
  NoDup p.
Proof.
  intros Hp Hbest. destruct (repeated_cell p) as [Hnd|(c & l1 & l2 & l3 & ->)];
    [exact Hnd|].
  exfalso. pose proof (Hbest _ (isRoute_cut _ _ _ _ _ _ _ Hp)) as Hlen.
  rewrite !length_app in Hlen. cbn [length] in Hlen.
  rewrite length_app in Hlen. cbn [length] in Hlen. lia.
Qed.

(** X5. Whatever the grid and the two positions, the sequence
    [findShortestPath] returns holds no cell twice. *)
Theorem findShortestPath_no_repeat
    (grid : Grid) (start end_ : Position) (path : list Cell) :
  Maze.findShortestPath grid start end_ = Returns path -> NoDup path.
Proof.
  intros Hret.
  destruct (findShortestPath_answer grid start end_) as (path' & Hret' & Hans).
  assert (path' = path) by congruence. subst path'.
  destruct Hans as [[-> _]|[Hr Hbest]]; [constructor|].
  apply (shortest_route_NoDup grid (floorCell start) (floorCell end_)).
  - apply route_isRoute, Hr.
  - intros q Hq. apply Hbest, isRoute_route, Hq.
Qed.

Lemma findShortestPath_no_repeat_witness :
  NoDup [(1, 1); (2, 1); (3, 1); (3, 2); (3, 3)].
Proof.
  apply (findShortestPath_no_repeat maze5 (mkPosition 1 1) (mkPosition 3 3)).
  reflexivity.
Defined.

(** ** The path finder on a generated maze *)

Lemma walk_parts a b p :
  walk a b p -> hd_error p = Some a /\ last p a = b /\ linked p.
Proof.
  induction 1 as [a|a c b p Hadj Hw (Hhd & Hlast & Hlink)].
  - repeat split.
  - destruct p as [|c' p]; [discriminate Hhd|]. cbn in Hhd. injection Hhd as ->.
    split; [reflexivity|]. split.
    + rewrite <- Hlast. change (last (c :: p) a = last (c :: p) c).
      apply last_nonempty.
    + cbn [linked]. split; assumption.
Qed.

Lemma parts_walk p : forall a b,
  hd_error p = Some a -> last p a = b -> linked p -> walk a b p.
Proof.
  induction p as [|x p IH]; intros a b Hhd Hlast Hlink; [discriminate|].
  cbn in Hhd. injection Hhd as ->. destruct p as [|c p].
  - cbn in Hlast. subst b. constructor.
  - cbn [linked] in Hlink. destruct Hlink as [Hadj Hlink].
    apply (walk_cons a c b); [exact Hadj|].
    apply IH; [reflexivity| |exact Hlink].
    rewrite <- Hlast. change (last (c :: p) c = last (c :: p) a).
    apply last_nonempty.
Qed.

Lemma simplePath_isRoute grid a b p : simplePath grid a b p -> isRoute grid a b p.
Proof.
  intros (Hw & _ & Hall). destruct (walk_parts a b p Hw) as (Hhd & Hlast & Hlink).
  split; [exact Hhd|]. split; [exact Hlast|]. split; [exact Hlink|].
  destruct p; [constructor|]. inversion Hall; assumption.
Qed.

(** X6. On the grid [generateMaze] returns, [findShortestPath] between
    two non-WALL cells (START and END among them) returns the one simple
    path between them: it is never empty and no other route competes. *)
Theorem findShortestPath_on_generated
    (shuffle : nat -> list (Z * Z)) (width height : Z) :
  (forall k, Permutation (shuffle k) Maze.directions) ->
  3 <= width -> 3 <= height ->
  exists m,
    Maze.generateMaze shuffle width height = Returns m
    /\ forall start end_,
         walkable (Maze.mz_grid m) (floorCell start) ->
         walkable (Maze.mz_grid m) (floorCell end_) ->
         exists path,
           Maze.findShortestPath (Maze.mz_grid m) start end_ = Returns path
           /\ path <> []
           /\ simplePath (Maze.mz_grid m) (floorCell start) (floorCell end_) path
           /\ forall q, simplePath (Maze.mz_grid m) (floorCell start) (floorCell end_) q ->
                        q = path.
Proof.
  intros Hperm HW HH.
  destruct (generateMaze_layout shuffle width height Hperm HW HH)
    as (m & S & Hret & _ & _ & Htree & Hopen & _).
  exists m. split; [exact Hret|]. intros start end_ Ha Hb.
  set (a := floorCell start) in *. set (b := floorCell end_) in *.
  pose proof Ha as HaS. pose proof Hb as HbS. apply Hopen in HaS, HbS.
  destruct (tree_unique_path S Htree a b HaS HbS) as (sp & Hsp & Huniq).
  apply (simplePath_simpleIn _ S a b sp Hopen) in Hsp.
  destruct (findShortestPath_answer (Maze.mz_grid m) start end_) as (path & Hpath & Hans).
  fold a b in Hans. exists path. split; [exact Hpath|].
  destruct Hans as [[-> Hnone]|[Hr Hbest]].
  - exfalso. apply (Hnone sp). apply isRoute_route, simplePath_isRoute, Hsp.
  - assert (Hroute : isRoute (Maze.mz_grid m) a b path) by (apply route_isRoute, Hr).
    assert (Hsimple : simplePath (Maze.mz_grid m) a b path).
    { destruct Hroute as (Hhd & Hlast & Hlink & Hw). split; [|split].
      - apply parts_walk; assumption.
      - apply (shortest_route_NoDup (Maze.mz_grid m) a b).
        + repeat split; assumption.
        + intros q Hq. apply Hbest, isRoute_route, Hq.
      - destruct path as [|c path]; [constructor|].
        cbn in Hhd. injection Hhd as ->. constructor; [exact Ha|exact Hw]. }
    assert (Heq : path = sp).
    { apply Huniq, (simplePath_simpleIn _ S a b path Hopen), Hsimple. }
    split; [|split; [exact Hsimple|]].
    + intros ->. pose proof (route_nonempty _ _ _ _ Hr) as Hlen. cbn in Hlen. lia.
    + intros q Hq. rewrite Heq. apply Huniq, (simplePath_simpleIn _ S a b q Hopen), Hq.
Qed.

Lemma findShortestPath_on_generated_witness :
  exists m,
    Maze.generateMaze (fun _ => Maze.directions) 7 7 = Returns m
    /\ exists path,
         Maze.findShortestPath (Maze.mz_grid m) (mkPosition 1 1) (mkPosition 5 5)
           = Returns path
         /\ path <> [].
Proof.
  destruct (findShortestPath_on_generated (fun _ => Maze.directions) 7 7)
    as (m & Hret & Hpaths).
  - intros k. apply Permutation_refl.
  - lia.
  - lia.
  - exists m. split; [exact Hret|].
    destruct (Hpaths (mkPosition 1 1) (mkPosition 5 5)) as (path & Hp & Hne & _).
    + vm_compute in Hret. injection Hret as <-. vm_compute. split; reflexivity.
    + vm_compute in Hret. injection Hret as <-. vm_compute. split; reflexivity.
    + exists path. split; assumption.
Defined.

(** ** Level construction *)

Lemma index_beyond {A} (l : list A) (i : Z) : len l <= i -> index l i = None.
Proof.
  unfold index, len. intros Hi.
  assert (Hneg : (i <? 0) = false) by (apply Z.ltb_ge; lia).
  rewrite Hneg. apply nth_error_None. lia.
Qed.

Lemma levelSize_value (level : Z) :
  Level.levelSize level =
  Returns (if level <? 0 then 15
           else if level <? 5 then 7 + 2 * level
           else 15 + 2 * (level - 4)).
Proof.
  assert (Hlast : index LEVELS (len LEVELS - 1) = Some (mkLevelConfig 15 8 true))
    by reflexivity.
  unfold Level.levelSize, Level.levelConfig. rewrite Hlast.
  change (len LEVELS) with 5.
  destruct (level <? 0) eqn:Hneg.
  - apply Z.ltb_lt in Hneg.
    assert (Hnone : index LEVELS level = None)
      by (unfold index; rewrite (proj2 (Z.ltb_lt _ _) Hneg); reflexivity).
    rewrite Hnone. cbn [Level.orElse defined bind lc_size].
    assert (Hle : (5 <=? level) = false) by (apply Z.leb_gt; lia).
    rewrite Hle. reflexivity.
  - apply Z.ltb_ge in Hneg. destruct (level <? 5) eqn:Hlt.
    + apply Z.ltb_lt in Hlt.
      assert (Hc : level = 0 \/ level = 1 \/ level = 2 \/ level = 3 \/ level = 4) by lia.
      destruct Hc as [->|[->|[->|[->| ->]]]]; reflexivity.
    + apply Z.ltb_ge in Hlt.
      rewrite (index_beyond LEVELS level) by (change (len LEVELS) with 5; lia).
      cbn [Level.orElse defined bind lc_size].
      assert (Hle : (5 <=? level) = true) by (apply Z.leb_le; lia).
      rewrite Hle. apply f_equal. lia.
Qed.

(** X7. Every level index, negative ones and indices past the table
    included, gets an odd size of at least 7 (the table's size inside the
    table, two more per level after it), and [generateMaze] on that size
    returns a maze with START on [(1, 1)], END on [(size - 2, size - 2)] and
    the spawn position clear of walls. *)
Theorem every_level_builds
    (shuffle : nat -> list (Z * Z)) (level : Z) :
  (forall k, Permutation (shuffle k) Maze.directions) ->
  exists size m,
    Level.levelSize level = Returns size
    /\ 7 <= size /\ Z.odd size = true
    /\ (0 <= level < 5 ->
        exists config, index LEVELS level = Some config /\ size = lc_size config)
    /\ (5 <= level -> size = 15 + 2 * (level - 4))
    /\ Maze.generateMaze shuffle size size = Returns m
    /\ Maze.mz_start m = (1, 1)
    /\ Maze.mz_end m = (size - 2, size - 2)
    /\ clear (Maze.mz_grid m) (mkPosition 1 1).
Proof.
  intros Hperm. rewrite levelSize_value.
  set (size := if level <? 0 then 15
               else if level <? 5 then 7 + 2 * level else 15 + 2 * (level - 4)).
  assert (Hsize : 7 <= size /\ size mod 2 = 1).
  { subst size. destruct (level <? 0) eqn:E1; [split; [lia|reflexivity]|].
    apply Z.ltb_ge in E1. destruct (level <? 5) eqn:E2.
    - split; [lia|]. Z.to_euclidean_division_equations; lia.
    - apply Z.ltb_ge in E2. split; [lia|]. Z.to_euclidean_division_equations; lia. }
  destruct Hsize as [Hmin Hodd].
  destruct (generateMaze_tree shuffle size size Hperm) as
    (m & S & Hret & Hstart & Hend & Hcs & _); try lia; try exact Hodd.
  exists size, m. split; [reflexivity|]. split; [exact Hmin|].
  split; [apply odd_isOdd; exact Hodd|]. split; [|split].
  - intros Hin. subst size.
    assert (Hc : level = 0 \/ level = 1 \/ level = 2 \/ level = 3 \/ level = 4) by lia.
    destruct Hc as [->|[->|[->|[->| ->]]]]; eexists; split; reflexivity.
  - intros Hpast. subst size.
    assert (E1 : (level <? 0) = false) by (apply Z.ltb_ge; lia).
    assert (E2 : (level <? 5) = false) by (apply Z.ltb_ge; lia).
    rewrite E1, E2. reflexivity.
  - split; [exact Hret|]. split; [exact Hstart|]. split; [exact Hend|].
    unfold clear. cbn [pos_x pos_z].
    apply (checkWallCollision_centred_open (Maze.mz_grid m) 1 1).
    rewrite Hcs. discriminate.
Qed.

Lemma every_level_builds_witness :
  exists size m,
    Level.levelSize 7 = Returns size /\ size = 21
    /\ Maze.generateMaze (fun _ => Maze.directions) size size = Returns m.
Proof.
  destruct (every_level_builds (fun _ => Maze.directions) 7)
    as (size & m & Hsize & _ & _ & _ & Hpast & Hret & _).
  - intros k. apply Permutation_refl.
  - exists size, m. split; [exact Hsize|]. split; [|exact Hret].
    rewrite Hpast by lia. reflexivity.
Defined.

(** *** The initial rotation *)

Lemma notWall_rect W H g x z :
  rect W H g -> 0 <= z < H ->
  Level.notWall g x z = Returns (negb (isWall g x z)).
Proof.
  intros [Hlen _] Hz. unfold Level.notWall, isWall, cellAt.
  destruct (index_Some g z) as [r Hr]; [rewrite Hlen; exact Hz|].
  rewrite Hr. cbn [defined bind].
  destruct (index r x) as [[]|]; reflexivity.
Qed.

Lemma walkable_isWall W H g x z :
  rect W H g -> 0 <= x < W -> 0 <= z < H ->
  (walkable g (x, z) <-> isWall g x z = false).
Proof.
  intros Hrect Hx Hz. unfold walkable. cbn [fst snd].
  assert (Hin : inGrid g x z = true)
    by (apply (rect_inGrid W H g x z Hrect); [lia|split; assumption]).
  rewrite Hin. tauto.
Qed.

(** X8. When the maze has more than one room (a size of 5 or more), the
    rotation [startLevel] picks for the player is never the default: it is
    [Math.PI] (South) with the cell South of START open, or
    [-Math.PI / 2] (East) with the cell East of START open and the one to
    the South a wall. *)
Theorem startRotation_faces_opening
    (shuffle : nat -> list (Z * Z)) (width height : Z) :
  (forall k, Permutation (shuffle k) Maze.directions) ->
  3 <= width -> 3 <= height -> 5 <= width \/ 5 <= height ->
  exists m,
    Maze.generateMaze shuffle width height = Returns m
    /\ ((Level.startRotation (Maze.mz_grid m) (Maze.mz_start m) = Returns Level.Rot_PI
         /\ walkable (Maze.mz_grid m) (1, 2))
        \/ (Level.startRotation (Maze.mz_grid m) (Maze.mz_start m)
              = Returns Level.Rot_minusHalfPI
            /\ walkable (Maze.mz_grid m) (2, 1)
            /\ ~ walkable (Maze.mz_grid m) (1, 2))).
Proof.
  intros Hperm HW HH Hbig.
  destruct (generateMaze_layout shuffle width height Hperm HW HH)
    as (m & S & Hret & Hstart & Hrect & Htree & Hopen & Hrooms & H11 & _ & Hint & _).
  exists m. split; [exact Hret|]. rewrite Hstart.
  set (g := Maze.mz_grid m) in *.
  assert (Hnext : In (1, 2) S \/ In (2, 1) S).
  { set (r := if 5 <=? width then (3, 1) else (1, 3)).
    assert (Hr : room width height r /\ r <> (1, 1)).
    { subst r. destruct (5 <=? width) eqn:E.
      - apply Z.leb_le in E. split; [|discriminate].
        unfold room, interior, isOdd. cbn [fst snd]. repeat split; lia.
      - apply Z.leb_gt in E. split; [|discriminate].
        unfold room, interior, isOdd. cbn [fst snd]. repeat split; lia. }
    destruct Hr as [Hroom Hne].
    destruct (tree_unique_path S Htree (1, 1) r H11 (Hrooms r Hroom))
      as (p & (Hw & Hnd & Hin) & _).
    inversion Hw as [|? c ? p' Hadj Hw' Ha]; subst; [congruence|].
    assert (HcS : In c S).
    { apply Hin. right. apply (walk_in_first c r p' Hw'). }
    destruct (Hint c HcS) as [[Hcx Hcz] _].
    destruct c as [cx cz]. unfold adjacent in Hadj. cbn [fst snd] in *.
    assert (Hc : (cx = 1 /\ cz = 2) \/ (cx = 2 /\ cz = 1)) by lia.
    destruct Hc as [[-> ->]|[-> ->]]; [left|right]; exact HcS. }
  assert (Hnorth : isWall g 1 0 = true).
  { destruct (isWall g 1 0) eqn:E; [reflexivity|]. exfalso.
    apply (walkable_isWall width height g 1 0 Hrect) in E; [|lia|lia].
    apply Hopen in E. destruct (Hint _ E) as [[_ Hz] _]. cbn [snd] in Hz. lia. }
  unfold Level.startRotation. cbv zeta. cbn [fst snd].
  change (0 <? 1) with true. cbn [Level.andThen].
  rewrite (notWall_rect width height g 1 (1 - 1) Hrect) by lia.
  change (1 - 1) with 0. rewrite Hnorth. cbn [negb bind].
  assert (Hrows : (1 <? len g - 1) = true).
  { destruct Hrect as [-> _]. apply Z.ltb_lt. lia. }
  rewrite Hrows. cbn [Level.andThen].
  rewrite (notWall_rect width height g 1 (1 + 1) Hrect) by lia.
  change (1 + 1) with 2.
  destruct (isWall g 1 2) eqn:Hsouth; cbn [negb bind].
  - right.
    assert (Hnot : ~ walkable g (1, 2)).
    { intros Hw. apply (walkable_isWall width height g 1 2 Hrect) in Hw; [|lia|lia].
      congruence. }
    assert (Heast : walkable g (2, 1)).
    { apply Hopen. destruct Hnext as [Hs|He]; [|exact He].
      exfalso. apply Hnot, Hopen, Hs. }
    split; [|split; [exact Heast|exact Hnot]].
    destruct (index_Some g 0) as [row0 Hrow0];
      [destruct Hrect as [-> _]; lia|].
    rewrite Hrow0. cbn [defined bind].
    rewrite (rect_row width height g 0 row0 Hrect Hrow0).
    assert (Hcols : (1 <? width - 1) = true) by (apply Z.ltb_lt; lia).
    rewrite Hcols. cbn [Level.andThen].
    rewrite (notWall_rect width height g 2 1 Hrect) by lia.
    apply (walkable_isWall width height g 2 1 Hrect) in Heast; [|lia|lia].
    rewrite Heast. reflexivity.
  - left. split; [reflexivity|].
    apply (walkable_isWall width height g 1 2 Hrect); [lia|lia|exact Hsouth].
Qed.

Lemma startRotation_faces_opening_witness :
  exists m,
    Maze.generateMaze (fun _ => Maze.directions) 5 5 = Returns m
    /\ Level.startRotation (Maze.mz_grid m) (Maze.mz_start m)
       = Returns Level.Rot_minusHalfPI.
Proof.
  destruct (startRotation_faces_opening (fun _ => Maze.directions) 5 5)
    as (m & Hret & Hrot).
  - intros k. apply Permutation_refl.
  - lia.
  - lia.
  - left. lia.
  - exists m. split; [exact Hret|].
    destruct Hrot as [[_ Hsouth]|[Heast _]]; [|exact Heast].
    exfalso. vm_compute in Hret. injection Hret as <-.
    destruct Hsouth as [_ Hw]. discriminate Hw.
Defined.

(** *** The sampled spots and the entities placed on them *)

Lemma sampleLoop_count random fuel grid width height count excl :
  forall k spots result,
    len spots <= Z.max 0 count ->
    Maze.sampleLoop random fuel grid width height count excl 0 k spots
      = Returns result ->
    len result = Z.max 0 count.
Proof.
  induction fuel as [|fuel IH]; intros k spots result Hlen Hret; [discriminate|].
  cbn [Maze.sampleLoop] in Hret. cbv zeta in Hret.
  change (0 <? 1000) with true in Hret. rewrite andb_true_r in Hret.
  destruct (len spots <? count) eqn:Hlt.
  2:{ injection Hret as <-. apply Z.ltb_ge in Hlt. unfold len in *. lia. }
  apply Z.ltb_lt in Hlt.
  destruct (index grid (Qfloor (random (S k) * inject_Z height))) as [r|];
    cbn [defined bind] in Hret; [|discriminate].
  assert (Hpush : forall c, len (spots ++ [c]) <= Z.max 0 count).
  { intros c. unfold len in *. rewrite length_app. cbn [length]. lia. }
  destruct (index r (Qfloor (random k * inject_Z width))) as [[]|];
    try (eapply IH; [exact Hlen|exact Hret]).
  destruct (excl && _ && _); [eapply IH; [exact Hlen|exact Hret]|].
  destruct (negb _);
    (eapply IH; [|exact Hret]; first [exact Hlen|apply Hpush]).
Qed.

(** X9. [findEmptySpots] never returns a short or a long result: when it
    returns, the number of spots is [count] (0 for a negative [count]). *)
Theorem findEmptySpots_exact_count
    (random : nat -> Q) (fuel : nat) (grid : Grid) (count : Z) (excl : bool)
    (spots : list Cell) :
  Maze.findEmptySpots random fuel grid count excl = Returns spots ->
  len spots = Z.max 0 count.
Proof.
  unfold Maze.findEmptySpots.
  destruct (index grid 0) as [row0|]; cbn [defined bind]; [|discriminate].
  cbv zeta. apply sampleLoop_count. cbn. lia.
Qed.

Lemma findEmptySpots_exact_count_witness :
  len [(5, 0); (4, 0)] = Z.max 0 2.
Proof.
  apply (findEmptySpots_exact_count picks 10 longRow 2 true). reflexivity.
Defined.

Definition cellPosition (c : Cell) : Q * Q := (inject_Z (fst c), inject_Z (snd c)).
Definition obstacleAt (o : Obstacle) : Q * Q := (obs_x o, obs_z o).
Definition powerUpAt (p : PowerUp) : Q * Q := (pu_x p, pu_z p).

Lemma index_of_nat {A} (l : list A) (j : nat) : index l (Z.of_nat j) = nth_error l j.
Proof.
  unfold index. assert (Hneg : (Z.of_nat j <? 0) = false) by (apply Z.ltb_ge; lia).
  rewrite Hneg, Nat2Z.id. reflexivity.
Qed.

Lemma skipn_nth {A} (l : list A) (j : nat) (x : A) :
  nth_error l j = Some x -> skipn j l = x :: skipn (S j) l.
Proof.
  revert j. induction l as [|a l IH]; intros [|j] H; try discriminate.
  - cbn in H. injection H as ->. reflexivity.
  - cbn in H. cbn [skipn]. rewrite (IH j H). reflexivity.
Qed.

Lemma skipn_none {A} (l : list A) (j : nat) : nth_error l j = None -> skipn j l = [].
Proof. intros H. apply skipn_all2. apply nth_error_None, H. Qed.

Lemma label_inj_obs i j : Level.label "obs-" i = Level.label "obs-" j -> i = j.
Proof.
  unfold Level.label. cbn [String.append]. intros H. injection H as H.
  apply DecimalZ.to_int_inj.
  pose proof (NilEmpty.isi (Z.to_int i)) as Hi.
  pose proof (NilEmpty.isi (Z.to_int j)) as Hj. congruence.
Qed.

Lemma label_inj_pwr i j : Level.label "pwr-" i = Level.label "pwr-" j -> i = j.
Proof.
  unfold Level.label. cbn [String.append]. intros H. injection H as H.
  apply DecimalZ.to_int_inj.
  pose proof (NilEmpty.isi (Z.to_int i)) as Hi.
  pose proof (NilEmpty.isi (Z.to_int j)) as Hj. congruence.
Qed.

Lemma label_obs_pwr i j : Level.label "obs-" i <> Level.label "pwr-" j.
Proof. unfold Level.label. cbn [String.append]. discriminate. Qed.

Section Placement.

Variable random : nat -> Q.
Variable config : LevelConfig.
Variable spots : list Cell.

Lemma addObstacles_spec n : forall j k acc,
  exists L k',
    Level.addObstacles random config spots n (Z.of_nat j) k acc = (acc ++ L, k')
    /\ map obstacleAt L = map cellPosition (firstn n (skipn j spots))
    /\ map obs_id L = map (fun t => Level.label "obs-" (Z.of_nat t)) (seq j (length L))
    /\ Forall (fun o => obs_initialPos o = mkPosition (obs_x o) (obs_z o)) L
    /\ (lc_movingObstacles config = false ->
        Forall (fun o => obs_type o = STATIC_SPIKE) L).
Proof.
  induction n as [|n IH]; intros j k acc.
  - exists [], k. cbn. rewrite app_nil_r. repeat split; constructor.
  - cbn [Level.addObstacles]. rewrite index_of_nat.
    destruct (nth_error spots j) as [spot|] eqn:Hspot.
    + replace (Z.of_nat j + 1) with (Z.of_nat (S j)) by lia.
      destruct (IH (S j) (S (S k)) (acc ++ [Level.makeObstacle random config (Z.of_nat j) spot k]))
        as (L & k' & Hrun & Hpos & Hids & Hinit & Hstatic).
      exists (Level.makeObstacle random config (Z.of_nat j) spot k :: L), k'.
      rewrite Hrun, <- app_assoc. cbn [app]. split; [reflexivity|].
      rewrite (skipn_nth spots j spot Hspot). cbn [firstn map length seq].
      split; [rewrite Hpos; reflexivity|]. split; [rewrite Hids; reflexivity|].
      split; [constructor; [reflexivity|exact Hinit]|].
      intros Hmov. constructor; [|apply Hstatic, Hmov].
      unfold Level.makeObstacle. cbn [obs_type]. rewrite Hmov. reflexivity.
    + exists [], k. rewrite app_nil_r, (skipn_none spots j Hspot), firstn_nil.
      cbn. repeat split; constructor.
Qed.

Lemma addPowerUps_spec n : forall j k acc,
  (n + j <= length spots)%nat ->
  exists L,
    Level.addPowerUps random spots n (Z.of_nat j) k acc = Returns (acc ++ L)
    /\ map powerUpAt L = map cellPosition (firstn n (skipn j spots))
    /\ map pu_id L = map (fun t => Level.label "pwr-" (Z.of_nat t)) (seq j (length L))
    /\ Forall (fun p => pu_collected p = false) L.
Proof.
  induction n as [|n IH]; intros j k acc Hlen.
  - exists []. cbn. rewrite app_nil_r. repeat split; constructor.
  - cbn [Level.addPowerUps]. rewrite index_of_nat.
    destruct (nth_error spots j) as [spot|] eqn:Hspot.
    2:{ apply nth_error_None in Hspot. lia. }
    cbn [defined bind].
    replace (Z.of_nat j + 1) with (Z.of_nat (S j)) by lia.
    destruct (IH (S j) (S k) (acc ++ [Level.makePowerUp random (Z.of_nat j) spot k]))
      as (L & Hrun & Hpos & Hids & Hnew); [lia|].
    exists (Level.makePowerUp random (Z.of_nat j) spot k :: L).
    rewrite Hrun, <- app_assoc. cbn [app]. split; [reflexivity|].
    rewrite (skipn_nth spots j spot Hspot). cbn [firstn map length seq].
    split; [rewrite Hpos; reflexivity|]. split; [rewrite Hids; reflexivity|].
    constructor; [reflexivity|exact Hnew].
Qed.

End Placement.

Lemma placeEntities_spec
    (random : nat -> Q) (config : LevelConfig) (spots : list Cell) :
  0 <= lc_obstacles config ->
  exists obstacles powerUps,
    Level.placeEntities random config spots = Returns (obstacles, powerUps)
    /\ map obstacleAt obstacles ++ map powerUpAt powerUps = map cellPosition spots
    /\ length obstacles = Nat.min (Z.to_nat (lc_obstacles config)) (length spots)
    /\ NoDup (map obs_id obstacles ++ map pu_id powerUps)
    /\ Forall (fun p => pu_collected p = false) powerUps
    /\ Forall (fun o => obs_initialPos o = mkPosition (obs_x o) (obs_z o)) obstacles
    /\ (lc_movingObstacles config = false ->
        Forall (fun o => obs_type o = STATIC_SPIKE) obstacles).
Proof.
  intros Hpos. unfold Level.placeEntities.
  set (no := Z.to_nat (lc_obstacles config)).
  destruct (addObstacles_spec random config spots no 0%nat 0%nat [])
    as (L1 & k' & Hrun1 & Hpos1 & Hids1 & Hinit & Hstatic).
  change (Z.of_nat 0) with 0 in Hrun1. rewrite Hrun1. cbn [app].
  assert (Hj : lc_obstacles config = Z.of_nat no) by (subst no; lia).
  assert (Hn : Z.to_nat (len spots - lc_obstacles config) = (length spots - no)%nat)
    by (unfold len; lia).
  rewrite Hn, Hj.
  destruct (Nat.le_gt_cases no (length spots)) as [Hle|Hgt].
  - destruct (addPowerUps_spec random spots (length spots - no) no k' [])
      as (L2 & Hrun2 & Hpos2 & Hids2 & Hnew); [lia|].
    rewrite Hrun2. cbn [bind app]. exists L1, L2. split; [reflexivity|].
    cbn [skipn] in Hpos1.
    split; [|split; [|split; [|split; [exact Hnew|split; assumption]]]].
    + rewrite Hpos1, Hpos2, <- map_app. f_equal.
      rewrite (firstn_all2 (n := length spots - no)) by (rewrite length_skipn; lia).
      apply firstn_skipn.
    + rewrite <- (length_map obstacleAt), Hpos1, length_map, length_firstn.
      reflexivity.
    + rewrite Hids1, Hids2. apply NoDup_app.
      * apply Finite.Injective_map_NoDup; [|apply seq_NoDup].
        intros a b Hab. apply label_inj_obs in Hab. lia.
      * apply Finite.Injective_map_NoDup; [|apply seq_NoDup].
        intros a b Hab. apply label_inj_pwr in Hab. lia.
      * intros id H1 H2. apply in_map_iff in H1, H2.
        destruct H1 as (a & <- & _). destruct H2 as (b & Hb & _).
        symmetry in Hb. revert Hb. apply label_obs_pwr.
  - replace (length spots - no)%nat with 0%nat by lia.
    cbn [Level.addPowerUps bind]. exists L1, []. split; [reflexivity|].
    cbn [skipn] in Hpos1. cbn [map]. rewrite !app_nil_r.
    split; [|split; [|split; [|split; [constructor|split; assumption]]]].
    + rewrite Hpos1. f_equal. apply firstn_all2. lia.
    + rewrite <- (length_map obstacleAt), Hpos1, length_map, length_firstn.
      reflexivity.
    + rewrite Hids1. apply Finite.Injective_map_NoDup; [|apply seq_NoDup].
      intros a b Hab. apply label_inj_obs in Hab. lia.
Qed.

(** X10. [startLevel] puts the entities on the sampled spots in order,
    obstacles first: one entity per spot and none elsewhere, at most
    [config.obstacles] obstacles, the rest power-ups.  All identifiers are
    different, every power-up starts uncollected, every obstacle starts on
    its [initialPos], and without [movingObstacles] all are static. *)
Theorem placeEntities_on_spots
    (random : nat -> Q) (config : LevelConfig) (spots : list Cell) :
  0 <= lc_obstacles config ->
  exists obstacles powerUps,
    Level.placeEntities random config spots = Returns (obstacles, powerUps)
    /\ map obstacleAt obstacles ++ map powerUpAt powerUps = map cellPosition spots
    /\ length obstacles = Nat.min (Z.to_nat (lc_obstacles config)) (length spots)
    /\ NoDup (map obs_id obstacles ++ map pu_id powerUps)
    /\ Forall (fun p => pu_collected p = false) powerUps
    /\ Forall (fun o => obs_initialPos o = mkPosition (obs_x o) (obs_z o)) obstacles
    /\ (lc_movingObstacles config = false ->
        Forall (fun o => obs_type o = STATIC_SPIKE) obstacles).
Proof.
  intros Hpos.
  destruct (placeEntities_spec random config spots Hpos)
    as (obstacles & powerUps & Hret & Hat & Hcount & Hids & Hnew & Hinit & Hstatic).
  exists obstacles, powerUps. split; [exact Hret|]. split; [exact Hat|].
  split; [exact Hcount|]. split; [exact Hids|]. split; [exact Hnew|].
  split; [exact Hinit|exact Hstatic].
Qed.

Lemma placeEntities_on_spots_witness :
  exists obstacles powerUps,
    Level.placeEntities (fun _ => 7 # 10) (mkLevelConfig 9 2 false)
      [(5, 1); (7, 3); (3, 5); (1, 7)] = Returns (obstacles, powerUps)
    /\ length obstacles = 2%nat
    /\ NoDup (map obs_id obstacles ++ map pu_id powerUps).
Proof.
  destruct (placeEntities_on_spots (fun _ => 7 # 10) (mkLevelConfig 9 2 false)
              [(5, 1); (7, 3); (3, 5); (1, 7)])
    as (obstacles & powerUps & Hret & _ & Hlen & Hids & _); [cbn; lia|].
  exists obstacles, powerUps. split; [exact Hret|]. split; [exact Hlen|exact Hids].
Defined.

(** A position that is the centre of a PATH cell outside the block
    [x < 4, z < 4] around the start. *)
Definition freeSpot (grid : Grid) (q : Q * Q) : Prop :=
  exists c, q = cellPosition c
            /\ cellAt grid (fst c) (snd c) = Some PATH
            /\ ~ (fst c < 4 /\ snd c < 4).

Lemma cellPosition_inj : Finite.Injective cellPosition.
Proof.
  intros [a b] [c d] H. unfold cellPosition, inject_Z in H. cbn in H.
  injection H as Ha Hb. subst. reflexivity.
Qed.

(** X11. A level that [startLevel] manages to populate has exactly
    [config.obstacles] obstacles and two power-ups; each of them sits on the
    centre of a PATH cell of the maze (never a wall, START or END) outside
    the 4 x 4 block at the start, and no two of them share a cell. *)
Theorem populate_free_cells
    (random random' : nat -> Q) (fuel : nat) (config : LevelConfig) (grid : Grid)
    (obstacles : list Obstacle) (powerUps : list PowerUp) :
  0 <= lc_obstacles config ->
  Level.populate random random' fuel config grid = Returns (obstacles, powerUps) ->
  length obstacles = Z.to_nat (lc_obstacles config)
  /\ length powerUps = 2%nat
  /\ Forall (fun o => freeSpot grid (obstacleAt o)) obstacles
  /\ Forall (fun p => freeSpot grid (powerUpAt p)) powerUps
  /\ NoDup (map obstacleAt obstacles ++ map powerUpAt powerUps).
Proof.
  intros Hpos. unfold Level.populate.
  destruct (Maze.findEmptySpots random fuel grid (lc_obstacles config + 2) true)
    as [spots| |] eqn:Hspots; cbn [bind]; try discriminate.
  assert (Hgood : goodSpots grid true spots /\ len spots = lc_obstacles config + 2).
  { unfold Maze.findEmptySpots in Hspots.
    destruct (index grid 0) as [row0|]; cbn [defined bind] in Hspots; [|discriminate].
    cbv zeta in Hspots. split.
    - eapply (sampleLoop_good random); [apply goodSpots_nil|exact Hspots].
    - assert (Hnil : len (@nil Cell) <= Z.max 0 (lc_obstacles config + 2))
        by (cbn; lia).
      rewrite (sampleLoop_count _ _ _ _ _ _ _ _ _ _ Hnil Hspots). lia. }
  destruct Hgood as ((Hnd & Hpath & Hblock) & Hlen).
  destruct (placeEntities_spec random' config spots Hpos)
    as (obs & pus & Hret & Hat & Hcount & _).
  rewrite Hret. intros Heq. injection Heq as Ho Hp. subst obstacles powerUps.
  assert (Hall : (length obs + length pus = length spots)%nat).
  { rewrite <- (length_map obstacleAt obs), <- (length_map powerUpAt pus),
      <- length_app, Hat. apply length_map. }
  assert (Hfree : forall q, In q (map cellPosition spots) -> freeSpot grid q).
  { intros q Hq. apply in_map_iff in Hq. destruct Hq as (c & <- & Hc).
    exists c. split; [reflexivity|]. split; [apply Hpath, Hc|].
    apply Hblock; [reflexivity|exact Hc]. }
  unfold len in Hlen. split; [lia|]. split; [lia|].
  split; [|split].
  - apply Forall_forall. intros o Ho. apply Hfree. rewrite <- Hat.
    apply in_or_app. left. apply in_map, Ho.
  - apply Forall_forall. intros pu Hpu. apply Hfree. rewrite <- Hat.
    apply in_or_app. right. apply in_map, Hpu.
  - rewrite Hat. apply Finite.Injective_map_NoDup; [apply cellPosition_inj|exact Hnd].
Qed.

(** A row with four free cells outside the start block, sampled at
    columns 4, 5 and 6. *)
Definition wideRow : Grid :=
  [ [WALL; PATH; PATH; PATH; PATH; PATH; PATH; PATH; WALL] ].

Definition columns (k : nat) : Q :=
  match k with
  | 0%nat => 4 # 9 | 2%nat => 5 # 9 | 4%nat => 6 # 9
  | _ => 0
  end.

Lemma populate_free_cells_witness :
  let obstacles :=
    [mkObstacle "obs-0" 4 0 PATROL_ENEMY AxisZ (3 # 2) (3 # 2) (mkPosition 4 0)] in
  let powerUps :=
    [mkPowerUp "pwr-1" 5 0 MAP_REVEAL false; mkPowerUp "pwr-2" 6 0 MAP_REVEAL false] in
  Level.populate columns (fun _ => 0%Q) 10 (mkLevelConfig 9 1 true) wideRow
    = Returns (obstacles, powerUps)
  /\ NoDup (map obstacleAt obstacles ++ map powerUpAt powerUps).
Proof.
  cbv zeta. split; [vm_compute; reflexivity|].
  apply (populate_free_cells columns (fun _ => 0%Q) 10 (mkLevelConfig 9 1 true) wideRow).
  - cbn. lia.
  - vm_compute. reflexivity.
Defined.

(** ** The frame that arms the ability *)

Section Arming.

Import App.

Variable sin : Q -> Q.
Variable sqrt : Q -> Q.






End Arming.




(** ** The power-up pass *)

Section Pickup.

Variable sqrt : Q -> Q.
Variable grid : Grid.
Variable playerPos endPos : Position.
Variable now : Q.

(** A power-up of the iterated list that the pass collects. *)
Definition picked (p : PowerUp) : bool :=
  negb (pu_collected p) && Qltb (Level.pickupDistance sqrt p playerPos) (1 # 2).

Definition asCollected (pu : PowerUp) : PowerUp :=
  mkPowerUp (pu_id pu) (pu_x pu) (pu_z pu) (pu_type pu) true.

(** [pu] carries the identifier of a collected power-up. *)
Definition taken (powerUps : list PowerUp) (pu : PowerUp) : bool :=
  existsb (fun p => picked p && String.eqb (pu_id pu) (pu_id p)) powerUps.

Definition isExtraLife (p : PowerUp) : bool :=
  match pu_type p with EXTRA_LIFE => true | MAP_REVEAL => false end.

Definition isMapReveal (p : PowerUp) : bool :=
  match pu_type p with MAP_REVEAL => true | EXTRA_LIFE => false end.

Definition count (f : PowerUp -> bool) (l : list PowerUp) : nat :=
  length (filter f l).

Lemma pickupPass_spec powerUps : forall st,
  exists st',
    fold_left (Level.checkPowerUp sqrt grid playerPos endPos now) powerUps (Returns st)
      = Returns st'
    /\ Level.pk_powerUps st' =
       map (fun pu => if taken powerUps pu then asCollected pu else pu) (Level.pk_powerUps st)
    /\ Level.pk_lives st' =
       Level.pk_lives st + Z.of_nat (count (fun p => picked p && isExtraLife p) powerUps)
    /\ Level.pk_clearAt st' =
       Level.pk_clearAt st
       ++ repeat (now + 5000)%Q (count (fun p => picked p && isMapReveal p) powerUps).
Proof.
  induction powerUps as [|p l IH]; intros st.
  - exists st. cbn. split; [reflexivity|]. split; [|split].
    + symmetry. apply map_id.
    + lia.
    + symmetry. apply app_nil_r.
  - cbn [fold_left]. unfold Level.checkPowerUp at 2. cbn [bind].
    unfold count, taken. cbn [filter existsb].
    assert (Hpicked : picked p = negb (pu_collected p)
                       && Qltb (Level.pickupDistance sqrt p playerPos) (1 # 2))
      by reflexivity.
    destruct (pu_collected p); cbn [negb andb] in Hpicked;
      [| destruct (Qltb (Level.pickupDistance sqrt p playerPos) (1 # 2)) ];
      rewrite Hpicked; cbn [andb orb];
      try (destruct (IH st) as (st' & Hrun & Hpu & Hlives & Hclear);
           exists st'; split; [exact Hrun|]; split; [exact Hpu|];
           split; [exact Hlives|exact Hclear]).
    unfold Level.collectPowerUp, isExtraLife, isMapReveal.
    assert (Hmark : forall st1,
      Level.pk_powerUps st1 = map (Level.markCollected p) (Level.pk_powerUps st) ->
      forall st',
      Level.pk_powerUps st' =
        map (fun pu => if taken l pu then asCollected pu else pu) (Level.pk_powerUps st1) ->
      Level.pk_powerUps st' =
        map (fun pu =>
               if String.eqb (pu_id pu) (pu_id p) || taken l pu
               then asCollected pu else pu) (Level.pk_powerUps st)).
    { intros st1 H1 st' H'. rewrite H', H1, map_map. apply map_ext. intros pu.
      unfold Level.markCollected. destruct (String.eqb (pu_id pu) (pu_id p)).
      - change (taken l (mkPowerUp (pu_id pu) (pu_x pu) (pu_z pu) (pu_type pu) true))
          with (taken l pu).
        cbn [orb]. destruct (taken l pu); reflexivity.
      - reflexivity. }
    destruct (pu_type p).
    + destruct (findShortestPath_answer grid playerPos endPos) as (path & Hpath & _).
      rewrite Hpath. cbn [bind].
      destruct (IH (Level.mkPickups (map (Level.markCollected p) (Level.pk_powerUps st))
                      (Level.pk_lives st) path (Level.pk_clearAt st ++ [(now + 5000)%Q])))
        as (st' & Hrun & Hpu & Hlives & Hclear).
      exists st'. split; [exact Hrun|]. split; [|split].
      * eapply Hmark; [|exact Hpu]. reflexivity.
      * rewrite Hlives. reflexivity.
      * rewrite Hclear. cbn [Level.pk_clearAt length repeat]. rewrite <- app_assoc.
        reflexivity.
    + destruct (IH (Level.mkPickups (map (Level.markCollected p) (Level.pk_powerUps st))
                      (Level.pk_lives st + 1) (Level.pk_optimalPath st) (Level.pk_clearAt st)))
        as (st' & Hrun & Hpu & Hlives & Hclear).
      exists st'. split; [exact Hrun|]. split; [|split].
      * eapply Hmark; [|exact Hpu]. reflexivity.
      * rewrite Hlives. cbn [Level.pk_lives length]. unfold count, isExtraLife. lia.
      * rewrite Hclear. reflexivity.
Qed.

End Pickup.

(** X13. The power-up pass of a frame always returns.  It adds one life
    per uncollected EXTRA_LIFE power-up of the iterated list within 0.5 of
    the player and schedules one clearing of the staged path, 5000 ms
    later, per such MAP_REVEAL power-up; in the state it marks as collected
    the power-ups that carry the identifier of a collected one and changes
    nothing else: no power-up is added, dropped, moved or reordered. *)
Theorem pickupPass_effect
    (sqrt : Q -> Q) (grid : Grid) (playerPos endPos : Position) (now : Q)
    (powerUps : list PowerUp) (st : Level.Pickups) :
  exists st',
    Level.pickupPass sqrt grid playerPos endPos now powerUps st = Returns st'
    /\ Level.pk_powerUps st' =
       map (fun pu => if taken sqrt playerPos powerUps pu then asCollected pu else pu)
         (Level.pk_powerUps st)
    /\ Level.pk_lives st' =
       Level.pk_lives st
       + Z.of_nat (count (fun p => picked sqrt playerPos p && isExtraLife p) powerUps)
    /\ Level.pk_clearAt st' =
       Level.pk_clearAt st
       ++ repeat (now + 5000)%Q
            (count (fun p => picked sqrt playerPos p && isMapReveal p) powerUps).
Proof.
  unfold Level.pickupPass.
  destruct (pickupPass_spec sqrt grid playerPos endPos now powerUps st)
    as (st' & Hrun & Hmarked & Hlives & Hclear).
  exists st'. split; [exact Hrun|]. split; [exact Hmarked|].
  split; [exact Hlives|exact Hclear].
Qed.

(** ** The countdown *)

(** X14. The countdown of MEMORIZE and MAP_PEEK started at [n >= 1] keeps
    the phase for the first [n - 1] ticks, the timer going down by one each
    time, and its [n]-th tick sets the timer to 0 and the phase to PLAYING,
    where later ticks leave them. *)
Theorem countdown_lasts (phase : GamePhase) (n : Z) (k : nat) :
  1 <= n ->
  Nat.iter k Level.countdownTick (phase, n) =
  if Z.of_nat k <? n then (phase, n - Z.of_nat k) else (PLAYING, 0).
Proof.
  intros Hn. induction k as [|k IH].
  - unfold Nat.iter. cbn [nat_rect]. assert (H0 : (Z.of_nat 0 <? n) = true) by (apply Z.ltb_lt; lia).
    rewrite H0. apply f_equal. lia.
  - rewrite Nat.iter_succ, IH. destruct (Z.of_nat k <? n) eqn:Hk.
    + apply Z.ltb_lt in Hk. unfold Level.countdownTick.
      destruct (Z.of_nat (S k) <? n) eqn:Hk'.
      * apply Z.ltb_lt in Hk'.
        assert (Hgt : (n - Z.of_nat k <=? 1) = false) by (apply Z.leb_gt; lia).
        rewrite Hgt. apply f_equal. lia.
      * apply Z.ltb_ge in Hk'.
        assert (Hle : (n - Z.of_nat k <=? 1) = true) by (apply Z.leb_le; lia).
        rewrite Hle. reflexivity.
    + apply Z.ltb_ge in Hk.
      assert (Hk' : (Z.of_nat (S k) <? n) = false) by (apply Z.ltb_ge; lia).
      rewrite Hk'. reflexivity.
Qed.

Lemma countdown_lasts_witness :
  Nat.iter 9 Level.countdownTick (MEMORIZE, MEMORIZE_TIME) = (MEMORIZE, 1)
  /\ Nat.iter 10 Level.countdownTick (MEMORIZE, MEMORIZE_TIME) = (PLAYING, 0).
Proof.
  split.
  - apply (countdown_lasts MEMORIZE MEMORIZE_TIME 9). unfold MEMORIZE_TIME. lia.
  - apply (countdown_lasts MEMORIZE MEMORIZE_TIME 10). unfold MEMORIZE_TIME. lia.
Defined.

(** ** The cooldown counter *)

Section Cooldown.

Import App.

Variable sin : Q -> Q.
Variable sqrt : Q -> Q.

Definition cooldownRange (s : Session) : Prop := 0 <= pulveriseCooldown s <= 3.

Lemma cooldownRange_step now e s :
  cooldownRange s -> cooldownRange (step sin sqrt now e s).
Proof.
  unfold cooldownRange. intros Hs. destruct e; unfold step.
  - pose proof (update_cooldown sin sqrt now (setClock now s)) as (H1 & _).
    rewrite H1. exact Hs.
  - cbn. exact Hs.
  - cbn. lia.
  - unfold handlePulverise. cbn. destruct (canPulverise s); cbn; lia.
  - cbn. exact Hs.
  - cbn. exact Hs.
  - cbn. exact Hs.
  - cbn. exact Hs.
  - cbn. exact Hs.
Qed.

Lemma cooldownRange_run trace : forall s,
  cooldownRange s -> cooldownRange (run sin sqrt trace s).
Proof.
  induction trace as [|[now e] trace IH]; intros s Hs; [exact Hs|].
  cbn [run]. apply IH, cooldownRange_step, Hs.
Qed.

End Cooldown.

(** X15. In every session the event loop can reach, the cooldown counter
    is between 0 and 3, and the ability is armed only when it is 0. *)
Theorem cooldown_stays_in_range (sin sqrt : Q -> Q) (s : App.Session) :
  App.reachable sin sqrt s ->
  0 <= App.pulveriseCooldown s <= 3
  /\ (App.canPulverise s = true -> App.pulveriseCooldown s = 0).
Proof.
  intros (history & _ & <-). split.
  - apply cooldownRange_run. unfold cooldownRange. cbn. lia.
  - intros Hcan.
    destruct (Z.eq_dec (App.pulveriseCooldown (App.run sin sqrt history App.initial)) 0)
      as [H0|Hne]; [exact H0|].
    pose proof (coolingDown_run sin sqrt history App.initial) as Hcd.
    unfold coolingDown in Hcd. rewrite Hcd in Hcan; [discriminate| |exact Hne].
    intros _. reflexivity.
Qed.

(** A level is started, play begins, a frame arms the ability, the button
    is pressed and the interval ticks once. *)
Definition pressAndWait : list (Q * App.Event) :=
  [ (0, App.LevelStarted [spikeAt "obs-0" 3 1] (mkPosition 1 1));
    (10000, App.PhaseSet PLAYING);
    (10016, App.AnimationFrame);
    (10500, App.PulverisePressed);
    (11500, App.CooldownInterval) ]%Q.

Lemma cooldown_stays_in_range_witness :
  App.pulveriseCooldown (App.run (fun _ => 0%Q) isqrt pressAndWait App.initial) = 2
  /\ 0 <= App.pulveriseCooldown
            (App.run (fun _ => 0%Q) isqrt pressAndWait App.initial) <= 3.
Proof.
  split; [reflexivity|].
  apply (cooldown_stays_in_range (fun _ => 0%Q) isqrt).
  exists pressAndWait. split; [|reflexivity].
  vm_compute. repeat split; discriminate.
Defined.
